(** * SD card read/write self-test of the PortaPack firmware

    A shallow embedding of [SDCardTestThread] from
    [firmware/application/ui_sd_card_debug.cpp]: the pattern oracle it
    drives, the write and read phases, and the orchestration in [run],
    as state-passing functions over an explicit world (injected
    storage, heap, timer and cancellation behaviour, file system,
    statistics record), followed by the properties of the test run. *)

From stdpp Require Import base option list gmap strings pretty.
From Stdlib Require Import ZArith Lia Ascii.

Local Open Scope Z_scope.

(** ** Machine integers

    [size_t] and [halrtcnt_t] are 32-bit unsigned on the target: sums and
    differences wrap modulo 2^32. *)

Definition wrap32 (z : Z) : Z := z mod 2 ^ 32.
Definition add32 (a b : Z) : Z := wrap32 (a + b).
Definition sub32 (a b : Z) : Z := wrap32 (a - b).

Arguments wrap32 : simpl never.
Arguments add32 : simpl never.
Arguments sub32 : simpl never.

Lemma wrap32_range z : 0 ≤ wrap32 z < 2 ^ 32.
Proof. unfold wrap32. apply Z.mod_pos_bound. lia. Qed.

Lemma wrap32_small z : 0 ≤ z < 2 ^ 32 → wrap32 z = z.
Proof. intros H. unfold wrap32. apply Z.mod_small. exact H. Qed.

(** ** Pattern oracle ([lfsr_random.hpp]) *)

Section PatternOracle.

(** The advance rule of the shift register ([lfsr_iterate]) lives in
    [lfsr_random.cpp], which is not part of the sources at hand; it is
    a parameter of the whole development. *)
Variable lfsr_iterate : Z → Z.

(** Modelled from the spec: [lfsr_fill] ([generate]) is missing from
    the sources.  It advances the register once per word and emits the
    next [word_count] words; the result is the advanced state and the
    words stored into the buffer. *)
Fixpoint lfsr_fill (v : Z) (word_count : nat) : Z * list Z :=
  match word_count with
  | O => (v, [])
  | S n =>
      let v' := lfsr_iterate v in
      let '(vn, buffer) := lfsr_fill v' n in
      (vn, v' :: buffer)
  end.

(** Modelled from the spec: [lfsr_compare] ([verify]) is missing from
    the sources.  It regenerates the expected [word_count] words with
    the same advance rule, compares them word by word with the buffer
    and reports whether all of them matched, together with the
    advanced state (returned whatever the outcome).  A word beyond the
    end of the list reads as zero, the value of a fresh buffer. *)
Fixpoint lfsr_compare (v : Z) (buffer : list Z) (word_count : nat) : bool * Z :=
  match word_count with
  | O => (true, v)
  | S n =>
      let v' := lfsr_iterate v in
      let '(matched, vn) := lfsr_compare v' (tail buffer) n in
      (Z.eqb (hd 0 buffer) v' && matched, vn)
  end.

Lemma lfsr_compare_fill v n :
  lfsr_compare v (snd (lfsr_fill v n)) n = (true, fst (lfsr_fill v n)).
Proof.
  revert v. induction n as [|n IH]; intros v; simpl; [done|].
  specialize (IH (lfsr_iterate v)).
  destruct (lfsr_fill (lfsr_iterate v) n) as [vn buffer]. simpl in *.
  rewrite IH. by rewrite Z.eqb_refl.
Qed.

End PatternOracle.

(** A 31-bit Fibonacci shift register (taps 31 and 28), used to run the
    model on concrete inputs. *)
Definition lfsr31 (v : Z) : Z :=
  let bit := Z.land (Z.lxor (Z.shiftr v 30) (Z.shiftr v 27)) 1 in
  Z.land (Z.lor (Z.shiftl v 1) bit) (Z.ones 31).

Example lfsr31_three : snd (lfsr_fill lfsr31 1 3) = [2; 4; 8].
Proof. reflexivity. Qed.

Example lfsr31_compare_detects :
  fst (lfsr_compare lfsr31 1 [2; 5; 8] 3) = false.
Proof. reflexivity. Qed.

(** ** Results and statistics *)

Inductive Result :=
  | FailCompare
  | FailReadIncomplete
  | FailWriteIncomplete
  | FailAbort
  | FailFileOpenRead
  | FailFileOpenWrite
  | FailHeap
  | FailThread
  | Incomplete
  | OK.

#[global] Instance Result_eq_dec : EqDecision Result.
Proof. solve_decision. Defined.

(** The integer behind each enumerator. *)
Definition toUType (r : Result) : Z :=
  match r with
  | FailCompare => -8
  | FailReadIncomplete => -7
  | FailWriteIncomplete => -6
  | FailAbort => -5
  | FailFileOpenRead => -4
  | FailFileOpenWrite => -3
  | FailHeap => -2
  | FailThread => -1
  | Incomplete => 0
  | OK => 1
  end.

Record Stats := mkStats {
  write_duration_min : Z;
  write_duration_max : Z;
  write_test_duration : Z;
  write_bytes : Z;
  write_count : Z;
  read_duration_min : Z;
  read_duration_max : Z;
  read_test_duration : Z;
  read_bytes : Z;
  read_count : Z;
}.

(** The default member initialisers of [Stats]. *)
Definition Stats_init : Stats := mkStats 0 0 0 0 0 0 0 0 0 0.

Definition write_size : Z := 16384.
Definition bytes_to_write : Z := 16 * 1024 * 1024.
Definition bytes_to_read : Z := bytes_to_write.

(** [lfsr_word_t] is a 32-bit word ([lfsr_random.hpp]). *)
Definition sizeof_lfsr_word_t : Z := 4.

(** The words of one buffer: its size in bytes over [sizeof(lfsr_word_t)]. *)
Definition buffer_words : nat := Z.to_nat (write_size / sizeof_lfsr_word_t).
Arguments buffer_words : simpl never.

Definition filename : string := "_PPTEST_.DAT".

(** ** The world a run executes in

    Everything the test thread consumes from outside is injected: the
    outcome of the [n]-th call of each primitive is read off an oracle,
    so that any behaviour of heap, card, timer and cancelling thread is
    one value of [Env]. *)

Record Env := mkEnv {
  heap_ok : nat → bool;             (* n-th [make_unique] returns non-null *)
  open_write_ok : nat → bool;       (* n-th [open_for_writing] succeeds *)
  open_read_ok : nat → bool;        (* n-th [open_for_reading] succeeds *)
  terminate_requested : nat → bool; (* n-th [chThdShouldTerminate()] *)
  ready : nat → bool;               (* n-th [file.is_ready()] *)
  write_ok : nat → bool;            (* n-th [file.write] succeeds *)
  read_ok : nat → bool;             (* n-th [file.read] succeeds *)
  media : nat → list Z → list Z;    (* what the n-th read delivers of the stored chunk *)
  counter : nat → Z;                (* n-th reading of the free-running counter *)
}.

(** How many times each primitive has been called so far. *)
Record Calls := mkCalls {
  n_heap : nat;
  n_open_write : nat;
  n_open_read : nat;
  n_terminate : nat;
  n_ready : nat;
  n_write : nat;
  n_read : nat;
  n_counter : nat;
}.

Definition Calls_init : Calls := mkCalls 0 0 0 0 0 0 0 0.

(** The open file behind a [File] object: its path, its access mode and
    the index of the next chunk. *)
Record Handle := mkHandle {
  h_path : string;
  h_writable : bool;
  h_pos : nat;
}.

Inductive Phase := WritePhase | ReadPhase.

(** What a run did, most recent first: the phases it entered and its
    storage operations. *)
Inductive Event :=
  | EvEnter (p : Phase)
  | EvOpen (p : Phase) (ok : bool)
  | EvWrite (ok : bool)
  | EvRead (ok : bool)
  | EvClose
  | EvUnlink (path : string).

Record World := mkWorld {
  env : Env;
  calls : Calls;
  fs : gmap string (list (list Z));  (* files, as the chunks they hold *)
  fil : option Handle;               (* the handle of the live [File] *)
  _stats : Stats;
  trace : list Event;
}.

(** The world when the thread starts: fresh statistics, nothing called
    yet, no file open, whatever is on the card. *)
Definition initial (e : Env) (disk : gmap string (list (list Z))) : World :=
  mkWorld e Calls_init disk None Stats_init [].

Definition set_calls (c : Calls) (w : World) : World :=
  mkWorld (env w) c (fs w) (fil w) (_stats w) (trace w).
Definition set_fs (f : gmap string (list (list Z))) (w : World) : World :=
  mkWorld (env w) (calls w) f (fil w) (_stats w) (trace w).
Definition set_fil (h : option Handle) (w : World) : World :=
  mkWorld (env w) (calls w) (fs w) h (_stats w) (trace w).
Definition set_stats (s : Stats) (w : World) : World :=
  mkWorld (env w) (calls w) (fs w) (fil w) s (trace w).
Definition emit (ev : Event) (w : World) : World :=
  mkWorld (env w) (calls w) (fs w) (fil w) (_stats w) (ev :: trace w).

(** ** Computations: state passing, [None] when a loop runs out of fuel *)

Definition M (A : Type) : Type := World → option (A * World).

Definition ret {A} (a : A) : M A := λ w, Some (a, w).
Definition bind {A B} (m : M A) (f : A → M B) : M B := λ w,
  match m w with
  | Some (a, w') => f a w'
  | None => None
  end.

Notation "'do' x <- m ; k" := (bind m (λ x, k))
  (at level 10, x name, m at level 100, k at level 200,
   format "'[v' 'do'  x  <-  m ; '/' k ']'").

Definition gets {A} (f : World → A) : M A := λ w, Some (f w, w).
Definition modify (f : World → World) : M unit := λ w, Some (tt, f w).
Definition diverge {A} : M A := λ _, None.

(** One pass through a loop body either goes round again or leaves. *)
Inductive Flow (S R : Type) :=
  | Next (s : S)
  | Leave (r : R).
Arguments Next {S R} s.
Arguments Leave {S R} r.

Fixpoint loop {S R} (fuel : nat) (body : S → M (Flow S R)) (s : S) : M R :=
  match fuel with
  | O => diverge
  | Datatypes.S fuel' =>
      do f <- body s;
      match f with
      | Next s' => loop fuel' body s'
      | Leave r => ret r
      end
  end.

(** The chunks of one phase. *)
Definition chunk_count : Z := bytes_to_write / write_size.

(** Enough for every chunk of a phase and the final test of the loop
    condition. *)
Definition loop_fuel : nat := S (Z.to_nat chunk_count).
Arguments loop_fuel : simpl never.

(** ** Collaborators (ChibiOS, heap, [File], FatFs) *)

Definition chThdShouldTerminate : M bool := λ w,
  let c := calls w in
  Some (terminate_requested (env w) (n_terminate c),
        set_calls (mkCalls (n_heap c) (n_open_write c) (n_open_read c) (S (n_terminate c))
                           (n_ready c) (n_write c) (n_read c) (n_counter c)) w).

Definition halGetCounterValue : M Z := λ w,
  let c := calls w in
  Some (wrap32 (counter (env w) (n_counter c)),
        set_calls (mkCalls (n_heap c) (n_open_write c) (n_open_read c) (n_terminate c)
                           (n_ready c) (n_write c) (n_read c) (S (n_counter c))) w).

(** [std::make_unique<std::array<uint8_t, write_size>>()]: a zeroed
    buffer, seen as [buffer_words] words, or null. *)
Definition make_unique : M (option (list Z)) := λ w,
  let c := calls w in
  Some (if heap_ok (env w) (n_heap c) then Some (replicate buffer_words 0) else None,
        set_calls (mkCalls (S (n_heap c)) (n_open_write c) (n_open_read c) (n_terminate c)
                           (n_ready c) (n_write c) (n_read c) (n_counter c)) w).

(** Modelled from the spec: class [File] ([file.hpp]) is missing from the
    sources.  Opening for writing yields a handle on a file that each
    successful write extends by one chunk. *)
Definition open_for_writing (path : string) : M bool := λ w,
  let c := calls w in
  let c' := mkCalls (n_heap c) (S (n_open_write c)) (n_open_read c) (n_terminate c)
                    (n_ready c) (n_write c) (n_read c) (n_counter c) in
  if open_write_ok (env w) (n_open_write c)
  then Some (true, emit (EvOpen WritePhase true)
                     (set_fil (Some (mkHandle path true 0))
                        (set_fs (<[path := []]> (fs w)) (set_calls c' w))))
  else Some (false, emit (EvOpen WritePhase false) (set_calls c' w)).

(** Modelled from the spec: [File::open_for_reading] ([file.hpp]) is
    missing from the sources.  Opening for reading needs the file to
    exist and yields a handle positioned on its first chunk. *)
Definition open_for_reading (path : string) : M bool := λ w,
  let c := calls w in
  let c' := mkCalls (n_heap c) (n_open_write c) (S (n_open_read c)) (n_terminate c)
                    (n_ready c) (n_write c) (n_read c) (n_counter c) in
  if open_read_ok (env w) (n_open_read c) && bool_decide (is_Some (fs w !! path))
  then Some (true, emit (EvOpen ReadPhase true)
                     (set_fil (Some (mkHandle path false 0)) (set_calls c' w)))
  else Some (false, emit (EvOpen ReadPhase false) (set_calls c' w)).

(** Modelled from the spec: [File::is_ready] ([file.hpp]) is missing
    from the sources.  It reports whether the handle is still usable, as
    the card decides. *)
Definition is_ready : M bool := λ w,
  let c := calls w in
  Some (ready (env w) (n_ready c),
        set_calls (mkCalls (n_heap c) (n_open_write c) (n_open_read c) (n_terminate c)
                           (S (n_ready c)) (n_write c) (n_read c) (n_counter c)) w).

(** Modelled from the spec: [File::write] ([file.hpp]) is missing from
    the sources.  [write(chunk) → bool] appends the chunk to the open
    file and reports success; a failed call stores nothing. *)
Definition File_write (buffer : list Z) : M bool := λ w,
  let c := calls w in
  let c' := mkCalls (n_heap c) (n_open_write c) (n_open_read c) (n_terminate c)
                    (n_ready c) (S (n_write c)) (n_read c) (n_counter c) in
  match fil w with
  | Some h =>
      if h_writable h && write_ok (env w) (n_write c)
      then Some (true, emit (EvWrite true)
                         (set_fs (<[h_path h := default [] (fs w !! h_path h) ++ [buffer]]> (fs w))
                            (set_calls c' w)))
      else Some (false, emit (EvWrite false) (set_calls c' w))
  | None => Some (false, emit (EvWrite false) (set_calls c' w))
  end.

(** Modelled from the spec: [File::read] ([file.hpp]) is missing from
    the sources.  [read(chunk) → bool] delivers the next chunk of the
    open file into the buffer and reports success; it fails when the
    card says so or when no whole chunk is left, and then leaves the
    buffer as it was. *)
Definition File_read (buffer : list Z) : M (bool * list Z) := λ w,
  let c := calls w in
  let c' := mkCalls (n_heap c) (n_open_write c) (n_open_read c) (n_terminate c)
                    (n_ready c) (n_write c) (S (n_read c)) (n_counter c) in
  match fil w with
  | Some h =>
      match fs w !! h_path h ≫= (λ content, content !! h_pos h) with
      | Some chunk =>
          if negb (h_writable h) && read_ok (env w) (n_read c)
          then Some ((true, media (env w) (n_read c) chunk),
                     emit (EvRead true)
                       (set_fil (Some (mkHandle (h_path h) (h_writable h) (S (h_pos h))))
                          (set_calls c' w)))
          else Some ((false, buffer), emit (EvRead false) (set_calls c' w))
      | None => Some ((false, buffer), emit (EvRead false) (set_calls c' w))
      end
  | None => Some ((false, buffer), emit (EvRead false) (set_calls c' w))
  end.

(** Modelled from the spec: [File::close] ([file.hpp]) is missing from
    the sources.  It releases the handle. *)
Definition File_close : M unit := λ w,
  Some (tt, emit EvClose (set_fil None w)).

(** Modelled from the spec: the destructor of [File] ([file.hpp]) is
    missing from the sources.  A [File] going out of scope releases
    whatever handle it still holds (scoped-resource discipline). *)
Definition File_destroy : M unit := λ w,
  Some (tt, set_fil None w).

(** A block that declares a [File]: the object is destroyed on every way
    out of the block. *)
Definition with_File {A} (body : M A) : M A :=
  do r <- body; do _ <- File_destroy; ret r.

(** Modelled from the spec: [f_unlink] (FatFs, [ff.h]) is missing from
    the sources.  [delete(path)] removes the file. *)
Definition f_unlink (path : string) : M unit := λ w,
  Some (tt, emit (EvUnlink path) (set_fs (delete path (fs w)) w)).

(** ** Duration extremes

    The two updates made after every timed transfer, on either
    direction:
    [if( (min == 0) || (duration < min) ) min = duration;] and
    [if( duration > max ) max = duration;]. *)

Definition update_min (duration_min duration : Z) : Z :=
  if (duration_min =? 0) || (duration <? duration_min) then duration else duration_min.

Definition update_max (duration_max duration : Z) : Z :=
  if duration >? duration_max then duration else duration_max.

Arguments update_min : simpl never.
Arguments update_max : simpl never.

(** The statistics after one more chunk written between the two counter
    readings. *)
Definition note_write (write_start write_end : Z) (s : Stats) : Stats :=
  let write_duration := sub32 write_end write_start in
  mkStats (update_min (write_duration_min s) write_duration)
          (update_max (write_duration_max s) write_duration)
          (write_test_duration s)
          (add32 (write_bytes s) write_size)
          (add32 (write_count s) 1)
          (read_duration_min s) (read_duration_max s) (read_test_duration s)
          (read_bytes s) (read_count s).

(** The statistics after one more chunk read. *)
Definition note_read (read_start read_end : Z) (s : Stats) : Stats :=
  let read_duration := sub32 read_end read_start in
  mkStats (write_duration_min s) (write_duration_max s) (write_test_duration s)
          (write_bytes s) (write_count s)
          (update_min (read_duration_min s) read_duration)
          (update_max (read_duration_max s) read_duration)
          (read_test_duration s)
          (add32 (read_bytes s) write_size)
          (add32 (read_count s) 1).

Definition set_write_test_duration (d : Z) (s : Stats) : Stats :=
  mkStats (write_duration_min s) (write_duration_max s) d
          (write_bytes s) (write_count s)
          (read_duration_min s) (read_duration_max s) (read_test_duration s)
          (read_bytes s) (read_count s).

Definition set_read_test_duration (d : Z) (s : Stats) : Stats :=
  mkStats (write_duration_min s) (write_duration_max s) (write_test_duration s)
          (write_bytes s) (write_count s)
          (read_duration_min s) (read_duration_max s) d
          (read_bytes s) (read_count s).

Definition modify_stats (f : Stats → Stats) : M unit :=
  modify (λ w, set_stats (f (_stats w)) w).

(** The average that [on_test] shows for a phase: its whole duration
    over its chunks. *)
Definition write_duration_avg (s : Stats) : Z :=
  write_test_duration s / write_count s.

Definition read_duration_avg (s : Stats) : Z :=
  read_test_duration s / read_count s.

(** ** The test thread *)

Section SDCardTestThread.

Variable lfsr_iterate : Z → Z.

(** One turn of the loop of [write]: the loop condition, then the
    body.  The state carried round the loop is the register [v] and
    the buffer. *)
Definition write_chunk (st : Z * list Z) : M (Flow (Z * list Z) unit) :=
  let '(v, buffer) := st in
  do stop <- chThdShouldTerminate;
  if stop then ret (Leave tt) else
  do usable <- is_ready;
  if negb usable then ret (Leave tt) else
  do s <- gets _stats;
  if negb (write_bytes s <? bytes_to_write) then ret (Leave tt) else
  let '(v, buffer) := lfsr_fill lfsr_iterate v buffer_words in
  do write_start <- halGetCounterValue;
  do written <- File_write buffer;
  if negb written then ret (Leave tt) (* break *) else
  do write_end <- halGetCounterValue;
  do _ <- modify_stats (note_write write_start write_end);
  ret (Next (v, buffer)).

Definition write (filename : string) : M Result :=
  do _ <- modify (emit (EvEnter WritePhase));
  do buffer <- make_unique;
  match buffer with
  | None => ret FailHeap
  | Some buffer =>
      with_File (
        do opened <- open_for_writing filename;
        if negb opened then ret FailFileOpenWrite else
        let v := 1 in
        do test_start <- halGetCounterValue;
        do _ <- loop loop_fuel write_chunk (v, buffer);
        do _ <- File_close;
        do test_end <- halGetCounterValue;
        do _ <- modify_stats (set_write_test_duration (sub32 test_end test_start));
        ret OK)
  end.

(** One turn of the loop of [read]; it leaves with [Some r] when the
    function returns [r] from inside the loop. *)
Definition read_chunk (st : Z * list Z) : M (Flow (Z * list Z) (option Result)) :=
  let '(v, buffer) := st in
  do stop <- chThdShouldTerminate;
  if stop then ret (Leave None) else
  do usable <- is_ready;
  if negb usable then ret (Leave None) else
  do s <- gets _stats;
  if negb (read_bytes s <? bytes_to_read) then ret (Leave None) else
  do read_start <- halGetCounterValue;
  do got_buffer <- File_read buffer;
  let '(got, buffer) := got_buffer in
  if negb got then ret (Leave None) (* break *) else
  do read_end <- halGetCounterValue;
  do _ <- modify_stats (note_read read_start read_end);
  let '(matched, v) := lfsr_compare lfsr_iterate v buffer buffer_words in
  if negb matched then ret (Leave (Some FailCompare)) else
  ret (Next (v, buffer)).

Definition read (filename : string) : M Result :=
  do _ <- modify (emit (EvEnter ReadPhase));
  do buffer <- make_unique;
  match buffer with
  | None => ret FailHeap
  | Some buffer =>
      with_File (
        do opened <- open_for_reading filename;
        if negb opened then ret FailFileOpenRead else
        let v := 1 in
        do test_start <- halGetCounterValue;
        do returned <- loop loop_fuel read_chunk (v, buffer);
        match returned with
        | Some r => ret r
        | None =>
            do _ <- File_close;
            do test_end <- halGetCounterValue;
            do _ <- modify_stats (set_read_test_duration (sub32 test_end test_start));
            ret OK
        end)
  end.

Definition run : M Result :=
  do write_result <- write filename;
  match write_result with
  | OK =>
      do s <- gets _stats;
      if write_bytes s <? bytes_to_write then ret FailWriteIncomplete else
      do stop <- chThdShouldTerminate;
      if stop then ret FailAbort else
      do read_result <- read filename;
      match read_result with
      | OK =>
          do _ <- f_unlink filename;
          do s <- gets _stats;
          if read_bytes s <? bytes_to_read then ret FailReadIncomplete else
          do stop <- chThdShouldTerminate;
          if stop then ret FailAbort else
          ret OK
      | _ => ret read_result
      end
  | _ => ret write_result
  end.

End SDCardTestThread.

(** ** Sample environments *)

(** A card, heap and timer without faults, the counter advancing by
    [tick] between any two readings, and cancellation requested from the
    [cancel_at]-th check on ([None]: never). *)
Definition steady_env (tick : Z) (cancel_at : option nat) : Env :=
  mkEnv (λ _, true) (λ _, true) (λ _, true)
        (λ n, match cancel_at with Some k => bool_decide (k ≤ n)%nat | None => false end)
        (λ _, true) (λ _, true) (λ _, true)
        (λ _ chunk, chunk)
        (λ n, tick * Z.of_nat n).

(** What the caller reads off a finished thread: [result()] and
    [stats()]. *)
Definition outcome (r : option (Result * World)) : option (Result * Stats) :=
  prod_map id _stats <$> r.

(** [e] with the [k]-th write refused. *)
Definition refuse_write_at (k : nat) (e : Env) : Env :=
  mkEnv (heap_ok e) (open_write_ok e) (open_read_ok e) (terminate_requested e)
        (ready e) (λ n, if decide (n = k) then false else write_ok e n)
        (read_ok e) (media e) (counter e).

(** [e] with every read refused. *)
Definition refuse_reads (e : Env) : Env :=
  mkEnv (heap_ok e) (open_write_ok e) (open_read_ok e) (terminate_requested e)
        (ready e) (write_ok e) (λ _, false) (media e) (counter e).

(** [e] with every open for reading refused. *)
Definition refuse_open_read (e : Env) : Env :=
  mkEnv (heap_ok e) (open_write_ok e) (λ _, false) (terminate_requested e)
        (ready e) (write_ok e) (read_ok e) (media e) (counter e).

(** [e] with a heap that serves one allocation only. *)
Definition heap_once (e : Env) : Env :=
  mkEnv (λ n, bool_decide (n = 0%nat)) (open_write_ok e) (open_read_ok e)
        (terminate_requested e) (ready e) (write_ok e) (read_ok e) (media e)
        (counter e).

(** [e] with the counter reading the listed values, then [rest]. *)
Definition with_counter (readings : list Z) (rest : Z) (e : Env) : Env :=
  mkEnv (heap_ok e) (open_write_ok e) (open_read_ok e) (terminate_requested e)
        (ready e) (write_ok e) (read_ok e) (media e)
        (λ n, default rest (readings !! n)).

(** A counter that stands still across the second write: the chunks are
    timed at 5 and at 0 ticks. *)
Definition stalled_env (cancel_at : nat) : Env :=
  with_counter [0; 10; 15; 20; 20; 30] 30 (steady_env 100 (Some cancel_at)).

(** A card that already holds a test file with foreign content. *)
Definition foreign_disk : gmap string (list (list Z)) :=
  {[ filename := [[0; 0; 0; 0]] ]}.

(** ** Behaviours of the environment *)

(** No storage, heap or media fault is ever injected. *)
Definition fault_free (e : Env) : Prop :=
  ∀ n, heap_ok e n = true ∧ open_write_ok e n = true ∧ open_read_ok e n = true ∧
       ready e n = true ∧ write_ok e n = true ∧ read_ok e n = true ∧
       ∀ chunk, media e n chunk = chunk.

(** Cancellation is never requested. *)
Definition never_cancelled (e : Env) : Prop :=
  ∀ n, terminate_requested e n = false.

(** Allocation and open succeed and every chunk of the write phase goes
    through. *)
Definition write_goes_through (e : Env) : Prop :=
  heap_ok e 0 = true ∧ open_write_ok e 0 = true ∧
  ∀ i, (i < Z.to_nat chunk_count)%nat →
    terminate_requested e i = false ∧ ready e i = true ∧ write_ok e i = true.

(** No phase reads the counter more often than this. *)
Definition phase_readings : Z := 2 * chunk_count + 2.

Definition counter_horizon : Z := 2 * phase_readings.

(** Over the readings a run can make, the counter strictly increases
    within the 32-bit range. *)
Definition steady_counter (e : Env) : Prop :=
  ∀ i j : nat, (i < j)%nat → Z.of_nat j < counter_horizon →
    0 ≤ counter e i < counter e j ∧ counter e j < 2 ^ 32.

Example cancel_after_first_chunk_run :
  outcome (run lfsr31 (initial (steady_env 100 (Some 1%nat)) ∅))
  = Some (FailWriteIncomplete, mkStats 100 100 300 16384 1 0 0 0 0 0).
Proof. vm_compute. reflexivity. Qed.

(** ** Reasoning about computations *)

Lemma bind_Some {A B} (m : M A) (f : A → M B) w a w' :
  m w = Some (a, w') → bind m f w = f a w'.
Proof. intros H. unfold bind. by rewrite H. Qed.

(** Total correctness of a loop: an invariant [I], kept by every turn
    that goes round again, a measure [μ] that such a turn decreases, and
    a postcondition [Q] established by every turn that leaves. *)
Lemma loop_rule {S R} (body : S → M (Flow S R))
    (I : S → World → Prop) (Q : R → World → Prop) (μ : S → World → nat) :
  (∀ s w, I s w →
     ∃ f w', body s w = Some (f, w') ∧
       match f with
       | Next s' => I s' w' ∧ (μ s' w' < μ s w)%nat
       | Leave r => Q r w'
       end) →
  ∀ fuel s w, I s w → (μ s w < fuel)%nat →
    ∃ r w', loop fuel body s w = Some (r, w') ∧ Q r w'.
Proof.
  intros Hbody fuel. induction fuel as [|fuel IH]; intros s w HI Hμ; [lia|].
  destruct (Hbody s w HI) as (f & w1 & Hrun & Hf).
  cbn [loop]. rewrite (bind_Some _ _ _ _ _ Hrun).
  destruct f as [s'|r].
  - destruct Hf as [HI' Hlt]. apply IH; [done | lia].
  - exists r, w1. done.
Qed.

(** ** Arithmetic of the constants and of the duration extremes *)

Lemma chunk_count_eq : chunk_count = 1024.
Proof. reflexivity. Qed.

Ltac numerals :=
  change chunk_count with 1024 in *;
  change bytes_to_read with 16777216 in *;
  change bytes_to_write with 16777216 in *;
  change write_size with 16384 in *.

Ltac reflect_cmp :=
  repeat match goal with
    | H : (_ <? _) = true |- _ => apply Z.ltb_lt in H
    | H : (_ <? _) = false |- _ => apply Z.ltb_ge in H
    | H : (_ =? _) = true |- _ => apply Z.eqb_eq in H
    | H : (_ =? _) = false |- _ => apply Z.eqb_neq in H
    end.

Lemma update_max_max duration_max duration :
  update_max duration_max duration = Z.max duration_max duration.
Proof. unfold update_max. rewrite Z.gtb_ltb. destruct (_ <? _) eqn:?; reflect_cmp; lia. Qed.

Lemma update_min_cases duration_min duration :
  (duration_min = 0 ∧ update_min duration_min duration = duration) ∨
  (duration_min ≠ 0 ∧ update_min duration_min duration = Z.min duration_min duration).
Proof.
  unfold update_min.
  destruct (duration_min =? 0) eqn:?; reflect_cmp; cbn [orb]; [by left | right].
  destruct (duration <? duration_min) eqn:?; reflect_cmp; lia.
Qed.

Lemma update_min_le_max m mx d :
  0 ≤ d → 0 ≤ m ≤ mx → 0 ≤ update_min m d ≤ update_max mx d.
Proof.
  intros Hd Hm. rewrite update_max_max.
  destruct (update_min_cases m d) as [[_ ->]|[_ ->]]; lia.
Qed.

Lemma sub32_nonneg a b : 0 ≤ sub32 a b.
Proof. apply wrap32_range. Qed.

(** ** What every phase guarantees, whatever the environment does *)

(** [extends P old new]: the trace [new] is [old] with events
    satisfying [P] put in front. *)
Definition extends (P : Event → Prop) (old new : list Event) : Prop :=
  ∃ added, new = added ++ old ∧ Forall P added.

Lemma extends_refl P tr : extends P tr tr.
Proof. exists []. split; [done | constructor]. Qed.

Lemma extends_cons P old new ev :
  P ev → extends P old new → extends P old (ev :: new).
Proof.
  intros Hev (added & -> & Hall). exists (ev :: added).
  split; [done | by constructor].
Qed.

Lemma extends_trans P old mid new :
  extends P old mid → extends P mid new → extends P old new.
Proof.
  intros (a1 & -> & H1) (a2 & -> & H2). exists (a2 ++ a1).
  split; [by rewrite app_assoc | by apply Forall_app].
Qed.

Lemma extends_elem_of P old new ev :
  extends P old new → ev ∈ new → P ev ∨ ev ∈ old.
Proof.
  intros (added & -> & Hall) [Hin|Hin]%elem_of_app; [left | by right].
  rewrite Forall_forall in Hall. by apply Hall.
Qed.

Definition write_event (ev : Event) : Prop :=
  match ev with
  | EvEnter WritePhase | EvOpen WritePhase _ | EvWrite _ | EvClose => True
  | _ => False
  end.

Definition read_event (ev : Event) : Prop :=
  match ev with
  | EvEnter ReadPhase | EvOpen ReadPhase _ | EvRead _ | EvClose => True
  | _ => False
  end.

(** The write side of the statistics is consistent. *)
Definition write_side_ok (s : Stats) : Prop :=
  write_bytes s = write_count s * write_size ∧
  0 ≤ write_count s ≤ chunk_count ∧
  0 ≤ write_duration_min s ≤ write_duration_max s.

Definition read_side_ok (s : Stats) : Prop :=
  read_bytes s = read_count s * write_size ∧
  0 ≤ read_count s ≤ chunk_count ∧
  0 ≤ read_duration_min s ≤ read_duration_max s.

Definition same_write_side (s0 s : Stats) : Prop :=
  write_duration_min s = write_duration_min s0 ∧
  write_duration_max s = write_duration_max s0 ∧
  write_test_duration s = write_test_duration s0 ∧
  write_bytes s = write_bytes s0 ∧
  write_count s = write_count s0.

Definition same_read_side (s0 s : Stats) : Prop :=
  read_duration_min s = read_duration_min s0 ∧
  read_duration_max s = read_duration_max s0 ∧
  read_test_duration s = read_test_duration s0 ∧
  read_bytes s = read_bytes s0 ∧
  read_count s = read_count s0.

Lemma Stats_init_write_side_ok : write_side_ok Stats_init.
Proof. unfold write_side_ok; cbn; numerals; lia. Qed.

Lemma Stats_init_read_side_ok : read_side_ok Stats_init.
Proof. unfold read_side_ok; cbn; numerals; lia. Qed.

(** Symbolic execution of straight-line code: unfold the primitives,
    then split on whatever the environment answers. *)
Ltac exec :=
  unfold bind, ret, gets, modify_stats, modify, chThdShouldTerminate, is_ready,
    halGetCounterValue, File_write, File_read, File_close, File_destroy,
    make_unique, open_for_writing, open_for_reading, f_unlink, with_File;
  cbn.

Ltac branch :=
  match goal with
  | |- context [match ?a ≫= ?g with Some _ => _ | None => _ end] =>
      destruct (a ≫= g) eqn:?
  | |- context [match ?l !! ?i with Some _ => _ | None => _ end] =>
      destruct (l !! i) eqn:?
  | |- context [if negb ?b then _ else _] => destruct b eqn:?
  | |- context [if ?b && ?c then _ else _] => destruct b eqn:?; [destruct c eqn:? |]
  | |- context [if ?b then _ else _] => destruct b eqn:?
  | |- context [match ?o with Some _ => _ | None => _ end] => is_var o; destruct o
  | |- context [let '(_, _) := ?p in _] => destruct p eqn:?
  end; unfold bind, ret; cbn.

Ltac step := unfold bind, ret; cbn.

Ltac open_world w :=
  let e := fresh "e" in let c := fresh "c" in let f := fresh "f" in
  let h := fresh "h" in let s := fresh "s" in let tr := fresh "tr" in
  destruct w as [e c f h s tr]; destruct c, s; cbn in *.

Ltac returns := eexists _, _; split; [reflexivity|]; cbn.

(** The loop is at its last turn: an earlier one would have gone
    through. *)
Ltac stopped Hturn :=
  match goal with
  | |- ?j = ?k =>
      destruct (decide (j = k)) as [|?]; [done|]; exfalso;
      destruct Hturn as (? & ? & ?); [lia | congruence]
  end.

Ltac settle :=
  try split_and!;
  repeat first [apply extends_refl | apply extends_cons; [exact I|]];
  auto; try lia.

Section Guarantees.

Variable lfsr_iterate : Z → Z.

(** Kept by every turn of the loop of [write]. *)
Definition write_frame (w0 w : World) : Prop :=
  env w = env w0 ∧ fil w = fil w0 ∧
  write_side_ok (_stats w) ∧ same_read_side (_stats w0) (_stats w) ∧
  extends write_event (trace w0) (trace w).

Definition write_post (w0 : World) (r : Result) (w : World) : Prop :=
  env w = env w0 ∧ fil w = None ∧
  write_side_ok (_stats w) ∧ same_read_side (_stats w0) (_stats w) ∧
  extends write_event (trace w0) (trace w) ∧
  (r = OK ∨ r = FailHeap ∨ r = FailFileOpenWrite).

Definition chunks_left (count : Z) : nat := Z.to_nat (chunk_count - count).

Lemma write_chunk_frame w0 st w :
  write_frame w0 w →
  ∃ f w', write_chunk lfsr_iterate st w = Some (f, w') ∧
    match f with
    | Next _ =>
        write_frame w0 w' ∧
        (chunks_left (write_count (_stats w')) < chunks_left (write_count (_stats w)))%nat
    | Leave _ => write_frame w0 w'
    end.
Proof.
  destruct st as [v buffer]. open_world w.
  unfold write_frame, write_side_ok, same_read_side, chunks_left; cbn.
  intros (He & Hh & (Hb & [? ?] & [? ?]) & (? & ? & ? & ? & ?) & Htr).
  unfold write_chunk; exec. repeat branch; returns; reflect_cmp.
  all: try (settle; done).
  unfold add32. numerals.
  rewrite !wrap32_small by lia.
  match goal with |- context [update_min ?m ?d] =>
    assert (0 ≤ update_min m d ≤ update_max write_duration_max0 d)
      by (apply update_min_le_max; [apply sub32_nonneg | lia])
  end.
  settle.
Qed.

Lemma write_loop_frame w0 st w :
  write_frame w0 w →
  ∃ r w', loop loop_fuel (write_chunk lfsr_iterate) st w = Some (r, w') ∧
    write_frame w0 w'.
Proof.
  intros Hw.
  apply (loop_rule (write_chunk lfsr_iterate) (λ _, write_frame w0)
           (λ _, write_frame w0) (λ _ w, chunks_left (write_count (_stats w)))).
  - intros s w1 H1. destruct (write_chunk_frame w0 s w1 H1) as (f & w' & ? & ?).
    exists f, w'. split; [done|]. by destruct f.
  - done.
  - destruct Hw as (_ & _ & (_ & ? & _) & _). unfold chunks_left, loop_fuel. lia.
Qed.

Lemma write_guarantee path w :
  fil w = None → write_side_ok (_stats w) →
  ∃ r w', write lfsr_iterate path w = Some (r, w') ∧ write_post w r w'.
Proof.
  intros Hfil (? & [? ?] & [? ?]). unfold write_post, same_read_side.
  open_world w. subst. unfold write; exec.
  branch; [branch|].
  2,3: returns; settle; done.
  match goal with |- context [loop _ _ ?st ?w1] =>
    destruct (write_loop_frame w1 st w1) as (r & w' & -> & Hframe) end.
  { unfold write_frame, write_side_ok, same_read_side; cbn. settle; done. }
  destruct Hframe as (He & Hh & (? & [? ?] & [? ?]) & (? & ? & ? & ? & ?) & Htr).
  open_world w'. subst. returns.
  unfold write_side_ok; cbn. split_and!; auto.
  apply extends_cons; [exact I|].
  eapply extends_trans; [|exact Htr]. settle.
Qed.

(** Kept by every turn of the loop of [read]. *)
Definition read_frame (w0 w : World) : Prop :=
  env w = env w0 ∧ fs w = fs w0 ∧
  read_side_ok (_stats w) ∧ same_write_side (_stats w0) (_stats w) ∧
  extends read_event (trace w0) (trace w).

Definition read_post (w0 : World) (r : Result) (w : World) : Prop :=
  env w = env w0 ∧ fs w = fs w0 ∧ fil w = None ∧
  read_side_ok (_stats w) ∧ same_write_side (_stats w0) (_stats w) ∧
  extends read_event (trace w0) (trace w) ∧
  (r = OK ∨ r = FailHeap ∨ r = FailFileOpenRead ∨ r = FailCompare).

Lemma read_chunk_frame w0 st w :
  read_frame w0 w →
  ∃ f w', read_chunk lfsr_iterate st w = Some (f, w') ∧
    match f with
    | Next _ =>
        read_frame w0 w' ∧
        (chunks_left (read_count (_stats w')) < chunks_left (read_count (_stats w)))%nat
    | Leave r => read_frame w0 w' ∧ (r = None ∨ r = Some FailCompare)
    end.
Proof.
  destruct st as [v buffer]. open_world w.
  unfold read_frame, read_side_ok, same_write_side, chunks_left; cbn.
  intros (He & Hf & (Hb & [? ?] & [? ?]) & (? & ? & ? & ? & ?) & Htr).
  unfold read_chunk; exec. repeat branch; returns; reflect_cmp.
  all: try (settle; done).
  all: unfold add32; numerals; rewrite !wrap32_small by lia.
  all: match goal with |- context [update_min ?m ?d] =>
         assert (0 ≤ update_min m d ≤ update_max read_duration_max0 d)
           by (apply update_min_le_max; [apply sub32_nonneg | lia])
       end.
  all: settle.
Qed.

Lemma read_loop_frame w0 st w :
  read_frame w0 w →
  ∃ r w', loop loop_fuel (read_chunk lfsr_iterate) st w = Some (r, w') ∧
    read_frame w0 w' ∧ (r = None ∨ r = Some FailCompare).
Proof.
  intros Hw.
  apply (loop_rule (read_chunk lfsr_iterate) (λ _, read_frame w0)
           (λ r w', read_frame w0 w' ∧ (r = None ∨ r = Some FailCompare))
           (λ _ w, chunks_left (read_count (_stats w)))).
  - intros s w1 H1. destruct (read_chunk_frame w0 s w1 H1) as (f & w' & ? & ?).
    exists f, w'. split; [done|]. by destruct f.
  - done.
  - destruct Hw as (_ & _ & (_ & ? & _) & _). unfold chunks_left, loop_fuel. lia.
Qed.

Lemma read_guarantee path w :
  fil w = None → read_side_ok (_stats w) →
  ∃ r w', read lfsr_iterate path w = Some (r, w') ∧ read_post w r w'.
Proof.
  intros Hfil (? & [? ?] & [? ?]). unfold read_post, same_write_side.
  open_world w. subst. unfold read; exec.
  branch; [branch|].
  2-4: returns; settle; done.
  match goal with |- context [loop _ _ ?st ?w1] =>
    destruct (read_loop_frame w1 st w1) as (r & w' & -> & Hframe & Hr) end.
  { unfold read_frame, read_side_ok, same_write_side; cbn. settle; done. }
  destruct Hframe as (He & Hf & (? & [? ?] & [? ?]) & (? & ? & ? & ? & ?) & Htr).
  open_world w'. subst.
  destruct Hr as [-> | ->]; returns; unfold read_side_ok; cbn; split_and!; auto.
  - apply extends_cons; [exact I|].
    eapply extends_trans; [|exact Htr]. settle.
  - eapply extends_trans; [|exact Htr]. settle.
Qed.

End Guarantees.

(** ** Scripted runs: what happens when the environment behaves in a
    given way *)

Section Scripts.

Variable lfsr_iterate : Z → Z.

(** The register after [n] chunks, and the chunks themselves. *)
Fixpoint register_after (v : Z) (n : nat) : Z :=
  match n with
  | O => v
  | S n' => register_after (fst (lfsr_fill lfsr_iterate v buffer_words)) n'
  end.

Fixpoint pattern (v : Z) (n : nat) : list (list Z) :=
  match n with
  | O => []
  | S n' =>
      snd (lfsr_fill lfsr_iterate v buffer_words)
      :: pattern (fst (lfsr_fill lfsr_iterate v buffer_words)) n'
  end.

Lemma register_after_S v n :
  register_after v (S n)
  = fst (lfsr_fill lfsr_iterate (register_after v n) buffer_words).
Proof. revert v. induction n as [|n IH]; intros v; [done|]. apply IH. Qed.

Lemma pattern_snoc v n :
  pattern v (S n)
  = pattern v n ++ [snd (lfsr_fill lfsr_iterate (register_after v n) buffer_words)].
Proof.
  revert v. induction n as [|n IH]; intros v; [done|].
  change (pattern v (S (S n))) with
    (snd (lfsr_fill lfsr_iterate v buffer_words)
     :: pattern (fst (lfsr_fill lfsr_iterate v buffer_words)) (S n)).
  rewrite IH. done.
Qed.

Lemma pattern_length v n : length (pattern v n) = n.
Proof. revert v. induction n as [|n IH]; intros v; cbn; [done|]. by rewrite IH. Qed.

Lemma pattern_lookup v n i :
  (i < n)%nat →
  pattern v n !! i
  = Some (snd (lfsr_fill lfsr_iterate (register_after v i) buffer_words)).
Proof.
  revert v i. induction n as [|n IH]; intros v i Hi; [lia|].
  destruct i as [|i]; [done|]. cbn. apply IH. lia.
Qed.

(** The [i]-th turn of the write loop goes through: no cancellation
    seen, the file ready, the write accepted. *)
Definition write_turn_ok (w : World) (i : nat) : Prop :=
  terminate_requested (env w) (n_terminate (calls w) + i) = false ∧
  ready (env w) (n_ready (calls w) + i) = true ∧
  write_ok (env w) (n_write (calls w) + i) = true.

(** The loop cannot get past its [k]-th turn. *)
Definition write_stops (w : World) (k : nat) : Prop :=
  Z.of_nat k = chunk_count ∨
  terminate_requested (env w) (n_terminate (calls w) + k) = true ∨
  ready (env w) (n_ready (calls w) + k) = false ∨
  write_ok (env w) (n_write (calls w) + k) = false.

(** Where the write loop stands after [j] chunks on [path]. *)
Definition write_track (w0 : World) (path : string) (j : nat) (w : World) : Prop :=
  env w = env w0 ∧ fil w = Some (mkHandle path true 0) ∧
  n_terminate (calls w) = (n_terminate (calls w0) + j)%nat ∧
  n_ready (calls w) = (n_ready (calls w0) + j)%nat ∧
  n_write (calls w) = (n_write (calls w0) + j)%nat ∧
  n_heap (calls w) = n_heap (calls w0) ∧
  n_open_read (calls w) = n_open_read (calls w0) ∧
  n_read (calls w) = n_read (calls w0) ∧
  write_count (_stats w) = Z.of_nat j ∧
  write_bytes (_stats w) = Z.of_nat j * write_size ∧
  fs w !! path = Some (pattern 1 j).

(** Where it stands once it has left after [k] chunks. *)
Definition write_left (w0 : World) (path : string) (k : nat) (w : World) : Prop :=
  env w = env w0 ∧ fil w = Some (mkHandle path true 0) ∧
  n_terminate (calls w) = S (n_terminate (calls w0) + k) ∧
  n_heap (calls w) = n_heap (calls w0) ∧
  n_open_read (calls w) = n_open_read (calls w0) ∧
  n_read (calls w) = n_read (calls w0) ∧
  write_count (_stats w) = Z.of_nat k ∧
  write_bytes (_stats w) = Z.of_nat k * write_size ∧
  fs w !! path = Some (pattern 1 k).

Lemma write_chunk_track w0 path k st w :
  (∀ i, (i < k)%nat → write_turn_ok w0 i) → write_stops w0 k →
  Z.of_nat k ≤ chunk_count →
  (∃ j, (j ≤ k)%nat ∧ st.1 = register_after 1 j ∧ write_track w0 path j w) →
  ∃ f w', write_chunk lfsr_iterate st w = Some (f, w') ∧
    match f with
    | Next st' =>
        (∃ j, (j ≤ k)%nat ∧ st'.1 = register_after 1 j ∧ write_track w0 path j w') ∧
        (chunks_left (write_count (_stats w')) < chunks_left (write_count (_stats w)))%nat
    | Leave _ => write_left w0 path k w'
    end.
Proof.
  intros Hturns Hstop Hk (j & Hj & Hv & Htrack).
  destruct st as [v buffer]. cbn in Hv. subst v.
  assert (j < k → write_turn_ok w0 j)%nat as Hturn by auto.
  assert (j = k → write_stops w0 k) as Hstop' by auto.
  clear Hturns Hstop.
  unfold write_turn_ok, write_stops, write_track, write_left, chunks_left in *.
  open_world w.
  destruct Htrack as (-> & -> & -> & -> & -> & -> & -> & -> & -> & -> & Hfs).
  unfold write_chunk; exec. repeat branch; returns; reflect_cmp; numerals.
  - (* cancellation seen *)
    assert (j = k) as -> by stopped Hturn.
    settle.
  - (* chunk written *)
    unfold add32. rewrite !wrap32_small by lia.
    assert (j < k)%nat.
    { destruct (decide (j = k)) as [->|]; [|lia].
      destruct Hstop' as [?|[?|[?|?]]]; [done | lia | congruence..]. }
    split; [|lia]. exists (S j). split; [lia|].
    rewrite register_after_S, pattern_snoc, Hfs, lookup_insert_eq.
    match goal with H : lfsr_fill _ _ _ = _ |- _ => rewrite H end. cbn.
    settle.
  - (* write refused *)
    assert (j = k) as -> by stopped Hturn.
    settle.
  - (* target reached *)
    assert (j = k) as -> by lia.
    settle.
  - (* file not ready *)
    assert (j = k) as -> by stopped Hturn.
    settle.
Qed.

Lemma write_loop_track w0 path k st w :
  (∀ i, (i < k)%nat → write_turn_ok w0 i) → write_stops w0 k →
  Z.of_nat k ≤ chunk_count →
  st.1 = 1 → write_track w0 path 0 w →
  ∃ r w', loop loop_fuel (write_chunk lfsr_iterate) st w = Some (r, w') ∧
    write_left w0 path k w'.
Proof.
  intros Hturns Hstop Hk Hst Hw.
  apply (loop_rule (write_chunk lfsr_iterate)
           (λ st w, ∃ j, (j ≤ k)%nat ∧ st.1 = register_after 1 j ∧ write_track w0 path j w)
           (λ _, write_left w0 path k)
           (λ _ w, chunks_left (write_count (_stats w)))).
  - intros s w1 H1.
    destruct (write_chunk_track w0 path k s w1 Hturns Hstop Hk H1) as (f & w' & ? & ?).
    exists f, w'. split; [done|]. by destruct f.
  - exists 0%nat. split_and!; [lia | done | done].
  - destruct Hw as (_ & _ & _ & _ & _ & _ & _ & _ & -> & _).
    unfold chunks_left, loop_fuel. cbn. lia.
Qed.

(** The write phase seen from outside after a scripted loop. *)
Definition write_done (w0 : World) (path : string) (k : nat) (w : World) : Prop :=
  env w = env w0 ∧
  n_terminate (calls w) = S (n_terminate (calls w0) + k) ∧
  n_heap (calls w) = S (n_heap (calls w0)) ∧
  n_open_read (calls w) = n_open_read (calls w0) ∧
  n_read (calls w) = n_read (calls w0) ∧
  write_count (_stats w) = Z.of_nat k ∧
  write_bytes (_stats w) = Z.of_nat k * write_size ∧
  fs w !! path = Some (pattern 1 k).

Lemma write_script path k w :
  heap_ok (env w) (n_heap (calls w)) = true →
  open_write_ok (env w) (n_open_write (calls w)) = true →
  write_count (_stats w) = 0 → write_bytes (_stats w) = 0 →
  (∀ i, (i < k)%nat → write_turn_ok w i) → write_stops w k →
  Z.of_nat k ≤ chunk_count →
  ∃ w', write lfsr_iterate path w = Some (OK, w') ∧ write_done w path k w'.
Proof.
  intros Hheap Hopen Hc Hb Hturns Hstop Hk.
  unfold write_done. open_world w. subst.
  unfold write; exec. rewrite Hheap; step. rewrite Hopen; step.
  match goal with |- context [loop _ _ ?st ?w1] =>
    destruct (write_loop_track w1 path k st w1) as (r & w' & -> & Hleft) end;
    try done.
  { unfold write_track; cbn. rewrite lookup_insert_eq. settle. }
  destruct Hleft as (? & ? & ? & ? & ? & ? & ? & ? & ?).
  open_world w'. subst. eexists; split; [reflexivity|]; cbn. settle.
Qed.

(** The [i]-th turn of the read loop goes through: no cancellation
    seen, the file ready, the read served, the chunk delivered as it was
    stored. *)
Definition read_turn_ok (w : World) (i : nat) : Prop :=
  terminate_requested (env w) (n_terminate (calls w) + i) = false ∧
  ready (env w) (n_ready (calls w) + i) = true ∧
  read_ok (env w) (n_read (calls w) + i) = true ∧
  ∀ chunk, media (env w) (n_read (calls w) + i) chunk = chunk.

(** The read loop cannot get past its [k]-th turn on a file of
    [stored] chunks. *)
Definition read_stops (w : World) (stored k : nat) : Prop :=
  Z.of_nat k = chunk_count ∨
  terminate_requested (env w) (n_terminate (calls w) + k) = true ∨
  ready (env w) (n_ready (calls w) + k) = false ∨
  read_ok (env w) (n_read (calls w) + k) = false ∨
  k = stored.

Definition read_track (w0 : World) (path : string) (j : nat) (w : World) : Prop :=
  env w = env w0 ∧ fs w = fs w0 ∧ fil w = Some (mkHandle path false j) ∧
  n_terminate (calls w) = (n_terminate (calls w0) + j)%nat ∧
  n_ready (calls w) = (n_ready (calls w0) + j)%nat ∧
  n_read (calls w) = (n_read (calls w0) + j)%nat ∧
  read_count (_stats w) = Z.of_nat j ∧
  read_bytes (_stats w) = Z.of_nat j * write_size ∧
  same_write_side (_stats w0) (_stats w).

Definition read_left (w0 : World) (k : nat) (w : World) : Prop :=
  env w = env w0 ∧ fs w = fs w0 ∧
  n_terminate (calls w) = S (n_terminate (calls w0) + k) ∧
  read_count (_stats w) = Z.of_nat k ∧
  read_bytes (_stats w) = Z.of_nat k * write_size ∧
  same_write_side (_stats w0) (_stats w).

Lemma read_chunk_track w0 path stored k st w :
  fs w0 !! path = Some (pattern 1 stored) → (k ≤ stored)%nat →
  (∀ i, (i < k)%nat → read_turn_ok w0 i) → read_stops w0 stored k →
  Z.of_nat k ≤ chunk_count →
  (∃ j, (j ≤ k)%nat ∧ st.1 = register_after 1 j ∧ read_track w0 path j w) →
  ∃ f w', read_chunk lfsr_iterate st w = Some (f, w') ∧
    match f with
    | Next st' =>
        (∃ j, (j ≤ k)%nat ∧ st'.1 = register_after 1 j ∧ read_track w0 path j w') ∧
        (chunks_left (read_count (_stats w')) < chunks_left (read_count (_stats w)))%nat
    | Leave r => r = None ∧ read_left w0 k w'
    end.
Proof.
  intros Hfs Hstored Hturns Hstop Hk (j & Hj & Hv & Htrack).
  destruct st as [v buffer]. cbn in Hv. subst v.
  assert (j < k → read_turn_ok w0 j)%nat as Hturn by auto.
  assert (j = k → read_stops w0 stored k) as Hstop' by auto.
  clear Hturns Hstop.
  unfold read_turn_ok, read_stops, read_track, read_left, same_write_side,
    chunks_left in *.
  open_world w.
  destruct Htrack as (-> & -> & -> & -> & -> & -> & -> & -> & ? & ? & ? & ? & ?).
  unfold read_chunk; exec.
  repeat first [progress (rewrite Hfs; cbn) | branch]; returns; reflect_cmp; numerals.
  (* the turns that leave the loop: they are the [k]-th *)
  all: try (assert (j = k) as -> by
              first [ stopped Hturn | lia
                    | match goal with H : _ !! _ = None |- _ =>
                        apply lookup_ge_None in H; rewrite pattern_length in H; lia
                      end ];
            settle; fail).
  (* the turns that were served a chunk: they come before the [k]-th,
     so the chunk is the one written and it matches *)
  all: match goal with Hchunk : _ !! _ = Some _ |- _ =>
         assert (j < k)%nat as Hlt by
           (destruct (decide (j = k)) as [->|]; [|lia];
            destruct Hstop' as [?|[?|[?|[?|?]]]]; [done | lia | congruence.. |];
            subst stored; apply lookup_lt_Some in Hchunk;
            rewrite pattern_length in Hchunk; lia);
         destruct (Hturn Hlt) as (_ & _ & _ & Hmedia);
         rewrite pattern_lookup in Hchunk by lia;
         match type of Hchunk with Some ?a = Some ?b =>
           assert (b = a) as -> by congruence
         end
       end.
  all: match goal with H : lfsr_compare _ _ _ _ = (_, ?z) |- _ =>
         rewrite Hmedia, lfsr_compare_fill in H;
         first [ by exfalso; congruence
               | assert (z = fst (lfsr_fill lfsr_iterate (register_after 1 j) buffer_words))
                   as -> by congruence ]
       end.
  unfold add32. rewrite !wrap32_small by lia.
  split; [|lia]. exists (S j). split; [lia|].
  rewrite register_after_S. settle.
Qed.

Lemma read_loop_track w0 path stored k st w :
  fs w0 !! path = Some (pattern 1 stored) → (k ≤ stored)%nat →
  (∀ i, (i < k)%nat → read_turn_ok w0 i) → read_stops w0 stored k →
  Z.of_nat k ≤ chunk_count →
  st.1 = 1 → read_track w0 path 0 w →
  ∃ w', loop loop_fuel (read_chunk lfsr_iterate) st w = Some (None, w') ∧
    read_left w0 k w'.
Proof.
  intros Hfs Hstored Hturns Hstop Hk Hst Hw.
  destruct (loop_rule (read_chunk lfsr_iterate)
           (λ st w, ∃ j, (j ≤ k)%nat ∧ st.1 = register_after 1 j ∧ read_track w0 path j w)
           (λ r w', r = None ∧ read_left w0 k w')
           (λ _ w, chunks_left (read_count (_stats w)))) with loop_fuel st w
    as (r & w' & Hloop & -> & Hleft).
  - intros s w1 H1.
    destruct (read_chunk_track w0 path stored k s w1 Hfs Hstored Hturns Hstop Hk H1)
      as (f & w' & ? & ?).
    exists f, w'. split; [done|]. by destruct f.
  - exists 0%nat. split_and!; [lia | done | done].
  - destruct Hw as (_ & _ & _ & _ & _ & _ & -> & _).
    unfold chunks_left, loop_fuel. cbn. lia.
  - by exists w'.
Qed.

(** The read phase seen from outside after a scripted loop. *)
Definition read_done (w0 : World) (k : nat) (w : World) : Prop :=
  env w = env w0 ∧ fs w = fs w0 ∧
  n_terminate (calls w) = S (n_terminate (calls w0) + k) ∧
  read_count (_stats w) = Z.of_nat k ∧
  read_bytes (_stats w) = Z.of_nat k * write_size ∧
  same_write_side (_stats w0) (_stats w).

Lemma read_script path stored k w :
  heap_ok (env w) (n_heap (calls w)) = true →
  open_read_ok (env w) (n_open_read (calls w)) = true →
  fs w !! path = Some (pattern 1 stored) → (k ≤ stored)%nat →
  read_count (_stats w) = 0 → read_bytes (_stats w) = 0 →
  (∀ i, (i < k)%nat → read_turn_ok w i) → read_stops w stored k →
  Z.of_nat k ≤ chunk_count →
  ∃ w', read lfsr_iterate path w = Some (OK, w') ∧ read_done w k w'.
Proof.
  intros Hheap Hopen Hfs Hstored Hc Hb Hturns Hstop Hk.
  unfold read_done, same_write_side. open_world w. subst.
  unfold read; exec. rewrite Hheap; step. rewrite Hopen, Hfs; step.
  match goal with |- context [loop _ _ ?st ?w1] =>
    destruct (read_loop_track w1 path stored k st w1) as (w' & -> & Hleft) end;
    try done.
  destruct Hleft as (? & ? & ? & ? & ? & ? & ? & ? & ? & ?).
  open_world w'. subst. eexists; split; [reflexivity|]; cbn. settle.
Qed.

End Scripts.

(** ** The orchestration of [run] as a relation *)

(** The world after one more [chThdShouldTerminate()] and after
    [f_unlink(filename)]. *)
Definition checked (w : World) : World :=
  let c := calls w in
  set_calls (mkCalls (n_heap c) (n_open_write c) (n_open_read c) (S (n_terminate c))
                     (n_ready c) (n_write c) (n_read c) (n_counter c)) w.

Definition unlinked (w : World) : World :=
  emit (EvUnlink filename) (set_fs (delete filename (fs w)) w).

(** Cancellation is seen at the next check. *)
Definition cancelled (w : World) : bool :=
  terminate_requested (env w) (n_terminate (calls w)).

Section Orchestration.

Variable lfsr_iterate : Z → Z.

(** The ways through [run], in the order of its tests. *)
Inductive run_outcome (w : World) : Result → World → Prop :=
  | run_write_failed r w1 :
      write lfsr_iterate filename w = Some (r, w1) → r ≠ OK →
      run_outcome w r w1
  | run_write_incomplete w1 :
      write lfsr_iterate filename w = Some (OK, w1) →
      write_bytes (_stats w1) < bytes_to_write →
      run_outcome w FailWriteIncomplete w1
  | run_abort_before_read w1 :
      write lfsr_iterate filename w = Some (OK, w1) →
      bytes_to_write ≤ write_bytes (_stats w1) →
      cancelled w1 = true →
      run_outcome w FailAbort (checked w1)
  | run_read_failed w1 r w2 :
      write lfsr_iterate filename w = Some (OK, w1) →
      bytes_to_write ≤ write_bytes (_stats w1) →
      cancelled w1 = false →
      read lfsr_iterate filename (checked w1) = Some (r, w2) → r ≠ OK →
      run_outcome w r w2
  | run_read_incomplete w1 w2 :
      write lfsr_iterate filename w = Some (OK, w1) →
      bytes_to_write ≤ write_bytes (_stats w1) →
      cancelled w1 = false →
      read lfsr_iterate filename (checked w1) = Some (OK, w2) →
      read_bytes (_stats w2) < bytes_to_read →
      run_outcome w FailReadIncomplete (unlinked w2)
  | run_abort_after_read w1 w2 :
      write lfsr_iterate filename w = Some (OK, w1) →
      bytes_to_write ≤ write_bytes (_stats w1) →
      cancelled w1 = false →
      read lfsr_iterate filename (checked w1) = Some (OK, w2) →
      bytes_to_read ≤ read_bytes (_stats w2) →
      cancelled (unlinked w2) = true →
      run_outcome w FailAbort (checked (unlinked w2))
  | run_success w1 w2 :
      write lfsr_iterate filename w = Some (OK, w1) →
      bytes_to_write ≤ write_bytes (_stats w1) →
      cancelled w1 = false →
      read lfsr_iterate filename (checked w1) = Some (OK, w2) →
      bytes_to_read ≤ read_bytes (_stats w2) →
      cancelled (unlinked w2) = false →
      run_outcome w OK (checked (unlinked w2)).

(** [run] after a write phase that returned [OK]. *)
Definition after_write : M Result :=
  do s <- gets _stats;
  if write_bytes s <? bytes_to_write then ret FailWriteIncomplete else
  do stop <- chThdShouldTerminate;
  if stop then ret FailAbort else
  do read_result <- read lfsr_iterate filename;
  match read_result with
  | OK =>
      do _ <- f_unlink filename;
      do s <- gets _stats;
      if read_bytes s <? bytes_to_read then ret FailReadIncomplete else
      do stop <- chThdShouldTerminate;
      if stop then ret FailAbort else
      ret OK
  | _ => ret read_result
  end.

Lemma run_after_write w w1 :
  write lfsr_iterate filename w = Some (OK, w1) →
  run lfsr_iterate w = after_write w1.
Proof. intros H. unfold run. by rewrite (bind_Some _ _ _ _ _ H). Qed.

Lemma run_outcome_sound w r w' :
  run_outcome w r w' → run lfsr_iterate w = Some (r, w').
Proof.
  intros H. destruct H as
    [r w1 Hw Hr | w1 Hw Hb | w1 Hw Hb Hc | w1 r w2 Hw Hb Hc Hrd Hr
    | w1 w2 Hw Hb Hc Hrd Hrb | w1 w2 Hw Hb Hc Hrd Hrb Hc2
    | w1 w2 Hw Hb Hc Hrd Hrb Hc2].
  - unfold run. rewrite (bind_Some _ _ _ _ _ Hw). by destruct r.
  - rewrite (run_after_write _ _ Hw). unfold after_write, bind, gets, ret.
    apply Z.ltb_lt in Hb. by rewrite Hb.
  - rewrite (run_after_write _ _ Hw). unfold after_write, bind, gets, ret.
    apply Z.ltb_ge in Hb. rewrite Hb. unfold chThdShouldTerminate.
    unfold cancelled in Hc. by rewrite Hc.
  - rewrite (run_after_write _ _ Hw). unfold after_write, bind, gets, ret.
    apply Z.ltb_ge in Hb. rewrite Hb. unfold chThdShouldTerminate.
    unfold cancelled in Hc. rewrite Hc. fold (checked w1). rewrite Hrd.
    by destruct r.
  - rewrite (run_after_write _ _ Hw). unfold after_write, bind, gets, ret.
    apply Z.ltb_ge in Hb. rewrite Hb. unfold chThdShouldTerminate.
    unfold cancelled in Hc. rewrite Hc. fold (checked w1). rewrite Hrd.
    unfold f_unlink. fold (unlinked w2).
    apply Z.ltb_lt in Hrb. change (_stats (unlinked w2)) with (_stats w2).
    by rewrite Hrb.
  - rewrite (run_after_write _ _ Hw). unfold after_write, bind, gets, ret.
    apply Z.ltb_ge in Hb. rewrite Hb. unfold chThdShouldTerminate.
    unfold cancelled in Hc. rewrite Hc. fold (checked w1). rewrite Hrd.
    unfold f_unlink. fold (unlinked w2).
    apply Z.ltb_ge in Hrb. change (_stats (unlinked w2)) with (_stats w2).
    rewrite Hrb. unfold cancelled in Hc2. by rewrite Hc2.
  - rewrite (run_after_write _ _ Hw). unfold after_write, bind, gets, ret.
    apply Z.ltb_ge in Hb. rewrite Hb. unfold chThdShouldTerminate.
    unfold cancelled in Hc. rewrite Hc. fold (checked w1). rewrite Hrd.
    unfold f_unlink. fold (unlinked w2).
    apply Z.ltb_ge in Hrb. change (_stats (unlinked w2)) with (_stats w2).
    rewrite Hrb. unfold cancelled in Hc2. by rewrite Hc2.
Qed.

End Orchestration.

(** ** Timing under a counter that neither wraps nor stands still *)

Lemma steady_sub32 e i j :
  steady_counter e → (i < j)%nat → Z.of_nat j < counter_horizon →
  sub32 (wrap32 (counter e j)) (wrap32 (counter e i)) = counter e j - counter e i ∧
  0 < counter e j - counter e i < 2 ^ 32.
Proof.
  intros H Hij Hj. destruct (H i j Hij Hj) as [[? ?] ?].
  unfold sub32.
  rewrite (wrap32_small (counter e j)), (wrap32_small (counter e i)) by lia.
  rewrite wrap32_small by lia. lia.
Qed.

Lemma update_min_first d : update_min 0 d = d.
Proof. by destruct (update_min_cases 0 d) as [[_ ->]|[[] _]]. Qed.

Lemma update_min_later m d : m ≠ 0 → update_min m d = Z.min m d.
Proof. intros ?. by destruct (update_min_cases m d) as [[? _]|[_ ->]]. Qed.

Section Timing.

Variable lfsr_iterate : Z → Z.

(** Where the timed write loop stands: [start] is the index of the
    reading taken as [test_start]. *)
Definition write_timed (e : Env) (start : nat) (w : World) : Prop :=
  env w = e ∧
  Z.of_nat (n_counter (calls w)) ≤ Z.of_nat start + 1 + 2 * write_count (_stats w) ∧
  0 ≤ write_count (_stats w) ≤ chunk_count ∧
  write_bytes (_stats w) = write_count (_stats w) * write_size ∧
  (write_count (_stats w) = 0 → write_duration_min (_stats w) = 0) ∧
  (0 < write_count (_stats w) → 0 < write_duration_min (_stats w)) ∧
  ∃ last, (start ≤ last < n_counter (calls w))%nat ∧
    write_count (_stats w) * write_duration_min (_stats w)
    ≤ counter e last - counter e start.

Definition write_timed_left (e : Env) (start : nat) (w : World) : Prop :=
  env w = e ∧
  Z.of_nat (n_counter (calls w)) ≤ Z.of_nat start + 2 * chunk_count + 1 ∧
  ∃ last, (start ≤ last < n_counter (calls w))%nat ∧
    write_count (_stats w) * write_duration_min (_stats w)
    ≤ counter e last - counter e start.

Lemma write_chunk_timed e start st w :
  steady_counter e → Z.of_nat start + phase_readings ≤ counter_horizon →
  write_timed e start w →
  ∃ f w', write_chunk lfsr_iterate st w = Some (f, w') ∧
    match f with
    | Next _ =>
        write_timed e start w' ∧
        (chunks_left (write_count (_stats w')) < chunks_left (write_count (_stats w)))%nat
    | Leave _ => write_timed_left e start w'
    end.
Proof.
  intros Hsteady Hroom. destruct st as [v buffer]. open_world w.
  unfold write_timed, write_timed_left, chunks_left.
  assert (Z.of_nat start + 2050 ≤ 4100) as Hroom'
    by (unfold counter_horizon, phase_readings in Hroom; numerals; lia).
  clear Hroom.
  cbn. intros (-> & Hn & [? ?] & -> & Hzero & Hpos & (last & Hlast & Hsum)).
  unfold write_chunk; exec. repeat branch; returns; reflect_cmp; numerals.
  (* the turns that leave: at most one more reading, no more chunk *)
  all: try (split_and!; [done | lia | exists last; split; [lia | done]]; fail).
  (* the turn that wrote a chunk *)
  - assert (Z.of_nat (S n_counter0) < counter_horizon) as Hin
      by (unfold counter_horizon, phase_readings; numerals; lia).
    assert (Z.of_nat n_counter0 < counter_horizon) as Hin'
      by (unfold counter_horizon, phase_readings; numerals; lia).
    destruct (steady_sub32 e n_counter0 (S n_counter0) Hsteady ltac:(lia) Hin)
      as [-> ?].
    unfold add32. rewrite !wrap32_small by lia.
    assert (counter e last ≤ counter e n_counter0).
    { destruct (decide (last = n_counter0)) as [->|]; [lia|].
      destruct (Hsteady last n_counter0 ltac:(lia) Hin'). lia. }
    set (d := counter e (S n_counter0) - counter e n_counter0) in *.
    split; [|lia]. split_and!; try done; try lia.
    + intros _. destruct (decide (write_count0 = 0)) as [->|].
      * rewrite Hzero by done. rewrite update_min_first. lia.
      * rewrite update_min_later by lia. lia.
    + exists (S n_counter0). split; [lia|].
      destruct (decide (write_count0 = 0)) as [->|].
      * rewrite Hzero by done. rewrite update_min_first. lia.
      * rewrite update_min_later by lia.
        assert (write_count0 * Z.min write_duration_min0 d
                ≤ write_count0 * write_duration_min0) by nia.
        lia.
Qed.

Lemma write_loop_timed e start st w :
  steady_counter e → Z.of_nat start + phase_readings ≤ counter_horizon →
  write_timed e start w →
  ∃ r w', loop loop_fuel (write_chunk lfsr_iterate) st w = Some (r, w') ∧
    write_timed_left e start w'.
Proof.
  intros Hsteady Hroom Hw.
  apply (loop_rule (write_chunk lfsr_iterate) (λ _, write_timed e start)
           (λ _, write_timed_left e start)
           (λ _ w, chunks_left (write_count (_stats w)))).
  - intros s w1 H1.
    destruct (write_chunk_timed e start s w1 Hsteady Hroom H1) as (f & w' & ? & ?).
    exists f, w'. split; [done|]. by destruct f.
  - done.
  - destruct Hw as (_ & _ & ? & _). unfold chunks_left, loop_fuel. lia.
Qed.

Lemma write_timing path w :
  steady_counter (env w) →
  Z.of_nat (n_counter (calls w)) + phase_readings ≤ counter_horizon →
  write_count (_stats w) = 0 → write_bytes (_stats w) = 0 →
  write_duration_min (_stats w) = 0 →
  ∃ r w', write lfsr_iterate path w = Some (r, w') ∧
    Z.of_nat (n_counter (calls w')) ≤ Z.of_nat (n_counter (calls w)) + phase_readings ∧
    (0 < write_count (_stats w') →
     write_duration_min (_stats w') ≤ write_duration_avg (_stats w')).
Proof.
  intros Hsteady Hroom Hc Hb Hm. unfold write_duration_avg.
  open_world w. subst. unfold write; exec.
  branch; [branch|].
  2,3: returns; split; [unfold phase_readings; numerals; lia | lia].
  match goal with |- context [loop _ _ ?st ?w1] =>
    destruct (write_loop_timed e n_counter0 st w1 Hsteady Hroom)
      as (r & w' & -> & Hleft) end.
  { unfold write_timed; cbn. split_and!; try done; try (numerals; lia).
    exists n_counter0. split; lia. }
  destruct Hleft as (? & Hn & (last & Hlast & Hsum)).
  open_world w'. subst. returns.
  assert (Z.of_nat n_counter1 < counter_horizon) as Hin
    by (unfold counter_horizon, phase_readings in *; numerals; lia).
  destruct (steady_sub32 e n_counter0 n_counter1 Hsteady ltac:(lia) Hin) as [-> ?].
  split; [unfold phase_readings; numerals; lia|].
  intros Hpos. apply Z.div_le_lower_bound; [done|].
  assert (counter e last ≤ counter e n_counter1)
    by (destruct (Hsteady last n_counter1 ltac:(lia) Hin); lia).
  lia.
Qed.

Definition read_timed (e : Env) (start : nat) (w : World) : Prop :=
  env w = e ∧
  Z.of_nat (n_counter (calls w)) ≤ Z.of_nat start + 1 + 2 * read_count (_stats w) ∧
  0 ≤ read_count (_stats w) ≤ chunk_count ∧
  read_bytes (_stats w) = read_count (_stats w) * write_size ∧
  (read_count (_stats w) = 0 → read_duration_min (_stats w) = 0) ∧
  (0 < read_count (_stats w) → 0 < read_duration_min (_stats w)) ∧
  ∃ last, (start ≤ last < n_counter (calls w))%nat ∧
    read_count (_stats w) * read_duration_min (_stats w)
    ≤ counter e last - counter e start.

Definition read_timed_left (e : Env) (start : nat) (w : World) : Prop :=
  env w = e ∧
  Z.of_nat (n_counter (calls w)) ≤ Z.of_nat start + 2 * chunk_count + 1 ∧
  ∃ last, (start ≤ last < n_counter (calls w))%nat ∧
    read_count (_stats w) * read_duration_min (_stats w)
    ≤ counter e last - counter e start.

Lemma read_chunk_timed e start st w :
  steady_counter e → Z.of_nat start + phase_readings ≤ counter_horizon →
  read_timed e start w →
  ∃ f w', read_chunk lfsr_iterate st w = Some (f, w') ∧
    match f with
    | Next _ =>
        read_timed e start w' ∧
        (chunks_left (read_count (_stats w')) < chunks_left (read_count (_stats w)))%nat
    | Leave r => (r = None ∨ r = Some FailCompare) ∧ read_timed_left e start w'
    end.
Proof.
  intros Hsteady Hroom. destruct st as [v buffer]. open_world w.
  unfold read_timed, read_timed_left, chunks_left.
  assert (Z.of_nat start + 2050 ≤ 4100) as Hroom'
    by (unfold counter_horizon, phase_readings in Hroom; numerals; lia).
  clear Hroom.
  cbn. intros (-> & Hn & [? ?] & -> & Hzero & Hpos & (last & Hlast & Hsum)).
  unfold read_chunk; exec. repeat branch; returns; reflect_cmp; numerals.
  (* the turns that leave without a chunk *)
  all: try (split_and!; [by left | done | lia | exists last; split; [lia | done]]; fail).
  (* the turns that read a chunk, matching or not *)
  all: assert (Z.of_nat (S n_counter0) < counter_horizon) as Hin
         by (unfold counter_horizon, phase_readings; numerals; lia).
  all: assert (Z.of_nat n_counter0 < counter_horizon) as Hin'
         by (unfold counter_horizon, phase_readings; numerals; lia).
  all: destruct (steady_sub32 e n_counter0 (S n_counter0) Hsteady ltac:(lia) Hin)
         as [-> ?].
  all: unfold add32; rewrite !wrap32_small by lia.
  all: assert (counter e last ≤ counter e n_counter0)
         by (destruct (decide (last = n_counter0)) as [->|]; [lia|];
             destruct (Hsteady last n_counter0 ltac:(lia) Hin'); lia).
  all: set (d := counter e (S n_counter0) - counter e n_counter0) in *.
  all: assert (update_min read_duration_min0 d ≤ d ∧ 0 < update_min read_duration_min0 d ∧
               read_count0 * update_min read_duration_min0 d
               ≤ read_count0 * read_duration_min0)
         as (? & ? & ?)
         by (destruct (decide (read_count0 = 0)) as [->|];
             [ rewrite Hzero by done; rewrite update_min_first; lia
             | rewrite update_min_later by lia; split_and!; [lia | lia | nia] ]).
  - split; [|lia]. split_and!; try done; try lia.
    exists (S n_counter0). split; lia.
  - split_and!; try done; try lia; [by right|].
    exists (S n_counter0). split; lia.
Qed.

Lemma read_loop_timed e start st w :
  steady_counter e → Z.of_nat start + phase_readings ≤ counter_horizon →
  read_timed e start w →
  ∃ r w', loop loop_fuel (read_chunk lfsr_iterate) st w = Some (r, w') ∧
    (r = None ∨ r = Some FailCompare) ∧ read_timed_left e start w'.
Proof.
  intros Hsteady Hroom Hw.
  apply (loop_rule (read_chunk lfsr_iterate) (λ _, read_timed e start)
           (λ r w', (r = None ∨ r = Some FailCompare) ∧ read_timed_left e start w')
           (λ _ w, chunks_left (read_count (_stats w)))).
  - intros s w1 H1.
    destruct (read_chunk_timed e start s w1 Hsteady Hroom H1) as (f & w' & ? & ?).
    exists f, w'. split; [done|]. by destruct f.
  - done.
  - destruct Hw as (_ & _ & ? & _). unfold chunks_left, loop_fuel. lia.
Qed.

Lemma read_timing path w :
  steady_counter (env w) →
  Z.of_nat (n_counter (calls w)) + phase_readings ≤ counter_horizon →
  read_count (_stats w) = 0 → read_bytes (_stats w) = 0 →
  read_duration_min (_stats w) = 0 →
  ∃ r w', read lfsr_iterate path w = Some (r, w') ∧
    (r ≠ FailCompare → 0 < read_count (_stats w') →
     read_duration_min (_stats w') ≤ read_duration_avg (_stats w')).
Proof.
  intros Hsteady Hroom Hc Hb Hm. unfold read_duration_avg.
  open_world w. subst. unfold read; exec.
  branch; [branch|].
  2-4: returns; lia.
  match goal with |- context [loop _ _ ?st ?w1] =>
    destruct (read_loop_timed e n_counter0 st w1 Hsteady Hroom)
      as (r & w' & -> & Hr & Hleft) end.
  { unfold read_timed; cbn. split_and!; try done; try (numerals; lia).
    exists n_counter0. split; lia. }
  destruct Hleft as (? & Hn & (last & Hlast & Hsum)).
  open_world w'. subst. destruct Hr as [-> | ->]; returns; [|done].
  assert (Z.of_nat n_counter1 < counter_horizon) as Hin
    by (unfold counter_horizon, phase_readings in *; numerals; lia).
  destruct (steady_sub32 e n_counter0 n_counter1 Hsteady ltac:(lia) Hin) as [-> ?].
  intros _ Hpos. apply Z.div_le_lower_bound; [done|].
  assert (counter e last ≤ counter e n_counter1)
    by (destruct (Hsteady last n_counter1 ltac:(lia) Hin); lia).
  lia.
Qed.

End Timing.

(** ** Runs from the initial world *)

Lemma read_side_ok_same s0 s :
  read_side_ok s0 → same_read_side s0 s → read_side_ok s.
Proof.
  unfold read_side_ok, same_read_side.
  intros (? & ? & ?) (-> & -> & _ & -> & ->). done.
Qed.

Lemma write_side_ok_same s0 s :
  write_side_ok s0 → same_write_side s0 s → write_side_ok s.
Proof.
  unfold write_side_ok, same_write_side.
  intros (? & ? & ?) (-> & -> & _ & -> & ->). done.
Qed.

(** Two results of one computation are the same result. *)
Ltac same_run H1 H2 :=
  rewrite H1 in H2;
  match type of H2 with
  | Some (?a, ?b) = Some (?c, ?d) =>
      first [ is_var c; assert (c = a) as -> by congruence
            | is_var a; assert (a = c) as -> by congruence
            | idtac ];
      first [ is_var d; assert (d = b) as -> by congruence
            | is_var b; assert (b = d) as -> by congruence
            | idtac ]
  end;
  clear H2.

Section Runs.

Variable lfsr_iterate : Z → Z.

(** [run] always comes back, through one of the ways of
    [run_outcome]. *)
Lemma run_outcome_exists w :
  fil w = None → write_side_ok (_stats w) → read_side_ok (_stats w) →
  ∃ r w', run_outcome lfsr_iterate w r w'.
Proof.
  intros Hfil Hw Hr.
  destruct (write_guarantee lfsr_iterate filename w Hfil Hw)
    as (r1 & w1 & Hwrite & _ & Hfil1 & _ & Hsame & _).
  destruct (decide (r1 = OK)) as [->|]; [|by eauto using run_write_failed].
  destruct (decide (write_bytes (_stats w1) < bytes_to_write));
    [by eauto using run_write_incomplete|].
  destruct (cancelled w1) eqn:Hc;
    [eexists _, _; eapply run_abort_before_read; eauto; lia|].
  destruct (read_guarantee lfsr_iterate filename (checked w1))
    as (r2 & w2 & Hread & _); [done | by eapply read_side_ok_same |].
  destruct (decide (r2 = OK)) as [->|];
    [|eexists _, _; eapply run_read_failed; eauto; lia].
  destruct (decide (read_bytes (_stats w2) < bytes_to_read));
    [eexists _, _; eapply run_read_incomplete; eauto; lia|].
  destruct (cancelled (unlinked w2)) eqn:Hc2.
  - eexists _, _; eapply run_abort_after_read; eauto; lia.
  - eexists _, _; eapply run_success; eauto; lia.
Qed.

Lemma initial_ready e disk :
  fil (initial e disk) = None ∧ write_side_ok (_stats (initial e disk)) ∧
  read_side_ok (_stats (initial e disk)).
Proof.
  split_and!; [done | apply Stats_init_write_side_ok | apply Stats_init_read_side_ok].
Qed.

(** What holds at the end of every run. *)
Lemma run_guarantee w :
  fil w = None → write_side_ok (_stats w) → read_side_ok (_stats w) →
  ∃ r w', run lfsr_iterate w = Some (r, w') ∧
    fil w' = None ∧ write_side_ok (_stats w') ∧ read_side_ok (_stats w') ∧
    (r = FailReadIncomplete ∨ r = OK →
     fs w' !! filename = None ∧ EvUnlink filename ∈ trace w') ∧
    r ≠ Incomplete.
Proof.
  intros Hfil Hw Hr.
  destruct (run_outcome_exists w Hfil Hw Hr) as (r & w' & Hout).
  exists r, w'. split; [by apply run_outcome_sound|].
  destruct (write_guarantee lfsr_iterate filename w Hfil Hw)
    as (r1 & w1 & Hwrite & _ & Hfil1 & Hw1 & Hsame1 & _ & Hr1).
  assert (read_side_ok (_stats w1)) as Hrs1 by by eapply read_side_ok_same.
  destruct (read_guarantee lfsr_iterate filename (checked w1) Hfil1 Hrs1)
    as (r2 & w2 & Hread & _ & _ & Hfil2 & Hr2 & Hsame2 & _ & Hres2).
  assert (write_side_ok (_stats w2)) as Hws2 by by eapply write_side_ok_same.
  assert (fs (unlinked w2) !! filename = None ∧
          EvUnlink filename ∈ trace (unlinked w2)) as Hgone.
  { split; [apply lookup_delete_eq | apply list_elem_of_here]. }
  destruct Hout as
    [r w1' Hw' Hne | w1' Hw' Hb | w1' Hw' Hb Hc | w1' r w2' Hw' Hb Hc Hrd Hne
    | w1' w2' Hw' Hb Hc Hrd Hrb | w1' w2' Hw' Hb Hc Hrd Hrb Hc2
    | w1' w2' Hw' Hb Hc Hrd Hrb Hc2];
    same_run Hwrite Hw'; try same_run Hread Hrd.
  - destruct Hr1 as [->|[->| ->]]; split_and!; auto; try done; intros [?|?]; done.
  - split_and!; auto; try done; intros [?|?]; done.
  - split_and!; auto; try done; intros [?|?]; done.
  - destruct Hres2 as [->|[->|[->| ->]]]; split_and!; auto; try done;
      intros [?|?]; done.
  - split_and!; auto.
  - split_and!; auto; try done; intros [?|?]; done.
  - split_and!; auto.
Qed.

End Runs.

(** ** Scripted runs from the initial world *)

(** The read side of the statistics is untouched. *)
Definition read_side_fresh (s : Stats) : Prop := same_read_side Stats_init s.

Section ScriptedRuns.

Variable lfsr_iterate : Z → Z.

Lemma no_read_phase_in_write_trace tr :
  extends write_event [] tr → EvEnter ReadPhase ∉ tr.
Proof.
  intros Hext Hin. destruct (extends_elem_of _ _ _ _ Hext Hin) as [[]|Hnil].
  by apply not_elem_of_nil in Hnil.
Qed.

(** The write loop stops after [k] chunks, short of the target. *)
Lemma run_stops_in_write e disk k :
  heap_ok e 0 = true → open_write_ok e 0 = true →
  (∀ i, (i < k)%nat →
     terminate_requested e i = false ∧ ready e i = true ∧ write_ok e i = true) →
  terminate_requested e k = true ∨ ready e k = false ∨ write_ok e k = false →
  Z.of_nat k < chunk_count →
  ∃ w', run lfsr_iterate (initial e disk) = Some (FailWriteIncomplete, w') ∧
    write_count (_stats w') = Z.of_nat k ∧
    write_bytes (_stats w') = Z.of_nat k * write_size ∧
    read_side_fresh (_stats w') ∧
    (EvEnter ReadPhase ∉ trace w') ∧
    fil w' = None.
Proof.
  intros Hheap Hopen Hturns Hstop Hk.
  destruct (initial_ready e disk) as (Hfil & Hws & Hrs).
  destruct (write_script lfsr_iterate filename k (initial e disk))
    as (w1 & Hwrite & _ & _ & _ & _ & _ & Hcount & Hbytes & _);
    try done; [right; exact Hstop | lia |].
  destruct (write_guarantee lfsr_iterate filename _ Hfil Hws)
    as (r & w1' & Hwrite' & _ & Hfil1 & _ & Hsame & Htr & _).
  same_run Hwrite Hwrite'.
  exists w1. split_and!; auto.
  - apply run_outcome_sound, run_write_incomplete; [done|].
    rewrite Hbytes. numerals. lia.
  - by apply no_read_phase_in_write_trace.
Qed.

(** The world a complete write phase leaves behind. *)
Definition written (e : Env) (w : World) : Prop :=
  env w = e ∧ fil w = None ∧
  n_heap (calls w) = 1%nat ∧ n_open_read (calls w) = 0%nat ∧
  n_read (calls w) = 0%nat ∧
  n_terminate (calls w) = S (Z.to_nat chunk_count) ∧
  write_count (_stats w) = chunk_count ∧
  write_bytes (_stats w) = bytes_to_write ∧
  read_side_fresh (_stats w) ∧
  fs w !! filename = Some (pattern lfsr_iterate 1 (Z.to_nat chunk_count)).

Lemma write_phase_complete e disk :
  write_goes_through e →
  ∃ w1, write lfsr_iterate filename (initial e disk) = Some (OK, w1) ∧ written e w1.
Proof.
  intros (Hheap & Hopen & Hturns).
  destruct (initial_ready e disk) as (Hfil & Hws & Hrs).
  destruct (write_script lfsr_iterate filename (Z.to_nat chunk_count) (initial e disk))
    as (w1 & Hwrite & He & Hterm & Hnheap & Hnopen & Hnread & Hcount & Hbytes & Hfs);
    try done; [by left|].
  destruct (write_guarantee lfsr_iterate filename _ Hfil Hws)
    as (r & w1' & Hwrite' & _ & Hfil1 & _ & Hsame & _).
  same_run Hwrite Hwrite'.
  exists w1. split; [done|]. unfold written.
  rewrite Z2Nat.id in Hcount, Hbytes by by numerals.
  split_and!; auto.
Qed.

(** The read phase fails before touching the file. *)
Lemma read_alloc_fails path w :
  heap_ok (env w) (n_heap (calls w)) = false →
  ∃ w', read lfsr_iterate path w = Some (FailHeap, w') ∧ _stats w' = _stats w.
Proof.
  intros Hheap. open_world w. unfold read; exec. rewrite Hheap; step.
  by eexists.
Qed.

Lemma read_open_fails path w :
  heap_ok (env w) (n_heap (calls w)) = true →
  open_read_ok (env w) (n_open_read (calls w)) = false →
  ∃ w', read lfsr_iterate path w = Some (FailFileOpenRead, w') ∧ _stats w' = _stats w.
Proof.
  intros Hheap Hopen. open_world w. unfold read; exec.
  rewrite Hheap; step. rewrite Hopen; step. by eexists.
Qed.

Lemma run_read_alloc_fails e disk :
  write_goes_through e →
  terminate_requested e (S (Z.to_nat chunk_count)) = false →
  heap_ok e 1 = false →
  ∃ w', run lfsr_iterate (initial e disk) = Some (FailHeap, w') ∧
    read_side_fresh (_stats w').
Proof.
  intros Hwrite Hterm Hheap.
  destruct (write_phase_complete e disk Hwrite)
    as (w1 & Hw1 & He & _ & Hnh & _ & _ & Hnt & _ & Hb & Hfresh & _).
  destruct (read_alloc_fails filename (checked w1)) as (w2 & Hread & Hstats).
  { cbn. by rewrite He, Hnh. }
  exists w2. split.
  - apply run_outcome_sound.
    eapply run_read_failed;
      [ exact Hw1 | rewrite Hb; lia | unfold cancelled; by rewrite He, Hnt
      | exact Hread | done ].
  - by rewrite Hstats.
Qed.

Lemma run_read_open_fails e disk :
  write_goes_through e →
  terminate_requested e (S (Z.to_nat chunk_count)) = false →
  heap_ok e 1 = true → open_read_ok e 0 = false →
  ∃ w', run lfsr_iterate (initial e disk) = Some (FailFileOpenRead, w') ∧
    read_side_fresh (_stats w').
Proof.
  intros Hwrite Hterm Hheap Hopen.
  destruct (write_phase_complete e disk Hwrite)
    as (w1 & Hw1 & He & _ & Hnh & Hno & _ & Hnt & _ & Hb & Hfresh & _).
  destruct (read_open_fails filename (checked w1)) as (w2 & Hread & Hstats).
  { cbn. by rewrite He, Hnh. }
  { cbn. by rewrite He, Hno. }
  exists w2. split.
  - apply run_outcome_sound.
    eapply run_read_failed;
      [ exact Hw1 | rewrite Hb; lia | unfold cancelled; by rewrite He, Hnt
      | exact Hread | done ].
  - by rewrite Hstats.
Qed.

(** The write phase completes and the read loop stops after [k]
    chunks, with no cancellation and no mismatch on the way. *)
Lemma run_read_stops e disk k :
  write_goes_through e →
  (∀ n, terminate_requested e n = false) → (∀ n, ready e n = true) →
  heap_ok e 1 = true → open_read_ok e 0 = true →
  (∀ i, (i < k)%nat → read_ok e i = true ∧ ∀ chunk, media e i chunk = chunk) →
  Z.of_nat k = chunk_count ∨ read_ok e k = false →
  Z.of_nat k ≤ chunk_count →
  ∃ w', run lfsr_iterate (initial e disk)
        = Some (if decide (Z.of_nat k < chunk_count) then FailReadIncomplete else OK, w') ∧
    write_count (_stats w') = chunk_count ∧
    read_count (_stats w') = Z.of_nat k ∧
    read_bytes (_stats w') = Z.of_nat k * write_size ∧
    fs w' !! filename = None ∧
    EvUnlink filename ∈ trace w' ∧
    fil w' = None.
Proof.
  intros Hwrite Hnever Hready Hheap Hopen Hreads Hstop Hk.
  destruct (write_phase_complete e disk Hwrite)
    as (w1 & Hw1 & He & Hfil1 & Hnh & Hno & Hnr & Hnt & Hwc & Hwb & Hfresh & Hfs).
  assert (read_side_ok (_stats w1)) as Hrs1
    by (eapply read_side_ok_same; [apply Stats_init_read_side_ok | exact Hfresh]).
  destruct Hfresh as (_ & _ & _ & Hrb0 & Hrc0). cbn in Hrb0, Hrc0.
  destruct (read_script lfsr_iterate filename (Z.to_nat chunk_count) k (checked w1))
    as (w2 & Hread & He2 & Hfs2 & _ & Hrc & Hrb & Hsame).
  { cbn. by rewrite He, Hnh. }
  { cbn. by rewrite He, Hno. }
  { exact Hfs. }
  { lia. }
  { exact Hrc0. }
  { exact Hrb0. }
  { intros i Hi. unfold read_turn_ok. cbn. rewrite He, Hnr.
    destruct (Hreads i Hi). split_and!; auto. }
  { unfold read_stops. cbn. rewrite He, Hnr.
    destruct Hstop; [by left | by right; right; right; left]. }
  { exact Hk. }
  destruct (read_guarantee lfsr_iterate filename (checked w1) Hfil1 Hrs1)
    as (r & w2' & Hread' & _ & _ & Hfil2 & _).
  same_run Hread Hread'.
  destruct Hsame as (_ & _ & _ & _ & Hwc2). cbn in Hwc2.
  assert (cancelled w1 = false) as Hc1 by (unfold cancelled; by rewrite He).
  assert (bytes_to_write ≤ write_bytes (_stats w1)) as Hfull by lia.
  destruct (decide (Z.of_nat k < chunk_count)) as [Hlt|Hge].
  - exists (unlinked w2). split_and!; cbn; auto; try congruence.
    + apply run_outcome_sound. eapply run_read_incomplete; eauto.
      rewrite Hrb. numerals. lia.
    + apply lookup_delete_eq.
    + apply list_elem_of_here.
  - exists (checked (unlinked w2)). split_and!; cbn; auto; try congruence.
    + apply run_outcome_sound. eapply run_success; eauto.
      * rewrite Hrb. numerals. lia.
      * unfold cancelled. cbn. rewrite He2. cbn. by rewrite He.
    + apply lookup_delete_eq.
    + apply list_elem_of_here.
Qed.

End ScriptedRuns.

(** ** Timing of a whole run *)

Section RunTiming.

Variable lfsr_iterate : Z → Z.

Lemma run_timing e disk :
  steady_counter e →
  ∃ r w', run lfsr_iterate (initial e disk) = Some (r, w') ∧
    (0 < write_count (_stats w') →
     write_duration_min (_stats w') ≤ write_duration_avg (_stats w')) ∧
    (r ≠ FailCompare → 0 < read_count (_stats w') →
     read_duration_min (_stats w') ≤ read_duration_avg (_stats w')).
Proof.
  intros Hsteady.
  destruct (initial_ready e disk) as (Hfil & Hws & Hrs).
  destruct (run_outcome_exists lfsr_iterate _ Hfil Hws Hrs) as (r & w' & Hout).
  exists r, w'. split; [by apply run_outcome_sound|].
  destruct (write_timing lfsr_iterate filename (initial e disk))
    as (r1 & w1 & Hwrite & Hn1 & Htw); try done.
  destruct (write_guarantee lfsr_iterate filename _ Hfil Hws)
    as (r1' & w1' & Hwrite' & He1 & Hfil1 & _ & Hsame1 & _).
  same_run Hwrite Hwrite'.
  assert (read_side_ok (_stats w1)) as Hrs1 by by eapply read_side_ok_same.
  destruct Hsame1 as (Hrm1 & _ & _ & Hrb1 & Hrc1). cbn in He1, Hrm1, Hrb1, Hrc1.
  destruct (read_timing lfsr_iterate filename (checked w1))
    as (r2 & w2 & Hread & Htr); try done.
  { cbn. by rewrite He1. }
  { cbn. cbn in Hn1. unfold counter_horizon. lia. }
  destruct (read_guarantee lfsr_iterate filename (checked w1) Hfil1 Hrs1)
    as (r2' & w2' & Hread' & _ & _ & _ & _ & Hsame2 & _).
  same_run Hread Hread'.
  assert (0 < write_count (_stats w2) →
          write_duration_min (_stats w2) ≤ write_duration_avg (_stats w2)) as Htw2.
  { destruct Hsame2 as (Hm & _ & Ht & _ & Hc). cbn in Hm, Ht, Hc.
    unfold write_duration_avg in *. by rewrite Hm, Ht, Hc. }
  destruct Hout as
    [r w1' Hw' Hne | w1' Hw' Hb | w1' Hw' Hb Hc | w1' r w2' Hw' Hb Hc Hrd Hne
    | w1' w2' Hw' Hb Hc Hrd Hrb | w1' w2' Hw' Hb Hc Hrd Hrb Hc2
    | w1' w2' Hw' Hb Hc Hrd Hrb Hc2];
    same_run Hwrite Hw'; try same_run Hread Hrd; cbn; split; auto; try lia.
Qed.

End RunTiming.

(** ** Facts about the sample environments *)

Lemma steady_env_goes_through tick :
  write_goes_through (steady_env tick None).
Proof. split_and!; [done | done | by intros i _]. Qed.

Lemma steady_env_steady : steady_counter (steady_env 1 None).
Proof.
  intros i j Hij Hj. cbn.
  assert (counter_horizon = 4100) as Heq by reflexivity.
  rewrite Heq in Hj. lia.
Qed.

Lemma fault_free_goes_through e :
  fault_free e → never_cancelled e → write_goes_through e.
Proof.
  intros Hff Hnc. split_and!; try apply Hff.
  intros i _. split_and!; [apply Hnc | apply Hff | apply Hff].
Qed.

(** ** The properties of the test run *)

(** C1: pattern oracle round trip.  For every nonzero seed [s] and every
    word count [n], verifying the buffer generated from the same seed
    reports that all [n] words matched; both instances end in the same
    register state. *)
Theorem pattern_oracle_round_trip (lfsr_iterate : Z → Z) (s : Z) (n : nat) :
  s ≠ 0 →
  lfsr_compare lfsr_iterate s (snd (lfsr_fill lfsr_iterate s n)) n
  = (true, fst (lfsr_fill lfsr_iterate s n)).
Proof. intros _. apply lfsr_compare_fill. Qed.

Lemma pattern_oracle_round_trip_witness :
  1 ≠ 0 ∧
  lfsr_compare lfsr31 1 (snd (lfsr_fill lfsr31 1 5)) 5
  = (true, fst (lfsr_fill lfsr31 1 5)).
Proof. split; [lia | apply (pattern_oracle_round_trip lfsr31 1 5); lia]. Defined.

(** C2, as the claim states it, fails: with cancellation requested after
    the first chunk, the run ends with [FailWriteIncomplete], not with
    [FailAbort]. *)
Lemma cancel_after_first_chunk_not_aborted :
  terminate_requested (steady_env 100 (Some 1%nat)) 0 = false ∧
  terminate_requested (steady_env 100 (Some 1%nat)) 1 = true ∧
  outcome (run lfsr31 (initial (steady_env 100 (Some 1%nat)) ∅))
  = Some (FailWriteIncomplete, mkStats 100 100 300 16384 1 0 0 0 0 0) ∧
  FailWriteIncomplete ≠ FailAbort.
Proof. split_and!; [done | done | vm_compute; reflexivity | done]. Qed.

(** C2 (amended): if cancellation is seen by the write loop after [k]
    chunks, short of the target, the run ends with [FailWriteIncomplete];
    the write statistics count exactly the [k] chunks completed before,
    and the read phase is never entered. *)
Theorem cancelled_write_is_incomplete (lfsr_iterate : Z → Z) e disk (k : nat) :
  heap_ok e 0 = true → open_write_ok e 0 = true →
  (∀ i, (i < k)%nat →
     terminate_requested e i = false ∧ ready e i = true ∧ write_ok e i = true) →
  terminate_requested e k = true →
  Z.of_nat k < chunk_count →
  ∃ w', run lfsr_iterate (initial e disk) = Some (FailWriteIncomplete, w') ∧
    write_count (_stats w') = Z.of_nat k ∧
    write_bytes (_stats w') = Z.of_nat k * write_size ∧
    read_side_fresh (_stats w') ∧
    (EvEnter ReadPhase ∉ trace w').
Proof.
  intros Hheap Hopen Hturns Hstop Hk.
  destruct (run_stops_in_write lfsr_iterate e disk k Hheap Hopen Hturns)
    as (w' & ? & ? & ? & ? & ? & _); [by left | done |].
  exists w'. done.
Qed.

Lemma cancelled_write_is_incomplete_witness :
  ∃ w', run lfsr31 (initial (steady_env 100 (Some 1%nat)) ∅)
        = Some (FailWriteIncomplete, w') ∧
    write_count (_stats w') = 1 ∧
    write_bytes (_stats w') = 1 * write_size ∧
    read_side_fresh (_stats w') ∧
    (EvEnter ReadPhase ∉ trace w').
Proof.
  apply (cancelled_write_is_incomplete lfsr31 (steady_env 100 (Some 1%nat)) ∅ 1%nat).
  - reflexivity.
  - reflexivity.
  - intros i Hi. assert (i = 0%nat) as -> by lia. done.
  - reflexivity.
  - reflexivity.
Defined.

(** C3: if the write primitive fails after [k] chunks, with [k] less
    than the number of chunks of the target, the run ends with
    [FailWriteIncomplete] and the read phase is never entered. *)
Theorem failed_write_is_incomplete (lfsr_iterate : Z → Z) e disk (k : nat) :
  heap_ok e 0 = true → open_write_ok e 0 = true →
  (∀ i, (i < k)%nat →
     terminate_requested e i = false ∧ ready e i = true ∧ write_ok e i = true) →
  terminate_requested e k = false → ready e k = true → write_ok e k = false →
  Z.of_nat k < bytes_to_write / write_size →
  ∃ w', run lfsr_iterate (initial e disk) = Some (FailWriteIncomplete, w') ∧
    write_count (_stats w') = Z.of_nat k ∧
    read_side_fresh (_stats w') ∧
    (EvEnter ReadPhase ∉ trace w').
Proof.
  intros Hheap Hopen Hturns _ _ Hfail Hk.
  destruct (run_stops_in_write lfsr_iterate e disk k Hheap Hopen Hturns)
    as (w' & ? & ? & ? & ? & ? & _); [by right; right | done |].
  exists w'. done.
Qed.

Lemma failed_write_is_incomplete_witness :
  ∃ w', run lfsr31 (initial (refuse_write_at 2 (steady_env 100 None)) ∅)
        = Some (FailWriteIncomplete, w') ∧
    write_count (_stats w') = 2 ∧
    read_side_fresh (_stats w') ∧
    (EvEnter ReadPhase ∉ trace w').
Proof.
  apply (failed_write_is_incomplete lfsr31
           (refuse_write_at 2 (steady_env 100 None)) ∅ 2%nat).
  - reflexivity.
  - reflexivity.
  - intros i Hi. cbn. destruct (decide (i = 2%nat)); [lia | done].
  - reflexivity.
  - reflexivity.
  - reflexivity.
  - reflexivity.
Defined.

(** C4, as the claim states it, fails: when the allocation of the read
    phase fails, the run ends with [FailHeap], not with
    [FailFileOpenRead]. *)
Lemma read_allocation_failure_not_open_failed :
  heap_ok (heap_once (steady_env 100 None)) 1 = false ∧
  ∃ w', run lfsr31 (initial (heap_once (steady_env 100 None)) ∅)
        = Some (FailHeap, w') ∧
    FailHeap ≠ FailFileOpenRead.
Proof.
  split; [done|].
  pose proof (run_read_alloc_fails lfsr31 (heap_once (steady_env 100 None)) ∅) as H.
  destruct H as (w' & Hrun & _).
  - split_and!; [done | done | by intros i _].
  - reflexivity.
  - reflexivity.
  - exists w'. split; [exact Hrun | discriminate].
Qed.

(** C4 (amended): when the write phase has gone through and the read
    phase cannot open the file, the run ends with [FailFileOpenRead];
    when it cannot allocate its buffer, the run ends with [FailHeap].
    Either way the read statistics keep their initial zero values. *)
Theorem read_resource_failure (lfsr_iterate : Z → Z) e disk :
  write_goes_through e →
  terminate_requested e (S (Z.to_nat chunk_count)) = false →
  heap_ok e 1 = false ∨ open_read_ok e 0 = false →
  ∃ w', run lfsr_iterate (initial e disk)
        = Some (if heap_ok e 1 then FailFileOpenRead else FailHeap, w') ∧
    read_duration_min (_stats w') = 0 ∧ read_duration_max (_stats w') = 0 ∧
    read_test_duration (_stats w') = 0 ∧
    read_bytes (_stats w') = 0 ∧ read_count (_stats w') = 0.
Proof.
  intros Hwrite Hterm Hfail.
  destruct (heap_ok e 1) eqn:Hheap.
  - destruct Hfail as [|Hopen]; [done|].
    destruct (run_read_open_fails lfsr_iterate e disk Hwrite Hterm Hheap Hopen)
      as (w' & Hrun & Hfresh).
    exists w'. split; [done | exact Hfresh].
  - destruct (run_read_alloc_fails lfsr_iterate e disk Hwrite Hterm Hheap)
      as (w' & Hrun & Hfresh).
    exists w'. split; [done | exact Hfresh].
Qed.

Lemma read_resource_failure_witness :
  ∃ w', run lfsr31 (initial (refuse_open_read (steady_env 100 None)) ∅)
        = Some (FailFileOpenRead, w') ∧
    read_duration_min (_stats w') = 0 ∧ read_duration_max (_stats w') = 0 ∧
    read_test_duration (_stats w') = 0 ∧
    read_bytes (_stats w') = 0 ∧ read_count (_stats w') = 0.
Proof.
  apply (read_resource_failure lfsr31 (refuse_open_read (steady_env 100 None)) ∅).
  - split_and!; [reflexivity | reflexivity | by intros i _].
  - reflexivity.
  - right. reflexivity.
Defined.

(** C5, as the claim states it, fails: the duration of a whole phase
    also covers what happens between the timed calls, so the average
    exceeds the longest chunk.  Here one chunk is written in 100 ticks
    within a phase of 300 ticks. *)
Lemma average_exceeds_maximum :
  outcome (run lfsr31 (initial (steady_env 100 (Some 1%nat)) ∅))
  = Some (FailWriteIncomplete, mkStats 100 100 300 16384 1 0 0 0 0 0) ∧
  0 < write_count (mkStats 100 100 300 16384 1 0 0 0 0 0) ∧
  ¬ (write_duration_min (mkStats 100 100 300 16384 1 0 0 0 0 0)
     ≤ write_test_duration (mkStats 100 100 300 16384 1 0 0 0 0 0)
       / write_count (mkStats 100 100 300 16384 1 0 0 0 0 0)
     ≤ write_duration_max (mkStats 100 100 300 16384 1 0 0 0 0 0)).
Proof.
  split_and!; [vm_compute; reflexivity | done |].
  cbn. intros [_ H]. revert H. by vm_compute.
Qed.

(** C5 (amended): at the end of every run the recorded minimum of either
    direction is at most the recorded maximum; and when the counter
    neither wraps nor stands still over the run, the minimum of a
    direction with at least one chunk is at most the duration of its
    phase divided by its chunk count (for the read direction, unless
    the phase returned on a mismatch, which leaves the phase duration
    unrecorded).  No upper bound by the maximum is claimed. *)
Theorem duration_extremes (lfsr_iterate : Z → Z) e disk :
  ∃ r w', run lfsr_iterate (initial e disk) = Some (r, w') ∧
    write_duration_min (_stats w') ≤ write_duration_max (_stats w') ∧
    read_duration_min (_stats w') ≤ read_duration_max (_stats w') ∧
    (steady_counter e →
     (0 < write_count (_stats w') →
      write_duration_min (_stats w')
      ≤ write_test_duration (_stats w') / write_count (_stats w')) ∧
     (r ≠ FailCompare → 0 < read_count (_stats w') →
      read_duration_min (_stats w')
      ≤ read_test_duration (_stats w') / read_count (_stats w'))).
Proof.
  destruct (initial_ready e disk) as (Hfil & Hws & Hrs).
  destruct (run_guarantee lfsr_iterate _ Hfil Hws Hrs)
    as (r & w' & Hrun & _ & (_ & _ & [_ Hwm]) & (_ & _ & [_ Hrm]) & _).
  exists r, w'. split_and!; [done | done | done |].
  intros Hsteady.
  destruct (run_timing lfsr_iterate e disk Hsteady) as (r' & w'' & Hrun' & Hw & Hr).
  same_run Hrun Hrun'. split; [exact Hw | exact Hr].
Qed.

Lemma duration_extremes_witness :
  ∃ r w', run lfsr31 (initial (steady_env 1 None) ∅) = Some (r, w') ∧
    (0 < write_count (_stats w') →
     write_duration_min (_stats w')
     ≤ write_test_duration (_stats w') / write_count (_stats w')).
Proof.
  destruct (duration_extremes lfsr31 (steady_env 1 None) ∅)
    as (r & w' & Hrun & _ & _ & Hsteady).
  exists r, w'. split; [exact Hrun|].
  exact (proj1 (Hsteady steady_env_steady)).
Defined.

(** C6: after the write phase, and at the end of every run, the bytes
    transferred in each direction are the chunks completed in that
    direction times the chunk size of 16384 bytes. *)
Theorem bytes_are_whole_chunks (lfsr_iterate : Z → Z) e disk :
  write_size = 16384 ∧
  (∃ r w1, write lfsr_iterate filename (initial e disk) = Some (r, w1) ∧
     write_bytes (_stats w1) = write_count (_stats w1) * write_size) ∧
  (∃ r w', run lfsr_iterate (initial e disk) = Some (r, w') ∧
     write_bytes (_stats w') = write_count (_stats w') * write_size ∧
     read_bytes (_stats w') = read_count (_stats w') * write_size).
Proof.
  destruct (initial_ready e disk) as (Hfil & Hws & Hrs).
  split_and!; [done | |].
  - destruct (write_guarantee lfsr_iterate filename _ Hfil Hws)
      as (r & w1 & Hwrite & _ & _ & (Hb & _) & _).
    by exists r, w1.
  - destruct (run_guarantee lfsr_iterate _ Hfil Hws Hrs)
      as (r & w' & Hrun & _ & (Hwb & _) & (Hrb & _) & _).
    by exists r, w'.
Qed.

(** C7, as the claim states it, fails: a duration of zero does replace a
    recorded nonzero minimum.  After one chunk the recorded minimum is
    5; the second chunk, timed at zero, sets it to 0. *)
Lemma zero_duration_replaces_minimum :
  update_min 5 0 = 0 ∧
  outcome (run lfsr31 (initial (stalled_env 1) ∅))
  = Some (FailWriteIncomplete, mkStats 5 5 20 16384 1 0 0 0 0 0) ∧
  outcome (run lfsr31 (initial (stalled_env 2) ∅))
  = Some (FailWriteIncomplete, mkStats 0 5 30 32768 2 0 0 0 0 0).
Proof. split_and!; vm_compute; reflexivity. Qed.

(** C7 (amended): for either direction, a new chunk duration replaces
    the recorded minimum exactly when the recorded minimum is zero or
    the new duration is smaller; so a recorded zero, whether initial or
    measured, is replaced by whatever comes next, and a duration of zero
    always becomes the minimum.  The maximum starts at zero and is
    replaced exactly when the new duration exceeds it. *)
Theorem duration_policy (s : Stats) (start finish : Z) :
  write_duration_max Stats_init = 0 ∧ read_duration_max Stats_init = 0 ∧
  write_duration_min Stats_init = 0 ∧ read_duration_min Stats_init = 0 ∧
  write_duration_min (note_write start finish s)
  = (if decide (write_duration_min s = 0 ∨ sub32 finish start < write_duration_min s)
     then sub32 finish start else write_duration_min s) ∧
  write_duration_max (note_write start finish s)
  = Z.max (write_duration_max s) (sub32 finish start) ∧
  read_duration_min (note_read start finish s)
  = (if decide (read_duration_min s = 0 ∨ sub32 finish start < read_duration_min s)
     then sub32 finish start else read_duration_min s) ∧
  read_duration_max (note_read start finish s)
  = Z.max (read_duration_max s) (sub32 finish start).
Proof.
  assert (∀ m d, update_min m d = if decide (m = 0 ∨ d < m) then d else m) as Hmin.
  { intros m d. destruct (update_min_cases m d) as [[-> ->]|[? ->]];
      case_decide; lia. }
  cbn. rewrite !update_max_max, !Hmin. done.
Qed.

(** C8: with the target of 16 MiB per direction in chunks of 16 KiB, no
    fault injected and no cancellation requested, the run ends with
    [OK], both directions count 1024 chunks, and the test file is gone
    at the end. *)
Theorem fault_free_run_succeeds (lfsr_iterate : Z → Z) e disk :
  fault_free e → never_cancelled e →
  bytes_to_write = 16 * 1024 * 1024 ∧ bytes_to_read = 16 * 1024 * 1024 ∧
  write_size = 16 * 1024 ∧
  ∃ w', run lfsr_iterate (initial e disk) = Some (OK, w') ∧
    write_count (_stats w') = 1024 ∧ read_count (_stats w') = 1024 ∧
    fs w' !! filename = None ∧
    EvUnlink filename ∈ trace w'.
Proof.
  intros Hff Hnc. split_and!; [done | done | done |].
  pose proof (run_read_stops lfsr_iterate e disk (Z.to_nat chunk_count)) as H.
  destruct H as (w' & Hrun & Hwc & Hrc & _ & Hgone & Hunlink & _).
  - by apply fault_free_goes_through.
  - exact Hnc.
  - intros n. apply Hff.
  - apply Hff.
  - apply Hff.
  - intros i _. split; [apply Hff | apply Hff].
  - left. reflexivity.
  - reflexivity.
  - exists w'. split_and!; [exact Hrun | exact Hwc | exact Hrc | done | done].
Qed.

Lemma fault_free_run_succeeds_witness :
  ∃ w', run lfsr31 (initial (steady_env 100 None) ∅) = Some (OK, w') ∧
    write_count (_stats w') = 1024 ∧ read_count (_stats w') = 1024 ∧
    fs w' !! filename = None ∧
    EvUnlink filename ∈ trace w'.
Proof.
  apply (fault_free_run_succeeds lfsr31 (steady_env 100 None) ∅).
  - intros n. split_and!; reflexivity.
  - intros n. reflexivity.
Defined.

(** C9: whichever way a phase comes back (the loop ran to its end, a
    transfer failed, cancellation was seen, a chunk did not match, or
    the phase never got as far as its loop), no file handle is open
    when it returns. *)
Theorem handle_closed_on_return (lfsr_iterate : Z → Z) path w :
  fil w = None → write_side_ok (_stats w) → read_side_ok (_stats w) →
  (∃ r w', write lfsr_iterate path w = Some (r, w') ∧ fil w' = None) ∧
  (∃ r w', read lfsr_iterate path w = Some (r, w') ∧ fil w' = None).
Proof.
  intros Hfil Hws Hrs. split.
  - destruct (write_guarantee lfsr_iterate path w Hfil Hws)
      as (r & w' & Hwrite & _ & Hclosed & _).
    by exists r, w'.
  - destruct (read_guarantee lfsr_iterate path w Hfil Hrs)
      as (r & w' & Hread & _ & _ & Hclosed & _).
    by exists r, w'.
Qed.

Lemma handle_closed_on_return_witness :
  (∃ r w', write lfsr31 filename (initial (steady_env 100 None) foreign_disk)
           = Some (r, w') ∧ fil w' = None) ∧
  (∃ r w', read lfsr31 filename (initial (steady_env 100 None) foreign_disk)
           = Some (r, w') ∧ fil w' = None).
Proof.
  apply (handle_closed_on_return lfsr31 filename
           (initial (steady_env 100 None) foreign_disk)).
  - reflexivity.
  - apply Stats_init_write_side_ok.
  - apply Stats_init_read_side_ok.
Defined.

(** The way out of [read] on a mismatch, on a card holding foreign
    content: the file was opened and read, the phase returned
    [FailCompare] without calling [close()], and the handle is released
    all the same. *)
Example mismatch_releases_handle :
  prod_map id (λ w, (fil w, trace w))
    <$> read lfsr31 filename (initial (steady_env 100 None) foreign_disk)
  = Some (FailCompare,
          (None, [EvRead true; EvOpen ReadPhase true; EvEnter ReadPhase])).
Proof. vm_compute. reflexivity. Qed.

(** The way out of [write] on a refused transfer. *)
Example refused_write_releases_handle :
  prod_map id (λ w, (fil w, trace w))
    <$> write lfsr31 filename (initial (refuse_write_at 0 (steady_env 100 None)) ∅)
  = Some (OK,
          (None, [EvClose; EvWrite false; EvOpen WritePhase true; EvEnter WritePhase])).
Proof. vm_compute. reflexivity. Qed.

(** C10: whenever the run ends with [FailReadIncomplete], the test file
    has already been deleted: [f_unlink] is called as soon as the read
    phase has returned [OK], before the bytes read are compared with the
    target, on a shortfall as on full success. *)
Theorem incomplete_read_still_unlinks (lfsr_iterate : Z → Z) e disk :
  ∃ r w', run lfsr_iterate (initial e disk) = Some (r, w') ∧
    (r = FailReadIncomplete ∨ r = OK →
     fs w' !! filename = None ∧ EvUnlink filename ∈ trace w').
Proof.
  destruct (initial_ready e disk) as (Hfil & Hws & Hrs).
  destruct (run_guarantee lfsr_iterate _ Hfil Hws Hrs)
    as (r & w' & Hrun & _ & _ & _ & Hgone & _).
  exists r, w'. split; [exact Hrun | exact Hgone].
Qed.

Lemma incomplete_read_still_unlinks_witness :
  ∃ w', run lfsr31 (initial (refuse_reads (steady_env 100 None)) ∅)
        = Some (FailReadIncomplete, w') ∧
    fs w' !! filename = None ∧ EvUnlink filename ∈ trace w'.
Proof.
  pose proof (run_read_stops lfsr31 (refuse_reads (steady_env 100 None)) ∅ 0) as H.
  destruct H as (w'' & Hrun' & _).
  - split_and!; [reflexivity | reflexivity |].
    intros i _. split_and!; reflexivity.
  - intros n. reflexivity.
  - intros n. reflexivity.
  - reflexivity.
  - reflexivity.
  - intros i Hi. lia.
  - right. reflexivity.
  - rewrite chunk_count_eq. lia.
  - revert Hrun'.
    destruct (decide (Z.of_nat 0 < chunk_count)) as [_|Hn];
      [intros Hrun' | exfalso; apply Hn; reflexivity].
    destruct (incomplete_read_still_unlinks lfsr31
                (refuse_reads (steady_env 100 None)) ∅)
      as (r & w' & Hrun & Hgone).
    rewrite Hrun in Hrun'.
    assert (r = FailReadIncomplete ∧ w' = w'') as [Hr ->].
    { clear Hrun Hgone. split; congruence. }
    exists w''. split; [rewrite Hrun, Hr; reflexivity | exact (Hgone (or_introl Hr))].
Defined.

(** * What a run leaves behind

    Properties of [write], [read] and [run] that hold whatever the
    environment does, and the remaining ways through [run]. *)

(** ** The comparison is exact *)

Lemma lfsr_fill_length (lfsr_iterate : Z → Z) v n :
  length (snd (lfsr_fill lfsr_iterate v n)) = n.
Proof.
  revert v. induction n as [|n IH]; intros v; simpl; [done|].
  specialize (IH (lfsr_iterate v)).
  destruct (lfsr_fill lfsr_iterate (lfsr_iterate v) n) as [vn buffer].
  simpl in *. by rewrite IH.
Qed.

(** The register comes back advanced by [n] words, whatever the buffer
    holds. *)
Lemma lfsr_compare_state (lfsr_iterate : Z → Z) v buffer n :
  snd (lfsr_compare lfsr_iterate v buffer n) = fst (lfsr_fill lfsr_iterate v n).
Proof.
  revert v buffer. induction n as [|n IH]; intros v buffer; simpl; [done|].
  specialize (IH (lfsr_iterate v) (tail buffer)).
  destruct (lfsr_compare lfsr_iterate (lfsr_iterate v) (tail buffer) n) as [m vn].
  destruct (lfsr_fill lfsr_iterate (lfsr_iterate v) n) as [vn' b].
  simpl in *. done.
Qed.

(** A buffer of [n] words passes only if it is the generated one. *)
Lemma lfsr_compare_exact (lfsr_iterate : Z → Z) v buffer n :
  length buffer = n → fst (lfsr_compare lfsr_iterate v buffer n) = true →
  buffer = snd (lfsr_fill lfsr_iterate v n).
Proof.
  revert v buffer. induction n as [|n IH]; intros v buffer Hlen; simpl.
  - by destruct buffer.
  - destruct buffer as [|x buffer]; [done|]. simpl in Hlen.
    specialize (IH (lfsr_iterate v) buffer).
    simpl.
    destruct (lfsr_compare lfsr_iterate (lfsr_iterate v) buffer n) as [m vn].
    destruct (lfsr_fill lfsr_iterate (lfsr_iterate v) n) as [vn' b].
    simpl in *.
    intros [Hx Hm]%andb_true_iff. apply Z.eqb_eq in Hx.
    f_equal; [done | apply IH; [lia | done]].
Qed.

Lemma chunk_count_nat : Z.to_nat chunk_count = 1024%nat.
Proof. reflexivity. Qed.

Section Storage.

Variable lfsr_iterate : Z → Z.

(** Where the write loop stands after [j] chunks, whatever made it get
    there: the file holds the first [j] chunks of the pattern and no
    other file has changed. *)
Definition write_stored (w0 : World) (path : string) (j : nat) (w : World) : Prop :=
  fil w = Some (mkHandle path true 0) ∧
  write_count (_stats w) = Z.of_nat j ∧
  write_bytes (_stats w) = Z.of_nat j * write_size ∧
  n_read (calls w) = n_read (calls w0) ∧
  fs w !! path = Some (pattern lfsr_iterate 1 j) ∧
  ∀ p, p ≠ path → fs w !! p = fs w0 !! p.

Lemma write_chunk_stores w0 path st w :
  (∃ j, st.1 = register_after lfsr_iterate 1 j ∧ write_stored w0 path j w) →
  ∃ f w', write_chunk lfsr_iterate st w = Some (f, w') ∧
    match f with
    | Next st' =>
        (∃ j, st'.1 = register_after lfsr_iterate 1 j ∧ write_stored w0 path j w') ∧
        (chunks_left (write_count (_stats w')) < chunks_left (write_count (_stats w)))%nat
    | Leave _ => ∃ j, write_stored w0 path j w'
    end.
Proof.
  intros (j & Hv & Htrack).
  destruct st as [v buffer]. cbn in Hv. subst v.
  unfold write_stored, chunks_left in *.
  open_world w.
  destruct Htrack as (-> & -> & -> & Hnr & Hfs & Hframe).
  unfold write_chunk; exec. repeat branch; returns; reflect_cmp; numerals.
  all: try (exists j; split_and!; auto; fail).
  unfold add32. rewrite !wrap32_small by lia.
  split; [|lia]. exists (S j). split.
  - rewrite register_after_S.
    match goal with H : lfsr_fill _ _ _ = _ |- _ => by rewrite H end.
  - rewrite pattern_snoc, Hfs, lookup_insert_eq.
    match goal with H : lfsr_fill _ _ _ = _ |- _ => rewrite H end. cbn.
    split_and!; auto; try lia.
    intros p Hp. rewrite lookup_insert_ne by done. by apply Hframe.
Qed.

Lemma write_loop_stores w0 path st w :
  st.1 = 1 → write_stored w0 path 0 w →
  ∃ r w', loop loop_fuel (write_chunk lfsr_iterate) st w = Some (r, w') ∧
    ∃ j, write_stored w0 path j w'.
Proof.
  intros Hst Hw.
  apply (loop_rule (write_chunk lfsr_iterate)
           (λ st w, ∃ j, st.1 = register_after lfsr_iterate 1 j ∧ write_stored w0 path j w)
           (λ _ w', ∃ j, write_stored w0 path j w')
           (λ _ w, chunks_left (write_count (_stats w)))).
  - intros s w1 H1.
    destruct (write_chunk_stores w0 path s w1 H1) as (f & w' & ? & ?).
    exists f, w'. split; [done|]. by destruct f.
  - by exists 0%nat.
  - destruct Hw as (_ & -> & _).
    unfold chunks_left, loop_fuel. cbn. lia.
Qed.

(** What [write] does to the card: nothing but the file it is given,
    which holds, if the phase got as far as the loop, as many chunks of
    the pattern as were counted. *)
Lemma write_stores path w :
  write_count (_stats w) = 0 → write_bytes (_stats w) = 0 →
  ∃ r w', write lfsr_iterate path w = Some (r, w') ∧
    (∀ p, p ≠ path → fs w' !! p = fs w !! p) ∧
    n_read (calls w') = n_read (calls w) ∧
    (r = OK →
     ∃ j : nat, write_count (_stats w') = Z.of_nat j ∧
       fs w' !! path = Some (pattern lfsr_iterate 1 j)) ∧
    (r ≠ OK → fs w' = fs w ∧ _stats w' = _stats w).
Proof.
  intros Hc Hb. open_world w. subst.
  unfold write; exec.
  branch; [branch|].
  2,3: returns; split_and!; auto; done.
  match goal with |- context [loop _ _ ?st ?w1] =>
    destruct (write_loop_stores w1 path st w1) as (r & w' & -> & j & Hleft) end.
  { done. }
  { unfold write_stored; cbn. rewrite lookup_insert_eq. split_and!; auto. }
  destruct Hleft as (? & ? & ? & ? & ? & Hframe).
  open_world w'. subst. returns.
  split_and!; auto.
  - intros p Hp. rewrite Hframe by done. by rewrite lookup_insert_ne.
  - intros _. by exists j.
  - done.
Qed.

(** The [i]-th chunk of the pattern, and what the [i]-th read of a
    read loop started in [w] delivers in its place. *)
Definition chunk_at (i : nat) : list Z :=
  snd (lfsr_fill lfsr_iterate (register_after lfsr_iterate 1 i) buffer_words).

Definition delivered (w : World) (i : nat) : list Z :=
  media (env w) (n_read (calls w) + i) (chunk_at i).

(** Whether that chunk passes the comparison. *)
Definition passes (w : World) (i : nat) : bool :=
  fst (lfsr_compare lfsr_iterate (register_after lfsr_iterate 1 i) (delivered w i) buffer_words).

(** The [i]-th turn of the read loop got as far as a served read. *)
Definition read_served (w : World) (i : nat) : Prop :=
  terminate_requested (env w) (n_terminate (calls w) + i) = false ∧
  ready (env w) (n_ready (calls w) + i) = true ∧
  read_ok (env w) (n_read (calls w) + i) = true.

(** Where the read loop stands after [j] chunks that passed. *)
Definition read_seen (w0 : World) (path : string) (stored j : nat) (w : World) : Prop :=
  (j ≤ stored)%nat ∧ Z.of_nat j ≤ chunk_count ∧
  read_track w0 path j w ∧
  read_test_duration (_stats w) = read_test_duration (_stats w0) ∧
  ∀ i, (i < j)%nat → read_served w0 i ∧ passes w0 i = true.

(** How the read loop was left: past [j] good chunks, either by its
    condition or a refused read, or on the mismatch of the next one. *)
Definition read_verdict (w0 : World) (stored : nat) (r : option Result) (w : World) : Prop :=
  ∃ j, (∀ i, (i < j)%nat → read_served w0 i ∧ passes w0 i = true) ∧
    env w = env w0 ∧ fs w = fs w0 ∧
    read_test_duration (_stats w) = read_test_duration (_stats w0) ∧
    ((r = None ∧ read_stops w0 stored j ∧ read_count (_stats w) = Z.of_nat j) ∨
     (r = Some FailCompare ∧ (j < stored)%nat ∧ read_served w0 j ∧ passes w0 j = false ∧
      read_count (_stats w) = Z.of_nat (S j))).

Lemma read_chunk_sees w0 path stored st w :
  fs w0 !! path = Some (pattern lfsr_iterate 1 stored) →
  (∃ j, st.1 = register_after lfsr_iterate 1 j ∧ read_seen w0 path stored j w) →
  ∃ f w', read_chunk lfsr_iterate st w = Some (f, w') ∧
    match f with
    | Next st' =>
        (∃ j, st'.1 = register_after lfsr_iterate 1 j ∧ read_seen w0 path stored j w') ∧
        (chunks_left (read_count (_stats w')) < chunks_left (read_count (_stats w)))%nat
    | Leave r => read_verdict w0 stored r w'
    end.
Proof.
  intros Hfs (j & Hv & Hj & Hjc & Htrack & Hdur & Hpast).
  destruct st as [v buffer]. cbn in Hv. subst v.
  unfold read_seen, read_verdict, read_stops, read_track, same_write_side,
    chunks_left in *.
  open_world w.
  destruct Htrack as (-> & -> & -> & -> & -> & -> & -> & -> & ? & ? & ? & ? & ?).
  unfold read_chunk; exec.
  repeat first [progress (rewrite Hfs; cbn) | branch]; returns; reflect_cmp; numerals.
  (* the turns that leave the loop by its condition or a refused read *)
  all: try (exists j; split_and!; auto; left; split_and!; auto;
            first [ by right; left | by right; right; left
                  | by right; right; right; left
                  | left; lia
                  | right; right; right; right;
                    match goal with H : _ !! _ = None |- _ =>
                      apply lookup_ge_None in H; rewrite pattern_length in H; lia
                    end ]; fail).
  (* the turns that were served a chunk: it is the [j]-th of the pattern *)
  all: match goal with Hchunk : _ !! _ = Some _ |- _ =>
         assert (j < stored)%nat as Hlt by
           (apply lookup_lt_Some in Hchunk; rewrite pattern_length in Hchunk; lia);
         rewrite pattern_lookup in Hchunk by lia;
         match type of Hchunk with Some ?a = Some ?b =>
           assert (b = a) as -> by congruence
         end
       end.
  all: match goal with H : lfsr_compare _ _ ?buf _ = (?b, ?z) |- _ =>
         assert (passes w0 j = b) as Hpass
           by (unfold passes, delivered, chunk_at; by rewrite H);
         assert (z = fst (lfsr_fill lfsr_iterate (register_after lfsr_iterate 1 j)
                            buffer_words))
           as -> by (rewrite <- lfsr_compare_state with (buffer := buf); by rewrite H);
         clear H
       end.
  all: assert (read_served w0 j) as Hserved by (unfold read_served; split_and!; assumption).
  all: unfold add32; rewrite !wrap32_small by lia.
  - split; [|lia]. exists (S j). split; [by rewrite register_after_S|].
    split_and!; auto; try lia.
    intros i Hi. destruct (decide (i = j)) as [->|]; [split; assumption|]. apply Hpast. lia.
  - exists j. split_and!; auto. right. split_and!; auto. lia.
Qed.

Lemma read_loop_sees w0 path stored st w :
  fs w0 !! path = Some (pattern lfsr_iterate 1 stored) →
  st.1 = 1 → read_seen w0 path stored 0 w →
  ∃ r w', loop loop_fuel (read_chunk lfsr_iterate) st w = Some (r, w') ∧
    read_verdict w0 stored r w'.
Proof.
  intros Hfs Hst Hw.
  apply (loop_rule (read_chunk lfsr_iterate)
           (λ st w, ∃ j, st.1 = register_after lfsr_iterate 1 j ∧
                         read_seen w0 path stored j w)
           (read_verdict w0 stored)
           (λ _ w, chunks_left (read_count (_stats w)))).
  - intros s w1 H1.
    destruct (read_chunk_sees w0 path stored s w1 Hfs H1) as (f & w' & ? & ?).
    exists f, w'. split; [done|]. by destruct f.
  - by exists 0%nat.
  - destruct Hw as (_ & _ & (_ & _ & _ & _ & _ & _ & -> & _) & _).
    unfold chunks_left, loop_fuel. cbn. lia.
Qed.

(** The read loop looks at the world it starts in only through the
    environment and the calls made so far. *)
Definition same_view (w w' : World) : Prop :=
  env w = env w' ∧
  n_terminate (calls w) = n_terminate (calls w') ∧
  n_ready (calls w) = n_ready (calls w') ∧
  n_read (calls w) = n_read (calls w').

Lemma read_served_view w w' i : same_view w w' → read_served w i → read_served w' i.
Proof. unfold read_served. intros (<- & <- & <- & <-). done. Qed.

Lemma passes_view w w' i : same_view w w' → passes w i = passes w' i.
Proof. unfold passes, delivered. intros (<- & _ & _ & <-). done. Qed.

Lemma read_stops_view w w' stored k :
  same_view w w' → read_stops w stored k → read_stops w' stored k.
Proof. unfold read_stops. intros (<- & <- & <- & <-). done. Qed.

(** How a read phase on a file of [stored] pattern chunks can end. *)
Definition read_report (w : World) (stored : nat) (r : Result) (w' : World) : Prop :=
  (r = FailHeap ∧ heap_ok (env w) (n_heap (calls w)) = false) ∨
  (r = FailFileOpenRead ∧ open_read_ok (env w) (n_open_read (calls w)) = false) ∨
  ∃ j, (∀ i, (i < j)%nat → read_served w i ∧ passes w i = true) ∧
    ((r = OK ∧ read_stops w stored j ∧ read_count (_stats w') = Z.of_nat j) ∨
     (r = FailCompare ∧ (j < stored)%nat ∧ read_served w j ∧ passes w j = false ∧
      read_count (_stats w') = Z.of_nat (S j) ∧
      read_test_duration (_stats w') = read_test_duration (_stats w))).

Lemma read_report_loop w0 w stored r w' r' w'' :
  same_view w0 w →
  read_test_duration (_stats w0) = read_test_duration (_stats w) →
  read_verdict w0 stored r w' →
  match r with
  | Some FailCompare => r' = FailCompare ∧ _stats w'' = _stats w'
  | Some _ => False
  | None => r' = OK ∧ read_count (_stats w'') = read_count (_stats w')
  end →
  read_report w stored r' w''.
Proof.
  intros Hview Hdur0 (j & Hpast & _ & _ & Hdur & Hend) Hr.
  right; right. exists j. split.
  { intros i Hi. destruct (Hpast i Hi) as [Hs Hp].
    split; [by eapply read_served_view | by rewrite <- (passes_view w0 w)]. }
  destruct Hend as [(-> & Hstop & Hcount) | (-> & Hlt & Hserved & Hfail & Hcount)].
  - left. destruct Hr as [-> Hc]. split_and!; [done | by eapply read_stops_view | congruence].
  - right. destruct Hr as [-> Hc]. rewrite Hc.
    split_and!; [done | done | by eapply read_served_view
                | by rewrite <- (passes_view w0 w) | done | congruence].
Qed.

Lemma read_verdict_cases w0 stored r w :
  read_verdict w0 stored r w → r = None ∨ r = Some FailCompare.
Proof. intros (j & _ & _ & _ & _ & [(-> & _)|(-> & _)]); auto. Qed.

Lemma read_history path stored w :
  fs w !! path = Some (pattern lfsr_iterate 1 stored) →
  read_count (_stats w) = 0 → read_bytes (_stats w) = 0 →
  ∃ r w', read lfsr_iterate path w = Some (r, w') ∧ read_report w stored r w'.
Proof.
  intros Hfs Hc Hb. open_world w. subst.
  unfold read; exec.
  match goal with |- context [if heap_ok ?e ?n then _ else _] =>
    destruct (heap_ok e n) eqn:Hheap end; step;
    [|returns; left; split; [reflexivity | exact Hheap]].
  rewrite Hfs.
  match goal with |- context [if open_read_ok ?e ?n && _ then _ else _] =>
    destruct (open_read_ok e n) eqn:Hopen end; step;
    [|returns; right; left; split; [reflexivity | exact Hopen]].
  match goal with |- context [loop _ _ ?st ?w1] =>
    destruct (read_loop_sees w1 path stored st w1) as (r & w' & -> & Hverdict);
      [exact Hfs | reflexivity | | pose (start := w1)]
  end.
  { unfold read_seen, read_track, same_write_side; cbn.
    split_and!; auto; try lia. numerals; lia. }
  destruct (read_verdict_cases _ _ _ _ Hverdict) as [-> | ->]; returns.
  all: eapply (read_report_loop start); [| | exact Hverdict |];
    [repeat split | reflexivity | cbn; split; reflexivity].
Qed.

End Storage.

(** ** Every run, seen from the caller *)

Section Accounts.

Variable lfsr_iterate : Z → Z.

Lemma passes_faithful w i :
  media (env w) (n_read (calls w) + i) (chunk_at lfsr_iterate i) = chunk_at lfsr_iterate i →
  passes lfsr_iterate w i = true.
Proof.
  unfold passes, delivered. intros ->. unfold chunk_at.
  by rewrite lfsr_compare_fill.
Qed.

Lemma passes_exact w i :
  length (delivered lfsr_iterate w i) = buffer_words →
  passes lfsr_iterate w i = true →
  delivered lfsr_iterate w i = chunk_at lfsr_iterate i.
Proof. unfold passes, chunk_at. apply lfsr_compare_exact. Qed.

Lemma no_unlink_in_write_trace tr path :
  extends write_event [] tr → EvUnlink path ∉ tr.
Proof.
  intros Hext Hin. destruct (extends_elem_of _ _ _ _ Hext Hin) as [[]|Hnil].
  by apply not_elem_of_nil in Hnil.
Qed.

Lemma no_unlink_in_phase_traces tr1 tr2 path :
  extends write_event [] tr1 → extends read_event tr1 tr2 → EvUnlink path ∉ tr2.
Proof.
  intros H1 H2 Hin.
  destruct (extends_elem_of _ _ _ _ H2 Hin) as [[]|Hin1].
  destruct (extends_elem_of _ _ _ _ H1 Hin1) as [[]|Hnil].
  by apply not_elem_of_nil in Hnil.
Qed.

(** The world in which [run] makes its check between the phases, when
    it gets that far. *)
Definition between_phases (e : Env) (disk : gmap string (list (list Z))) (w : World) : Prop :=
  env w = e ∧ fil w = None ∧
  write_side_ok (_stats w) ∧
  write_count (_stats w) = chunk_count ∧
  write_bytes (_stats w) = bytes_to_write ∧
  read_side_fresh (_stats w) ∧
  n_read (calls w) = 0%nat ∧
  fs w !! filename = Some (pattern lfsr_iterate 1 (Z.to_nat chunk_count)) ∧
  (∀ p, p ≠ filename → fs w !! p = disk !! p) ∧
  extends write_event [] (trace w).

(** What the write phase leaves, whatever it returns. *)
Lemma write_phase_account e disk :
  ∃ r w1, write lfsr_iterate filename (initial e disk) = Some (r, w1) ∧
    write_post (initial e disk) r w1 ∧
    (∀ p, p ≠ filename → fs w1 !! p = disk !! p) ∧
    (r ≠ OK → fs w1 = disk ∧ _stats w1 = Stats_init) ∧
    (r = OK →
     ∃ j : nat, write_count (_stats w1) = Z.of_nat j ∧
       fs w1 !! filename = Some (pattern lfsr_iterate 1 j)) ∧
    (r = OK → bytes_to_write ≤ write_bytes (_stats w1) → between_phases e disk w1).
Proof.
  destruct (initial_ready e disk) as (Hfil & Hws & Hrs).
  destruct (write_guarantee lfsr_iterate filename _ Hfil Hws)
    as (r & w1 & Hwrite & Hpost).
  destruct (write_stores lfsr_iterate filename (initial e disk))
    as (r' & w1' & Hwrite' & Hframe & Hnr & Hfile & Hfail); [done | done |].
  same_run Hwrite Hwrite'.
  exists r, w1. split_and!; auto.
  intros Hr Hfull.
  destruct Hpost as (He & Hfil1 & Hws1 & Hsame & Htr & _).
  destruct (Hfile Hr) as (j & Hcount & Hfs).
  pose proof Hws1 as (Hb & [? ?] & _).
  assert (write_count (_stats w1) = chunk_count) as Hc by (numerals; lia).
  assert (j = Z.to_nat chunk_count) as -> by lia.
  unfold between_phases. split_and!; auto.
  rewrite Hb, Hc. reflexivity.
Qed.

(** What the read phase leaves, whatever it returns, when it starts
    after a complete write phase. *)
Lemma read_phase_account e disk w1 :
  between_phases e disk w1 →
  ∃ r w2, read lfsr_iterate filename (checked w1) = Some (r, w2) ∧
    read_post (checked w1) r w2 ∧
    read_report lfsr_iterate (checked w1) (Z.to_nat chunk_count) r w2.
Proof.
  intros (He & Hfil1 & Hws1 & Hc & Hb & Hfresh & Hnr & Hfs & Hframe & Htr).
  assert (read_side_ok (_stats w1)) as Hrs1
    by (eapply read_side_ok_same; [apply Stats_init_read_side_ok | exact Hfresh]).
  destruct (read_guarantee lfsr_iterate filename (checked w1) Hfil1 Hrs1)
    as (r & w2 & Hread & Hpost).
  destruct Hfresh as (_ & _ & _ & Hrb0 & Hrc0). cbn in Hrb0, Hrc0.
  destruct (read_history lfsr_iterate filename (Z.to_nat chunk_count) (checked w1))
    as (r' & w2' & Hread' & Hreport); [exact Hfs | exact Hrc0 | exact Hrb0 |].
  same_run Hread Hread'.
  by exists r, w2.
Qed.

(** The result codes a finished thread can show. *)
Definition terminal (r : Result) : Prop :=
  r = OK ∨ r = FailHeap ∨ r = FailFileOpenWrite ∨ r = FailFileOpenRead ∨
  r = FailAbort ∨ r = FailWriteIncomplete ∨ r = FailReadIncomplete ∨ r = FailCompare.

(** The first read that did not deliver its chunk as written. *)
Definition first_corrupt_read (e : Env) (n : nat) : Prop :=
  (n < Z.to_nat chunk_count)%nat ∧
  media e n (chunk_at lfsr_iterate n) ≠ chunk_at lfsr_iterate n ∧
  ∀ i, (i < n)%nat →
    fst (lfsr_compare lfsr_iterate (register_after lfsr_iterate 1 i)
           (media e i (chunk_at lfsr_iterate i)) buffer_words) = true.

Ltac pick := first [reflexivity | left; reflexivity | right; pick].

Lemma run_account e disk :
  ∃ r w', run lfsr_iterate (initial e disk) = Some (r, w') ∧
    terminal r ∧
    (∀ p, p ≠ filename → fs w' !! p = disk !! p) ∧
    (r = OK →
     write_count (_stats w') = chunk_count ∧ write_bytes (_stats w') = bytes_to_write ∧
     read_count (_stats w') = chunk_count ∧ read_bytes (_stats w') = bytes_to_read) ∧
    (r = FailWriteIncomplete →
     write_count (_stats w') < chunk_count ∧ read_side_fresh (_stats w')) ∧
    (r = FailAbort → write_count (_stats w') = chunk_count) ∧
    (r = FailReadIncomplete →
     write_count (_stats w') = chunk_count ∧ read_count (_stats w') < chunk_count) ∧
    (r = FailCompare →
     write_count (_stats w') = chunk_count ∧
     ∃ n, first_corrupt_read e n ∧ read_count (_stats w') = Z.of_nat (S n)) ∧
    (EvUnlink filename ∈ trace w' → r = OK ∨ r = FailReadIncomplete ∨ r = FailAbort) ∧
    (r = FailWriteIncomplete ∨ r = FailFileOpenRead ∨ r = FailCompare →
     ∃ j : nat, write_count (_stats w') = Z.of_nat j ∧
       fs w' !! filename = Some (pattern lfsr_iterate 1 j)).
Proof.
  destruct (initial_ready e disk) as (Hfil & Hws & Hrs).
  destruct (run_outcome_exists lfsr_iterate _ Hfil Hws Hrs) as (r & w' & Hout).
  exists r, w'. split; [by apply run_outcome_sound|].
  destruct (write_phase_account e disk)
    as (r1 & w1 & Hwrite & Hpost1 & Hframe1 & Hfail1 & Hfile1 & Hfull1).
  destruct Hpost1 as (He1 & Hfil1 & Hws1 & Hsame1 & Htr1 & Hres1).
  cbn in Htr1.
  pose proof (no_unlink_in_write_trace _ filename Htr1) as Hkept1.
  unfold terminal.
  destruct Hout as
    [r w1' Hw' Hne | w1' Hw' Hb | w1' Hw' Hb Hc | w1' r w2' Hw' Hb Hc Hrd Hne
    | w1' w2' Hw' Hb Hc Hrd Hrb | w1' w2' Hw' Hb Hc Hrd Hrb Hc2
    | w1' w2' Hw' Hb Hc Hrd Hrb Hc2];
    same_run Hwrite Hw'.
  - (* the write phase failed *)
    destruct Hres1 as [->|[->| ->]]; [done|..]; (split; [pick|]);
      split_and!; auto; try done; try (intros [?|[?|?]]; done).
  - (* too few bytes written *)
    split; [pick|].
    split_and!; auto; try done.
    intros _. destruct Hws1 as (Hbytes & ? & _). split; [numerals; lia | done].
  - (* cancelled between the phases *)
    split; [pick|].
    destruct (Hfull1 eq_refl Hb) as (_ & _ & _ & Hcount & _).
    split_and!; auto; try done; try (intros [?|[?|?]]; done).
  - (* the read phase failed *)
    pose proof (Hfull1 eq_refl Hb) as Hbetween.
    destruct (read_phase_account e disk w1 Hbetween)
      as (r2 & w2 & Hread & Hpost2 & Hreport).
    same_run Hread Hrd.
    destruct Hbetween as (_ & _ & _ & Hcount & _ & _ & Hnr & Hfs1 & _).
    destruct Hpost2 as (_ & Hfs2 & _ & _ & Hsame2 & Htr2 & Hres2).
    destruct Hsame2 as (_ & _ & _ & _ & Hwc2). cbn in Hfs2, Hwc2, Htr2.
    assert (∀ p, p ≠ filename → fs w2 !! p = disk !! p) as Hframe2
      by (intros p Hp; rewrite Hfs2; by apply Hframe1).
    pose proof (no_unlink_in_phase_traces _ _ filename Htr1 Htr2) as Hkept2.
    assert (∃ j : nat, write_count (_stats w2) = Z.of_nat j ∧
              fs w2 !! filename = Some (pattern lfsr_iterate 1 j)) as Hfile2.
    { exists (Z.to_nat chunk_count). rewrite Hfs2, Hwc2, Hcount. by split. }
    destruct Hres2 as [->|[->|[->| ->]]]; [done|..]; (split; [pick|]);
      split_and!; auto; try done.
    intros _. split; [congruence|].
    destruct Hreport as
      [[Hx _]|[[Hx _]|(j & Hpast & [(Hx & _)|(_ & Hj & _ & Hbad & Hrc & _)])]];
      try discriminate Hx.
    exists j. split; [|exact Hrc].
    assert (∀ i, delivered lfsr_iterate (checked w1) i
                 = media e i (chunk_at lfsr_iterate i)) as Hdel
      by (intros i; unfold delivered; cbn; by rewrite He1, Hnr).
    unfold first_corrupt_read. split_and!; [exact Hj | |].
    + intros Heq. unfold passes in Hbad. rewrite Hdel, Heq in Hbad.
      unfold chunk_at in Hbad. rewrite lfsr_compare_fill in Hbad.
      discriminate Hbad.
    + intros i Hi. destruct (Hpast i Hi) as [_ Hp].
      unfold passes in Hp. by rewrite Hdel in Hp.
  - (* too few bytes read *)
    split; [pick|].
    pose proof (Hfull1 eq_refl Hb) as Hbetween.
    destruct (read_phase_account e disk w1 Hbetween)
      as (r2 & w2 & Hread & Hpost2 & _).
    same_run Hread Hrd.
    destruct Hbetween as (_ & _ & _ & Hcount & _).
    destruct Hpost2 as (_ & Hfs2 & _ & Hrs2 & Hsame2 & _).
    destruct Hsame2 as (_ & _ & _ & _ & Hwc2). cbn in Hfs2, Hwc2.
    split_and!; auto; try done.
    + intros p Hp. cbn. rewrite lookup_delete_ne by done. rewrite Hfs2. by apply Hframe1.
    + intros _. cbn. destruct Hrs2 as (Hbytes & ? & _).
      split; [congruence | numerals; lia].
    + intros [?|[?|?]]; done.
  - (* cancelled after the read phase *)
    split; [pick|].
    pose proof (Hfull1 eq_refl Hb) as Hbetween.
    destruct (read_phase_account e disk w1 Hbetween)
      as (r2 & w2 & Hread & Hpost2 & _).
    same_run Hread Hrd.
    destruct Hbetween as (_ & _ & _ & Hcount & _).
    destruct Hpost2 as (_ & Hfs2 & _ & Hrs2 & Hsame2 & _).
    destruct Hsame2 as (_ & _ & _ & _ & Hwc2). cbn in Hfs2, Hwc2.
    split_and!; auto; try done.
    + intros p Hp. cbn. rewrite lookup_delete_ne by done. rewrite Hfs2. by apply Hframe1.
    + intros _. cbn. congruence.
    + intros [?|[?|?]]; done.
  - (* success *)
    split; [pick|].
    pose proof (Hfull1 eq_refl Hb) as Hbetween.
    destruct (read_phase_account e disk w1 Hbetween)
      as (r2 & w2 & Hread & Hpost2 & _).
    same_run Hread Hrd.
    destruct Hbetween as (_ & _ & _ & Hcount & Hbytes & _).
    destruct Hpost2 as (_ & Hfs2 & _ & Hrs2 & Hsame2 & _).
    destruct Hsame2 as (_ & _ & _ & Hwb2 & Hwc2). cbn in Hfs2, Hwc2, Hwb2.
    split_and!; auto; try done.
    + intros p Hp. cbn. rewrite lookup_delete_ne by done. rewrite Hfs2. by apply Hframe1.
    + intros _. cbn. destruct Hrs2 as (Hrbytes & ? & _).
      assert (read_count (_stats w2) = chunk_count) as Hrc by (numerals; lia).
      split_and!; [congruence | congruence | exact Hrc |].
      rewrite Hrbytes, Hrc. reflexivity.
    + intros [?|[?|?]]; done.
Qed.

End Accounts.

(** ** Further scripted runs *)

(** The last [chThdShouldTerminate()] of a complete run: the write loop
    makes one check per chunk and one at its end, [run] one between the
    phases, the read loop as many as the write loop. *)
Definition final_check : nat := 2 * Z.to_nat chunk_count + 3.

(** [e] with one bit of the first word flipped in what the [k]-th read
    delivers. *)
Definition flip_bit_at (k : nat) (e : Env) : Env :=
  mkEnv (heap_ok e) (open_write_ok e) (open_read_ok e) (terminate_requested e)
        (ready e) (write_ok e) (read_ok e)
        (λ n chunk, if decide (n = k)
                    then Z.lxor (hd 0 chunk) 1 :: tail chunk
                    else media e n chunk)
        (counter e).

(** [e] with cancellation requested at the [k]-th check and at no
    other. *)
Definition cancel_at_check (k : nat) (e : Env) : Env :=
  mkEnv (heap_ok e) (open_write_ok e) (open_read_ok e)
        (λ n, bool_decide (n = k))
        (ready e) (write_ok e) (read_ok e) (media e) (counter e).

(** [e] with a heap that serves nothing. *)
Definition heap_exhausted (e : Env) : Env :=
  mkEnv (λ _, false) (open_write_ok e) (open_read_ok e) (terminate_requested e)
        (ready e) (write_ok e) (read_ok e) (media e) (counter e).

Section FurtherRuns.

Variable lfsr_iterate : Z → Z.

(** A complete write phase, with what the general account adds to
    [written]. *)
Lemma write_phase_through e disk :
  write_goes_through e →
  ∃ w1, write lfsr_iterate filename (initial e disk) = Some (OK, w1) ∧
    written lfsr_iterate e w1 ∧ between_phases lfsr_iterate e disk w1.
Proof.
  intros Hthrough.
  destruct (write_phase_complete lfsr_iterate e disk Hthrough) as (w1 & Hwrite & Hw1).
  destruct (write_phase_account lfsr_iterate e disk)
    as (r & w1' & Hwrite' & _ & _ & _ & Hfull).
  same_run Hwrite Hwrite'.
  exists w1. split_and!; [done | done |].
  apply Hfull; [done|].
  destruct Hw1 as (_ & _ & _ & _ & _ & _ & _ & -> & _). lia.
Qed.

(** Cancellation is seen by the check between the phases. *)
Lemma run_cancelled_between_phases e disk :
  write_goes_through e →
  terminate_requested e (S (Z.to_nat chunk_count)) = true →
  ∃ w', run lfsr_iterate (initial e disk) = Some (FailAbort, w') ∧
    write_count (_stats w') = chunk_count ∧
    write_bytes (_stats w') = bytes_to_write ∧
    read_side_fresh (_stats w') ∧
    (EvEnter ReadPhase ∉ trace w') ∧
    (EvUnlink filename ∉ trace w') ∧
    fs w' !! filename = Some (pattern lfsr_iterate 1 (Z.to_nat chunk_count)) ∧
    fil w' = None.
Proof.
  intros Hthrough Hcancel.
  destruct (write_phase_through e disk Hthrough) as (w1 & Hwrite & Hw1 & Hbetween).
  destruct Hw1 as (He & Hfil & _ & _ & _ & Hnt & Hwc & Hwb & Hfresh & Hfs).
  destruct Hbetween as (_ & _ & _ & _ & _ & _ & _ & _ & _ & Htr).
  exists (checked w1). split_and!; cbn; auto.
  - apply run_outcome_sound. apply run_abort_before_read; [done | lia |].
    unfold cancelled. by rewrite He, Hnt.
  - by apply no_read_phase_in_write_trace.
  - by apply no_unlink_in_write_trace.
Qed.

(** Cancellation is seen by the last check only, after both phases
    have gone through. *)
Lemma run_cancelled_at_the_end e disk :
  fault_free e →
  (∀ n, (n < final_check)%nat → terminate_requested e n = false) →
  terminate_requested e final_check = true →
  ∃ w', run lfsr_iterate (initial e disk) = Some (FailAbort, w') ∧
    write_count (_stats w') = chunk_count ∧
    read_count (_stats w') = chunk_count ∧
    read_bytes (_stats w') = bytes_to_read ∧
    fs w' !! filename = None ∧
    EvUnlink filename ∈ trace w'.
Proof.
  intros Hff Hquiet Hcancel.
  pose proof chunk_count_nat as Hn. unfold final_check in *.
  assert (write_goes_through e) as Hthrough.
  { split_and!; try apply Hff. intros i Hi.
    split_and!; [apply Hquiet; lia | apply Hff | apply Hff]. }
  destruct (write_phase_complete lfsr_iterate e disk Hthrough)
    as (w1 & Hw1 & He & Hfil1 & Hnh & Hno & Hnr & Hnt & Hwc & Hwb & Hfresh & Hfs).
  destruct Hfresh as (_ & _ & _ & Hrb0 & Hrc0). cbn in Hrb0, Hrc0.
  destruct (read_script lfsr_iterate filename (Z.to_nat chunk_count)
              (Z.to_nat chunk_count) (checked w1))
    as (w2 & Hread & He2 & Hfs2 & Hnt2 & Hrc & Hrb & Hsame).
  { cbn. rewrite He, Hnh. apply Hff. }
  { cbn. rewrite He, Hno. apply Hff. }
  { exact Hfs. }
  { lia. }
  { exact Hrc0. }
  { exact Hrb0. }
  { intros i Hi. unfold read_turn_ok. cbn. rewrite He, Hnr, Hnt.
    split_and!; [apply Hquiet; lia | apply Hff | apply Hff | apply Hff]. }
  { left. rewrite Hn. reflexivity. }
  { rewrite Hn. reflexivity. }
  destruct Hsame as (_ & _ & _ & _ & Hwc2). cbn in Hwc2, Hnt2, He2.
  rewrite Hn in Hrc, Hrb.
  exists (checked (unlinked w2)). split_and!; cbn; auto; try congruence.
  - apply run_outcome_sound. eapply run_abort_after_read; eauto.
    + lia.
    + unfold cancelled. rewrite He, Hnt. apply Hquiet. lia.
    + rewrite Hrb. reflexivity.
    + unfold cancelled. cbn. rewrite He2, Hnt2, He, Hnt.
      replace (S (S (S (Z.to_nat chunk_count)) + Z.to_nat chunk_count))
        with (2 * Z.to_nat chunk_count + 3)%nat by lia.
      exact Hcancel.
  - apply lookup_delete_eq.
  - apply list_elem_of_here.
Qed.

(** The write phase goes through and cancellation is seen by the read
    loop after [k] chunks. *)
Lemma run_cancelled_in_read e disk k :
  write_goes_through e → (∀ n, ready e n = true) →
  heap_ok e 1 = true → open_read_ok e 0 = true →
  (∀ n, (n < S (S (Z.to_nat chunk_count)) + k)%nat → terminate_requested e n = false) →
  terminate_requested e (S (S (Z.to_nat chunk_count)) + k) = true →
  (∀ i, (i < k)%nat → read_ok e i = true ∧ ∀ chunk, media e i chunk = chunk) →
  (k < Z.to_nat chunk_count)%nat →
  ∃ w', run lfsr_iterate (initial e disk) = Some (FailReadIncomplete, w') ∧
    write_count (_stats w') = chunk_count ∧
    read_count (_stats w') = Z.of_nat k ∧
    read_bytes (_stats w') = Z.of_nat k * write_size ∧
    fs w' !! filename = None ∧
    EvUnlink filename ∈ trace w'.
Proof.
  intros Hthrough Hready Hheap Hopen Hquiet Hcancel Hreads Hk.
  pose proof chunk_count_nat as Hn.
  destruct (write_phase_complete lfsr_iterate e disk Hthrough)
    as (w1 & Hw1 & He & Hfil1 & Hnh & Hno & Hnr & Hnt & Hwc & Hwb & Hfresh & Hfs).
  destruct Hfresh as (_ & _ & _ & Hrb0 & Hrc0). cbn in Hrb0, Hrc0.
  destruct (read_script lfsr_iterate filename (Z.to_nat chunk_count) k (checked w1))
    as (w2 & Hread & He2 & Hfs2 & Hnt2 & Hrc & Hrb & Hsame).
  { cbn. by rewrite He, Hnh. }
  { cbn. by rewrite He, Hno. }
  { exact Hfs. }
  { lia. }
  { exact Hrc0. }
  { exact Hrb0. }
  { intros i Hi. unfold read_turn_ok. cbn. rewrite He, Hnr, Hnt.
    destruct (Hreads i Hi) as [? ?].
    split_and!; [apply Hquiet; lia | apply Hready | assumption | assumption]. }
  { right; left. cbn. rewrite He, Hnt. exact Hcancel. }
  { lia. }
  destruct Hsame as (_ & _ & _ & _ & Hwc2). cbn in Hwc2.
  exists (unlinked w2). split_and!; cbn; auto; try congruence.
  - apply run_outcome_sound. eapply run_read_incomplete; eauto.
    + lia.
    + unfold cancelled. rewrite He, Hnt. apply Hquiet. lia.
    + rewrite Hrb. numerals. lia.
  - apply lookup_delete_eq.
  - apply list_elem_of_here.
Qed.

(** The [k]-th read delivers a buffer of the right size that is not
    the chunk written, after [k] good ones: the run ends there. *)
Lemma run_detects_corruption e disk k :
  write_goes_through e → never_cancelled e → (∀ n, ready e n = true) →
  heap_ok e 1 = true → open_read_ok e 0 = true →
  (∀ i, (i < k)%nat →
     read_ok e i = true ∧
     media e i (chunk_at lfsr_iterate i) = chunk_at lfsr_iterate i) →
  read_ok e k = true → (k < Z.to_nat chunk_count)%nat →
  length (media e k (chunk_at lfsr_iterate k)) = buffer_words →
  media e k (chunk_at lfsr_iterate k) ≠ chunk_at lfsr_iterate k →
  ∃ w', run lfsr_iterate (initial e disk) = Some (FailCompare, w') ∧
    read_count (_stats w') = Z.of_nat (S k) ∧
    read_test_duration (_stats w') = 0 ∧
    fs w' !! filename = Some (pattern lfsr_iterate 1 (Z.to_nat chunk_count)) ∧
    (EvUnlink filename ∉ trace w') ∧
    fil w' = None.
Proof.
  intros Hthrough Hnever Hready Hheap Hopen Hgood Hserved Hk Hlen Hbad.
  destruct (write_phase_through e disk Hthrough) as (w1 & Hwrite & Hw1 & Hbetween).
  destruct (read_phase_account lfsr_iterate e disk w1 Hbetween)
    as (r & w2 & Hread & Hpost & Hreport).
  destruct Hw1 as (He & Hfil & Hnh & Hno & Hnr & Hnt & Hwc & Hwb & Hfresh & Hfs).
  destruct Hbetween as (_ & _ & _ & _ & _ & _ & _ & _ & _ & Htr).
  destruct Hpost as (_ & Hfs2 & Hfil2 & _ & _ & Htr2 & _).
  cbn in Hfs2, Htr2.
  assert (∀ i, delivered lfsr_iterate (checked w1) i = media e i (chunk_at lfsr_iterate i))
    as Hdel by (intros i; unfold delivered; cbn; by rewrite He, Hnr).
  assert (∀ i, (i < k)%nat → passes lfsr_iterate (checked w1) i = true) as Hpass.
  { intros i Hi. apply passes_faithful. cbn. rewrite He, Hnr. by apply Hgood. }
  assert (passes lfsr_iterate (checked w1) k = false) as Hfail.
  { destruct (passes lfsr_iterate (checked w1) k) eqn:Hp; [|done]. exfalso.
    apply passes_exact in Hp; [rewrite Hdel in Hp; exact (Hbad Hp) | rewrite Hdel; exact Hlen]. }
  assert (r = FailCompare ∧ read_count (_stats w2) = Z.of_nat (S k) ∧
          read_test_duration (_stats w2) = 0) as (-> & Hcount & Hdur).
  { destruct Hreport as [[_ Hh]|[[_ Ho]|(j & Hpast & Hend)]].
    - cbn in Hh. rewrite He, Hnh in Hh. congruence.
    - cbn in Ho. rewrite He, Hno in Ho. congruence.
    - assert (¬ (k < j)%nat) as Hle.
      { intros Hlt. destruct (Hpast k Hlt) as [_ Hp]. congruence. }
      destruct Hend as [(_ & Hstop & _) | (-> & _ & _ & Hp & Hc & Hd)].
      + exfalso. unfold read_stops in Hstop. cbn in Hstop.
        rewrite He, Hnr in Hstop. cbn in Hstop.
        destruct Hstop as [?|[Ht|[Hr|[Hx|?]]]]; [numerals; lia | | | | lia].
        * rewrite Hnever in Ht. discriminate Ht.
        * rewrite Hready in Hr. discriminate Hr.
        * destruct (decide (j = k)) as [->|]; [congruence|].
          destruct (Hgood j) as [Hx' _]; [lia | congruence].
      + assert (j = k) as ->.
        { destruct (decide (j = k)) as [|]; [assumption|]. rewrite Hpass in Hp by lia.
          discriminate Hp. }
        split_and!; [done | done |]. rewrite Hd. cbn. apply Hfresh. }
  exists w2. split_and!; auto.
  - apply run_outcome_sound.
    eapply run_read_failed; [exact Hwrite | lia | | exact Hread | done].
    unfold cancelled. by rewrite He.
  - by rewrite Hfs2.
  - eapply no_unlink_in_phase_traces; [exact Htr | exact Htr2].
Qed.

(** The first allocation or the open for writing is refused. *)
Lemma run_refused_at_start e disk :
  heap_ok e 0 && open_write_ok e 0 = false →
  ∃ w', run lfsr_iterate (initial e disk)
        = Some (if heap_ok e 0 then FailFileOpenWrite else FailHeap, w') ∧
    _stats w' = Stats_init ∧ fil w' = None ∧
    trace w' = (if heap_ok e 0 then [EvOpen WritePhase false; EvEnter WritePhase]
                else [EvEnter WritePhase]) ∧
    (heap_ok e 0 = false → fs w' = disk).
Proof.
  intros Hrefused. unfold run, write, initial; exec.
  destruct (heap_ok e 0) eqn:Hheap; cbn in Hrefused; step.
  - rewrite Hrefused; step. eexists. split_and!; try reflexivity; try done.
  - eexists. split_and!; reflexivity.
Qed.

End FurtherRuns.

(** ** Chunk times against the phase duration *)

Section Pacing.

Variable lfsr_iterate : Z → Z.

(** Where the timed write loop stands: the extremes are those of
    chunks timed since the reading [start]. *)
Definition write_paced (e : Env) (start : nat) (w : World) : Prop :=
  env w = e ∧
  Z.of_nat (n_counter (calls w)) ≤ Z.of_nat start + 1 + 2 * write_count (_stats w) ∧
  0 ≤ write_count (_stats w) ≤ chunk_count ∧
  write_bytes (_stats w) = write_count (_stats w) * write_size ∧
  (write_count (_stats w) = 0 →
   write_duration_min (_stats w) = 0 ∧ write_duration_max (_stats w) = 0) ∧
  (0 < write_count (_stats w) →
   0 < write_duration_min (_stats w) ≤ write_duration_max (_stats w)) ∧
  ∃ last, (start ≤ last < n_counter (calls w))%nat ∧
    write_duration_max (_stats w) ≤ counter e last - counter e start.

Definition write_paced_left (e : Env) (start : nat) (w : World) : Prop :=
  env w = e ∧
  Z.of_nat (n_counter (calls w)) ≤ Z.of_nat start + 2 * chunk_count + 1 ∧
  (0 < write_count (_stats w) →
   0 < write_duration_min (_stats w) ≤ write_duration_max (_stats w)) ∧
  ∃ last, (start ≤ last < n_counter (calls w))%nat ∧
    write_duration_max (_stats w) ≤ counter e last - counter e start.

Lemma write_chunk_paced e start st w :
  steady_counter e → Z.of_nat start + phase_readings ≤ counter_horizon →
  write_paced e start w →
  ∃ f w', write_chunk lfsr_iterate st w = Some (f, w') ∧
    match f with
    | Next _ =>
        write_paced e start w' ∧
        (chunks_left (write_count (_stats w')) < chunks_left (write_count (_stats w)))%nat
    | Leave _ => write_paced_left e start w'
    end.
Proof.
  intros Hsteady Hroom. destruct st as [v buffer]. open_world w.
  unfold write_paced, write_paced_left, chunks_left.
  assert (Z.of_nat start + 2050 ≤ 4100) as Hroom'
    by (unfold counter_horizon, phase_readings in Hroom; numerals; lia).
  clear Hroom.
  cbn. intros (-> & Hn & [? ?] & -> & Hzero & Hpos & (last & Hlast & Hmax)).
  unfold write_chunk; exec. repeat branch; returns; reflect_cmp; numerals.
  (* the turns that leave: at most one more reading, no more chunk *)
  all: try (split_and!; [done | lia | done | exists last; split; [lia | done]]; fail).
  (* the turn that wrote a chunk *)
  assert (Z.of_nat (S n_counter0) < counter_horizon) as Hin
    by (unfold counter_horizon, phase_readings; numerals; lia).
  assert (Z.of_nat n_counter0 < counter_horizon) as Hin'
    by (unfold counter_horizon, phase_readings; numerals; lia).
  destruct (steady_sub32 e n_counter0 (S n_counter0) Hsteady ltac:(lia) Hin)
    as [-> ?].
  unfold add32. rewrite !wrap32_small by lia.
  assert (counter e last ≤ counter e n_counter0).
  { destruct (decide (last = n_counter0)) as [->|]; [lia|].
    destruct (Hsteady last n_counter0 ltac:(lia) Hin'). lia. }
  assert (counter e start < counter e n_counter0)
    by (destruct (Hsteady start n_counter0 ltac:(lia) Hin'); lia).
  set (d := counter e (S n_counter0) - counter e n_counter0) in *.
  rewrite update_max_max.
  assert (0 < update_min write_duration_min0 d ≤ Z.max write_duration_max0 d).
  { destruct (decide (write_count0 = 0)) as [->|].
    - destruct Hzero as [-> ->]; [done|]. rewrite update_min_first. lia.
    - rewrite update_min_later by lia. lia. }
  split; [|lia]. split_and!; try reflexivity; try lia.
  exists (S n_counter0). split; lia.
Qed.

Lemma write_loop_paced e start st w :
  steady_counter e → Z.of_nat start + phase_readings ≤ counter_horizon →
  write_paced e start w →
  ∃ r w', loop loop_fuel (write_chunk lfsr_iterate) st w = Some (r, w') ∧
    write_paced_left e start w'.
Proof.
  intros Hsteady Hroom Hw.
  apply (loop_rule (write_chunk lfsr_iterate) (λ _, write_paced e start)
           (λ _, write_paced_left e start)
           (λ _ w, chunks_left (write_count (_stats w)))).
  - intros s w1 H1.
    destruct (write_chunk_paced e start s w1 Hsteady Hroom H1) as (f & w' & ? & ?).
    exists f, w'. split; [done|]. by destruct f.
  - done.
  - destruct Hw as (_ & _ & ? & _). unfold chunks_left, loop_fuel. lia.
Qed.

Lemma write_pacing path w :
  steady_counter (env w) →
  Z.of_nat (n_counter (calls w)) + phase_readings ≤ counter_horizon →
  write_count (_stats w) = 0 → write_bytes (_stats w) = 0 →
  write_duration_min (_stats w) = 0 → write_duration_max (_stats w) = 0 →
  ∃ r w', write lfsr_iterate path w = Some (r, w') ∧
    (0 < write_count (_stats w') →
     0 < write_duration_min (_stats w') ≤ write_duration_max (_stats w') ∧
     write_duration_max (_stats w') ≤ write_test_duration (_stats w')).
Proof.
  intros Hsteady Hroom Hc Hb Hm Hx.
  open_world w. subst. unfold write; exec.
  branch; [branch|].
  2,3: returns; lia.
  match goal with |- context [loop _ _ ?st ?w1] =>
    destruct (write_loop_paced e n_counter0 st w1 Hsteady Hroom)
      as (r & w' & -> & Hleft) end.
  { unfold write_paced; cbn. split_and!; try done; try (numerals; lia).
    exists n_counter0. split; lia. }
  destruct Hleft as (? & Hn & Hpos & (last & Hlast & Hmax)).
  open_world w'. subst. returns.
  assert (Z.of_nat n_counter1 < counter_horizon) as Hin
    by (unfold counter_horizon, phase_readings in *; numerals; lia).
  destruct (steady_sub32 e n_counter0 n_counter1 Hsteady ltac:(lia) Hin) as [-> ?].
  intros Hcount. split; [by apply Hpos|].
  assert (counter e last ≤ counter e n_counter1)
    by (destruct (Hsteady last n_counter1 ltac:(lia) Hin); lia).
  lia.
Qed.

Definition read_paced (e : Env) (start : nat) (w : World) : Prop :=
  env w = e ∧
  Z.of_nat (n_counter (calls w)) ≤ Z.of_nat start + 1 + 2 * read_count (_stats w) ∧
  0 ≤ read_count (_stats w) ≤ chunk_count ∧
  read_bytes (_stats w) = read_count (_stats w) * write_size ∧
  (read_count (_stats w) = 0 →
   read_duration_min (_stats w) = 0 ∧ read_duration_max (_stats w) = 0) ∧
  (0 < read_count (_stats w) →
   0 < read_duration_min (_stats w) ≤ read_duration_max (_stats w)) ∧
  ∃ last, (start ≤ last < n_counter (calls w))%nat ∧
    read_duration_max (_stats w) ≤ counter e last - counter e start.

Definition read_paced_left (e : Env) (start : nat) (w : World) : Prop :=
  env w = e ∧
  Z.of_nat (n_counter (calls w)) ≤ Z.of_nat start + 2 * chunk_count + 1 ∧
  (0 < read_count (_stats w) →
   0 < read_duration_min (_stats w) ≤ read_duration_max (_stats w)) ∧
  ∃ last, (start ≤ last < n_counter (calls w))%nat ∧
    read_duration_max (_stats w) ≤ counter e last - counter e start.

Lemma read_chunk_paced e start st w :
  steady_counter e → Z.of_nat start + phase_readings ≤ counter_horizon →
  read_paced e start w →
  ∃ f w', read_chunk lfsr_iterate st w = Some (f, w') ∧
    match f with
    | Next _ =>
        read_paced e start w' ∧
        (chunks_left (read_count (_stats w')) < chunks_left (read_count (_stats w)))%nat
    | Leave r => (r = None ∨ r = Some FailCompare) ∧ read_paced_left e start w'
    end.
Proof.
  intros Hsteady Hroom. destruct st as [v buffer]. open_world w.
  unfold read_paced, read_paced_left, chunks_left.
  assert (Z.of_nat start + 2050 ≤ 4100) as Hroom'
    by (unfold counter_horizon, phase_readings in Hroom; numerals; lia).
  clear Hroom.
  cbn. intros (-> & Hn & [? ?] & -> & Hzero & Hpos & (last & Hlast & Hmax)).
  unfold read_chunk; exec. repeat branch; returns; reflect_cmp; numerals.
  (* the turns that leave without a chunk *)
  all: try (split_and!; [by left | done | lia | done
                        | exists last; split; [lia | done]]; fail).
  (* the turns that read a chunk, matching or not *)
  all: assert (Z.of_nat (S n_counter0) < counter_horizon) as Hin
         by (unfold counter_horizon, phase_readings; numerals; lia).
  all: assert (Z.of_nat n_counter0 < counter_horizon) as Hin'
         by (unfold counter_horizon, phase_readings; numerals; lia).
  all: destruct (steady_sub32 e n_counter0 (S n_counter0) Hsteady ltac:(lia) Hin)
         as [-> ?].
  all: unfold add32; rewrite !wrap32_small by lia.
  all: assert (counter e last ≤ counter e n_counter0)
         by (destruct (decide (last = n_counter0)) as [->|]; [lia|];
             destruct (Hsteady last n_counter0 ltac:(lia) Hin'); lia).
  all: assert (counter e start < counter e n_counter0)
         by (destruct (Hsteady start n_counter0 ltac:(lia) Hin'); lia).
  all: set (d := counter e (S n_counter0) - counter e n_counter0) in *.
  all: rewrite update_max_max.
  all: assert (0 < update_min read_duration_min0 d ≤ Z.max read_duration_max0 d)
         by (destruct (decide (read_count0 = 0)) as [->|];
             [ destruct Hzero as [-> ->]; [done|]; rewrite update_min_first; lia
             | rewrite update_min_later by lia; lia ]).
  - split; [|lia]. split_and!; try reflexivity; try lia.
    exists (S n_counter0). split; lia.
  - split_and!; try reflexivity; try lia; [right; reflexivity|].
    exists (S n_counter0). split; lia.
Qed.

Lemma read_loop_paced e start st w :
  steady_counter e → Z.of_nat start + phase_readings ≤ counter_horizon →
  read_paced e start w →
  ∃ r w', loop loop_fuel (read_chunk lfsr_iterate) st w = Some (r, w') ∧
    (r = None ∨ r = Some FailCompare) ∧ read_paced_left e start w'.
Proof.
  intros Hsteady Hroom Hw.
  apply (loop_rule (read_chunk lfsr_iterate) (λ _, read_paced e start)
           (λ r w', (r = None ∨ r = Some FailCompare) ∧ read_paced_left e start w')
           (λ _ w, chunks_left (read_count (_stats w)))).
  - intros s w1 H1.
    destruct (read_chunk_paced e start s w1 Hsteady Hroom H1) as (f & w' & ? & ?).
    exists f, w'. split; [done|]. by destruct f.
  - done.
  - destruct Hw as (_ & _ & ? & _). unfold chunks_left, loop_fuel. lia.
Qed.

Lemma read_pacing path w :
  steady_counter (env w) →
  Z.of_nat (n_counter (calls w)) + phase_readings ≤ counter_horizon →
  read_count (_stats w) = 0 → read_bytes (_stats w) = 0 →
  read_duration_min (_stats w) = 0 → read_duration_max (_stats w) = 0 →
  ∃ r w', read lfsr_iterate path w = Some (r, w') ∧
    (0 < read_count (_stats w') →
     0 < read_duration_min (_stats w') ≤ read_duration_max (_stats w') ∧
     (r ≠ FailCompare →
      read_duration_max (_stats w') ≤ read_test_duration (_stats w'))).
Proof.
  intros Hsteady Hroom Hc Hb Hm Hx.
  open_world w. subst. unfold read; exec.
  branch; [branch|].
  2-4: returns; lia.
  match goal with |- context [loop _ _ ?st ?w1] =>
    destruct (read_loop_paced e n_counter0 st w1 Hsteady Hroom)
      as (r & w' & -> & Hr & Hleft) end.
  { unfold read_paced; cbn. split_and!; try done; try (numerals; lia).
    exists n_counter0. split; lia. }
  destruct Hleft as (? & Hn & Hpos & (last & Hlast & Hmax)).
  open_world w'. subst. destruct Hr as [-> | ->]; returns;
    [|intros Hcount; split; [by apply Hpos | done]].
  assert (Z.of_nat n_counter1 < counter_horizon) as Hin
    by (unfold counter_horizon, phase_readings in *; numerals; lia).
  destruct (steady_sub32 e n_counter0 n_counter1 Hsteady ltac:(lia) Hin) as [-> ?].
  intros Hcount. split; [by apply Hpos|]. intros _.
  assert (counter e last ≤ counter e n_counter1)
    by (destruct (Hsteady last n_counter1 ltac:(lia) Hin); lia).
  lia.
Qed.

Lemma run_pacing e disk :
  steady_counter e →
  ∃ r w', run lfsr_iterate (initial e disk) = Some (r, w') ∧
    (0 < write_count (_stats w') →
     0 < write_duration_min (_stats w') ≤ write_duration_max (_stats w') ∧
     write_duration_max (_stats w') ≤ write_test_duration (_stats w')) ∧
    (0 < read_count (_stats w') →
     0 < read_duration_min (_stats w') ≤ read_duration_max (_stats w') ∧
     (r ≠ FailCompare →
      read_duration_max (_stats w') ≤ read_test_duration (_stats w'))).
Proof.
  intros Hsteady.
  destruct (initial_ready e disk) as (Hfil & Hws & Hrs).
  destruct (run_outcome_exists lfsr_iterate _ Hfil Hws Hrs) as (r & w' & Hout).
  exists r, w'. split; [by apply run_outcome_sound|].
  destruct (write_pacing filename (initial e disk))
    as (r1 & w1 & Hwrite & Htw); try done.
  destruct (write_timing lfsr_iterate filename (initial e disk))
    as (r1' & w1' & Hwrite' & Hn1 & _); try done.
  same_run Hwrite Hwrite'.
  destruct (write_guarantee lfsr_iterate filename _ Hfil Hws)
    as (r1' & w1' & Hwrite' & He1 & Hfil1 & _ & Hsame1 & _).
  same_run Hwrite Hwrite'.
  assert (read_side_ok (_stats w1)) as Hrs1 by by eapply read_side_ok_same.
  destruct Hsame1 as (Hrm1 & Hrx1 & _ & Hrb1 & Hrc1).
  cbn in He1, Hrm1, Hrx1, Hrb1, Hrc1.
  destruct (read_pacing filename (checked w1))
    as (r2 & w2 & Hread & Htr); try done.
  { cbn. by rewrite He1. }
  { cbn. cbn in Hn1. unfold counter_horizon. lia. }
  destruct (read_guarantee lfsr_iterate filename (checked w1) Hfil1 Hrs1)
    as (r2' & w2' & Hread' & _ & _ & _ & _ & Hsame2 & _).
  same_run Hread Hread'.
  assert (0 < write_count (_stats w2) →
          0 < write_duration_min (_stats w2) ≤ write_duration_max (_stats w2) ∧
          write_duration_max (_stats w2) ≤ write_test_duration (_stats w2)) as Htw2.
  { destruct Hsame2 as (Hm & Hx & Ht & _ & Hc). cbn in Hm, Hx, Ht, Hc.
    by rewrite Hm, Hx, Ht, Hc. }
  assert (0 < read_count (_stats w1) → False) as Hnone by (rewrite Hrc1; cbn; lia).
  destruct Hout as
    [r w1' Hw' Hne | w1' Hw' Hb | w1' Hw' Hb Hc | w1' r w2' Hw' Hb Hc Hrd Hne
    | w1' w2' Hw' Hb Hc Hrd Hrb | w1' w2' Hw' Hb Hc Hrd Hrb Hc2
    | w1' w2' Hw' Hb Hc Hrd Hrb Hc2];
    same_run Hwrite Hw'; try same_run Hread Hrd; cbn; split; auto;
    try (intros Hcount; destruct (Hnone Hcount)).
  all: intros Hcount; destruct (Htr Hcount) as [? Hd]; split; [done|];
    intros _; by apply Hd.
Qed.

End Pacing.

(** ** The thread object

    [SDCardTestThread] keeps the result in [_result], initialised to
    [Incomplete] and stored by [static_fn] once [run] has returned;
    [result()] and [stats()] read the object. *)

Record SDCardTestThread := mkThread {
  _result : Result;
  world : World;
}.

(** The object as the member initialisers leave it, with the world its
    thread is going to run in. *)
Definition SDCardTestThread_new (w : World) : SDCardTestThread :=
  mkThread Incomplete w.

Definition result (obj : SDCardTestThread) : Result := _result obj.

Definition stats (obj : SDCardTestThread) : Stats := _stats (world obj).

(** [obj->_result = obj->run(); return 0;] *)
Definition static_fn (lfsr_iterate : Z → Z) (obj : SDCardTestThread) :
    option (Z * SDCardTestThread) :=
  match run lfsr_iterate (world obj) with
  | Some (r, w') => Some (0, mkThread r w')
  | None => None
  end.


(** * The view: [SDCardDebugView]

    What the screen shows of the card and of a test run.  The values of
    the text widgets are the state; the frequency of the counter
    ([halGetCounterFrequency()], ChibiOS) and the number formatting of
    [string_format.hpp] are not part of the sources at hand and are
    parameters. *)

(** Arithmetic on [uint64_t]. *)
Definition wrap64 (z : Z) : Z := z mod 2 ^ 64.
Arguments wrap64 : simpl never.

(** Unsigned division, undefined on a zero divisor. *)
Definition udiv (a b : Z) : option Z :=
  if b =? 0 then None else Some (a / b).

(** The texts the view sets. *)
Record View := mkView {
  text_detected_value : string;
  text_bus_width_value : string;
  text_card_mode_value : string;
  text_block_size_value : string;
  text_block_count_value : string;
  text_capacity_value : string;
  text_test_write_time_value : string;
  text_test_write_rate_value : string;
  text_test_read_time_value : string;
  text_test_read_rate_value : string;
}.

Definition set_text_detected_value (s : string) (v : View) : View :=
  mkView s (text_bus_width_value v) (text_card_mode_value v) (text_block_size_value v)
         (text_block_count_value v) (text_capacity_value v)
         (text_test_write_time_value v) (text_test_write_rate_value v)
         (text_test_read_time_value v) (text_test_read_rate_value v).
Definition set_text_bus_width_value (s : string) (v : View) : View :=
  mkView (text_detected_value v) s (text_card_mode_value v) (text_block_size_value v)
         (text_block_count_value v) (text_capacity_value v)
         (text_test_write_time_value v) (text_test_write_rate_value v)
         (text_test_read_time_value v) (text_test_read_rate_value v).
Definition set_text_card_mode_value (s : string) (v : View) : View :=
  mkView (text_detected_value v) (text_bus_width_value v) s (text_block_size_value v)
         (text_block_count_value v) (text_capacity_value v)
         (text_test_write_time_value v) (text_test_write_rate_value v)
         (text_test_read_time_value v) (text_test_read_rate_value v).
Definition set_text_block_size_value (s : string) (v : View) : View :=
  mkView (text_detected_value v) (text_bus_width_value v) (text_card_mode_value v) s
         (text_block_count_value v) (text_capacity_value v)
         (text_test_write_time_value v) (text_test_write_rate_value v)
         (text_test_read_time_value v) (text_test_read_rate_value v).
Definition set_text_block_count_value (s : string) (v : View) : View :=
  mkView (text_detected_value v) (text_bus_width_value v) (text_card_mode_value v)
         (text_block_size_value v) s (text_capacity_value v)
         (text_test_write_time_value v) (text_test_write_rate_value v)
         (text_test_read_time_value v) (text_test_read_rate_value v).
Definition set_text_capacity_value (s : string) (v : View) : View :=
  mkView (text_detected_value v) (text_bus_width_value v) (text_card_mode_value v)
         (text_block_size_value v) (text_block_count_value v) s
         (text_test_write_time_value v) (text_test_write_rate_value v)
         (text_test_read_time_value v) (text_test_read_rate_value v).
Definition set_text_test_write_time_value (s : string) (v : View) : View :=
  mkView (text_detected_value v) (text_bus_width_value v) (text_card_mode_value v)
         (text_block_size_value v) (text_block_count_value v) (text_capacity_value v)
         s (text_test_write_rate_value v)
         (text_test_read_time_value v) (text_test_read_rate_value v).
Definition set_text_test_write_rate_value (s : string) (v : View) : View :=
  mkView (text_detected_value v) (text_bus_width_value v) (text_card_mode_value v)
         (text_block_size_value v) (text_block_count_value v) (text_capacity_value v)
         (text_test_write_time_value v) s
         (text_test_read_time_value v) (text_test_read_rate_value v).
Definition set_text_test_read_time_value (s : string) (v : View) : View :=
  mkView (text_detected_value v) (text_bus_width_value v) (text_card_mode_value v)
         (text_block_size_value v) (text_block_count_value v) (text_capacity_value v)
         (text_test_write_time_value v) (text_test_write_rate_value v)
         s (text_test_read_rate_value v).
Definition set_text_test_read_rate_value (s : string) (v : View) : View :=
  mkView (text_detected_value v) (text_bus_width_value v) (text_card_mode_value v)
         (text_block_size_value v) (text_block_count_value v) (text_capacity_value v)
         (text_test_write_time_value v) (text_test_write_rate_value v)
         (text_test_read_time_value v) s.

(** The empty text. *)
Definition blank : string := EmptyString.

(** [BlockDeviceInfo], as [sdcGetInfo] fills it. *)
Record BlockDeviceInfo := mkBlockDeviceInfo {
  blk_size : Z;
  blk_num : Z;
}.

(** What [on_status] reads off the card driver and the SD/MMC
    controller. *)
Record Card := mkCard {
  sdcIsCardInserted : bool;
  CTYPE : Z;                             (* [LPC_SDMMC->CTYPE] *)
  cardmode : Z;                          (* [SDCD1.cardmode] *)
  sdcGetInfo : option BlockDeviceInfo;   (* filled when [CH_SUCCESS] *)
}.

Section View.

Variable halGetCounterFrequency : Z.

(** [to_string_dec_uint(n, l, fill)], [to_string_dec_int(n, l, fill)]
    and [to_string_hex(n, l)]; a fill of [None] is the default
    argument. *)
Variable to_string_dec_uint : Z → Z → option ascii → string.
Variable to_string_dec_int : Z → Z → option ascii → string.
Variable to_string_hex : Z → Z → string.

Definition on_status (card : Card) (v : View) : View :=
  let v := set_text_bus_width_value blank v in
  let v := set_text_card_mode_value blank v in
  let v := set_text_block_size_value blank v in
  let v := set_text_block_count_value blank v in
  let v := set_text_capacity_value blank v in
  let v := set_text_test_write_time_value blank v in
  let v := set_text_test_write_rate_value blank v in
  let v := set_text_test_read_time_value blank v in
  let v := set_text_test_read_rate_value blank v in
  let is_inserted := sdcIsCardInserted card in
  let v := set_text_detected_value (if is_inserted then "Yes" else " No") v in
  if is_inserted then
    let card_width_flags := Z.land (CTYPE card) 0x10001 in
    let card_width :=
      match card_width_flags with
      | 0x00000 => 1
      | 0x00001 => 4
      | 0x10001 => 8
      | _ => 0
      end in
    let v := set_text_bus_width_value
               (if negb (card_width =? 0) then to_string_dec_uint card_width 1 None
                else "X") v in
    let v := set_text_card_mode_value ("0x" +:+ to_string_hex (cardmode card) 8) v in
    match sdcGetInfo card with
    | Some block_device_info =>
        let v := set_text_block_size_value
                   (to_string_dec_uint (blk_size block_device_info) 5 None) v in
        let v := set_text_block_count_value
                   (to_string_dec_uint (blk_num block_device_info) 9 None) v in
        let capacity := wrap64 (blk_size block_device_info * blk_num block_device_info) in
        if capacity >=? 1000000000 then
          let capacity_mb := wrap32 (capacity / 1000000) in
          let fraction_gb := capacity_mb mod 1000 in
          let capacity_gb := capacity_mb / 1000 in
          set_text_capacity_value
            (to_string_dec_uint capacity_gb 3 None +:+ "." +:+
             to_string_dec_uint fraction_gb 3 (Some "0"%char) +:+ " GB") v
        else
          let capacity_kb := wrap32 (capacity / 1000) in
          let fraction_mb := capacity_kb mod 1000 in
          let capacity_mb := capacity_kb / 1000 in
          set_text_capacity_value
            (to_string_dec_uint capacity_mb 3 None +:+ "." +:+
             to_string_dec_uint fraction_mb 3 (Some "0"%char) +:+ " MB") v
    | None => v
    end
  else v.

Definition format_ticks_as_ms (value : Z) : option string :=
  us ← udiv (wrap64 (value * 1000000)) halGetCounterFrequency;
  let us := wrap32 us in
  let ms_frac := us mod 1000 in
  let ms_int := us / 1000 in
  if ms_int <? 1000 then
    Some (to_string_dec_uint ms_int 3 None +:+ "." +:+
          to_string_dec_uint ms_frac 3 (Some "0"%char))
  else
    Some "HHH.HHH".

Definition format_bytes_per_ticks_as_mib (bytes ticks : Z) : option string :=
  bps ← udiv (wrap64 (bytes * halGetCounterFrequency)) ticks;
  let bps := wrap32 bps in
  let kbps := bps / 1000 in
  let mbps_frac := kbps mod 1000 in
  let mbps_int := kbps / 1000 in
  if mbps_int <? 1000 then
    Some (to_string_dec_uint mbps_int 3 None +:+ "." +:+
          to_string_dec_uint mbps_frac 3 (Some "0"%char))
  else
    Some "HHH.HHH".

Variable lfsr_iterate : Z → Z.

(** [on_test] with the card, heap and timer behaving as [e] and the
    card holding [disk].  The thread runs while [on_test] sleeps and
    polls [result()]; the loop is left once the result is no longer
    [Incomplete].  [None]: the function does not come back, or divides
    by zero. *)
Definition on_test (e : Env) (disk : gmap string (list (list Z))) (v : View) :
    option View :=
  let v := set_text_test_write_time_value blank v in
  let v := set_text_test_write_rate_value blank v in
  let v := set_text_test_read_time_value blank v in
  let v := set_text_test_read_rate_value blank v in
  let thread := SDCardTestThread_new (initial e disk) in
  '(_, thread) ← static_fn lfsr_iterate thread;
  if decide (result thread = Incomplete) then None else
  if decide (result thread = OK) then
    let stats := stats thread in
    write_duration_avg ← udiv (write_test_duration stats) (write_count stats);
    time_min ← format_ticks_as_ms (write_duration_min stats);
    time_avg ← format_ticks_as_ms write_duration_avg;
    time_max ← format_ticks_as_ms (write_duration_max stats);
    let v := set_text_test_write_time_value
               (time_min +:+ "/" +:+ time_avg +:+ "/" +:+ time_max) v in
    rate_best ← format_bytes_per_ticks_as_mib (write_bytes stats)
                  (wrap32 (write_duration_min stats * write_count stats));
    rate_all ← format_bytes_per_ticks_as_mib (write_bytes stats)
                 (write_test_duration stats);
    let v := set_text_test_write_rate_value (rate_best +:+ " " +:+ rate_all) v in
    read_duration_avg ← udiv (read_test_duration stats) (read_count stats);
    time_min ← format_ticks_as_ms (read_duration_min stats);
    time_avg ← format_ticks_as_ms read_duration_avg;
    time_max ← format_ticks_as_ms (read_duration_max stats);
    let v := set_text_test_read_time_value
               (time_min +:+ "/" +:+ time_avg +:+ "/" +:+ time_max) v in
    rate_best ← format_bytes_per_ticks_as_mib (read_bytes stats)
                  (wrap32 (read_duration_min stats * read_count stats));
    rate_all ← format_bytes_per_ticks_as_mib (read_bytes stats)
                 (read_test_duration stats);
    Some (set_text_test_read_rate_value (rate_best +:+ " " +:+ rate_all) v)
  else
    Some (set_text_test_write_time_value
            ("Fail: " +:+ to_string_dec_int (toUType (result thread)) 4 None) v).

End View.

(** ** Formatters to run the view on concrete inputs *)

Definition pad (l : Z) (fill : ascii) (s : string) : string :=
  String.string_of_list_ascii (replicate (Z.to_nat l - String.length s) fill) +:+ s.

(** Decimal digits, right-aligned in [l] characters; the default fill
    is taken to be a space. *)
Definition sample_dec_uint (n l : Z) (fill : option ascii) : string :=
  pad l (default " "%char fill) (pretty (Z.to_N n)).

Definition sample_dec_int (n l : Z) (fill : option ascii) : string :=
  pad l (default " "%char fill) (pretty n).

(** The counter of the board taken to run at 204 MHz. *)
Definition sample_frequency : Z := 204000000.

Example format_ticks_as_ms_sample :
  format_ticks_as_ms sample_frequency sample_dec_uint 1234567 = Some "  6.051".
Proof. vm_compute. reflexivity. Qed.

Example format_ticks_as_ms_one_second :
  format_ticks_as_ms sample_frequency sample_dec_uint sample_frequency = Some "HHH.HHH".
Proof. vm_compute. reflexivity. Qed.

Example format_bytes_per_ticks_as_mib_sample :
  format_bytes_per_ticks_as_mib sample_frequency sample_dec_uint 16777216 2040000000
  = Some "  1.677".
Proof. vm_compute. reflexivity. Qed.

(** ** Arithmetic of the view *)

(** Linear arithmetic with division and remainder by constants. *)
Ltac div_lia := Z.to_euclidean_division_equations; lia.

Lemma wrap64_small z : 0 ≤ z < 2 ^ 64 → wrap64 z = z.
Proof. intros. unfold wrap64. by apply Z.mod_small. Qed.

(** The bits that [on_status] keeps of [CTYPE]. *)
Lemma land_card_width_flags x :
  Z.land x 0x10001
  = (if Z.testbit x 16 then 0x10000 else 0) + (if Z.testbit x 0 then 1 else 0).
Proof.
  assert (∀ n, 0 ≤ n → Z.testbit 0x10001 n = (n =? 16) || (n =? 0)) as Hmask.
  { intros n Hn. change 0x10001 with (Z.lor (2 ^ 16) (2 ^ 0)).
    rewrite Z.lor_spec, !Z.pow2_bits_eqb by lia.
    by rewrite (Z.eqb_sym 16), (Z.eqb_sym 0). }
  apply Z.bits_inj'. intros n Hn. rewrite Z.land_spec, Hmask by done.
  destruct (Z.testbit x 16) eqn:H16, (Z.testbit x 0) eqn:H0; cbn [Z.add].
  - change (0x10000 + 1) with (Z.lor (2 ^ 16) (2 ^ 0)).
    rewrite Z.lor_spec, !Z.pow2_bits_eqb by lia.
    rewrite (Z.eqb_sym 16), (Z.eqb_sym 0).
    destruct (Z.eqb_spec n 16) as [->|]; [by rewrite H16|].
    destruct (Z.eqb_spec n 0) as [->|]; [by rewrite H0|].
    by rewrite andb_false_r.
  - change (0x10000 + 0) with (2 ^ 16).
    rewrite Z.pow2_bits_eqb by lia. rewrite (Z.eqb_sym 16).
    destruct (Z.eqb_spec n 16) as [->|]; [by rewrite H16|].
    destruct (Z.eqb_spec n 0) as [->|]; [by rewrite H0|].
    by rewrite andb_false_r.
  - change (0 + 1) with (2 ^ 0).
    rewrite Z.pow2_bits_eqb by lia. rewrite (Z.eqb_sym 0).
    destruct (Z.eqb_spec n 16) as [->|]; [by rewrite H16|].
    destruct (Z.eqb_spec n 0) as [->|]; [by rewrite H0|].
    by rewrite andb_false_r.
  - change (0 + 0) with 0. rewrite Z.bits_0.
    destruct (Z.eqb_spec n 16) as [->|]; [by rewrite H16|].
    destruct (Z.eqb_spec n 0) as [->|]; [by rewrite H0|].
    by rewrite andb_false_r.
Qed.

(** A minimum chunk time makes the tick count of the best-case rate,
    taken over 1024 chunks in 32 bits, vanish exactly when it is a
    multiple of [2 ^ 22]. *)
Lemma wrapped_ticks_vanish m : wrap32 (m * 1024) = 0 ↔ m mod 2 ^ 22 = 0.
Proof.
  unfold wrap32.
  change (2 ^ 32) with (2 ^ 22 * 1024).
  rewrite Z.mul_mod_distr_r by lia. lia.
Qed.

Section ViewFacts.

Variable halGetCounterFrequency : Z.
Variable to_string_dec_uint : Z → Z → option ascii → string.
Lemma format_ticks_as_ms_defined value :
  halGetCounterFrequency ≠ 0 →
  is_Some (format_ticks_as_ms halGetCounterFrequency to_string_dec_uint value).
Proof.
  intros Hf. unfold format_ticks_as_ms, udiv.
  destruct (Z.eqb_spec halGetCounterFrequency 0); [done|]. cbn.
  destruct (_ <? _); by eexists.
Qed.

Lemma format_bytes_per_ticks_as_mib_zero bytes :
  format_bytes_per_ticks_as_mib halGetCounterFrequency to_string_dec_uint bytes 0 = None.
Proof. reflexivity. Qed.

Lemma format_bytes_per_ticks_as_mib_defined bytes ticks :
  ticks ≠ 0 →
  is_Some (format_bytes_per_ticks_as_mib halGetCounterFrequency to_string_dec_uint
             bytes ticks).
Proof.
  intros Ht. unfold format_bytes_per_ticks_as_mib, udiv.
  destruct (Z.eqb_spec ticks 0); [done|]. cbn.
  destruct (_ <? _); by eexists.
Qed.

End ViewFacts.

(** ** Further properties of the test run *)

(** X1: the thread function always returns, and the result it stores
    is one of the eight codes [run] can produce: never [Incomplete],
    the value the caller polls on, and never [FailThread], which no
    code path assigns. *)
Theorem thread_result_is_terminal (lfsr_iterate : Z → Z) e disk :
  ∃ obj, static_fn lfsr_iterate (SDCardTestThread_new (initial e disk)) = Some (0, obj) ∧
    terminal (result obj) ∧
    result obj ≠ Incomplete ∧ result obj ≠ FailThread.
Proof.
  destruct (run_account lfsr_iterate e disk) as (r & w' & Hrun & Hterminal & _).
  exists (mkThread r w'). unfold static_fn. cbn. rewrite Hrun.
  split_and!; [done | done | |]; cbn; intros ->;
    destruct Hterminal as [?|[?|[?|[?|[?|[?|[?|?]]]]]]]; done.
Qed.

(** X2: what the result tells about the statistics.  [OK] comes with
    1024 chunks and 16 MiB counted in both directions (so the chunk
    counts [on_test] divides by are not zero); [FailWriteIncomplete]
    with fewer than 1024 chunks written and nothing read;
    [FailAbort] and [FailReadIncomplete] with all 1024 chunks written,
    the latter with fewer than 1024 read; [FailCompare] with all 1024
    chunks written and at least one chunk read. *)
Theorem result_tells_progress (lfsr_iterate : Z → Z) e disk :
  ∃ r w', run lfsr_iterate (initial e disk) = Some (r, w') ∧
    (r = OK →
     write_count (_stats w') = 1024 ∧ write_bytes (_stats w') = 16 * 1024 * 1024 ∧
     read_count (_stats w') = 1024 ∧ read_bytes (_stats w') = 16 * 1024 * 1024) ∧
    (r = FailWriteIncomplete →
     write_count (_stats w') < 1024 ∧ read_side_fresh (_stats w')) ∧
    (r = FailAbort → write_count (_stats w') = 1024) ∧
    (r = FailReadIncomplete →
     write_count (_stats w') = 1024 ∧ read_count (_stats w') < 1024) ∧
    (r = FailCompare →
     write_count (_stats w') = 1024 ∧ 0 < read_count (_stats w') ≤ 1024).
Proof.
  destruct (run_account lfsr_iterate e disk)
    as (r & w' & Hrun & _ & _ & Hok & Hwi & Hab & Hri & Hcmp & _).
  exists r, w'. split; [exact Hrun|].
  split_and!.
  - intros Hr. apply Hok in Hr. exact Hr.
  - intros Hr. apply Hwi in Hr. exact Hr.
  - intros Hr. apply Hab in Hr. exact Hr.
  - intros Hr. apply Hri in Hr. exact Hr.
  - intros Hr. destruct (Hcmp Hr) as (Hwc & n & (Hn & _) & Hrc).
    split; [exact Hwc|]. rewrite Hrc. rewrite chunk_count_nat in Hn. lia.
Qed.

(** X3: no false alarm.  Whatever else goes wrong, a run reports
    [FailCompare] only if some read delivered something else than the
    chunk that was written: the chunks before the [n]-th passed the
    comparison, the [n]-th was delivered altered, and [read_count]
    stands at [n + 1]. *)
Theorem miscompare_means_corruption (lfsr_iterate : Z → Z) e disk :
  ∃ r w', run lfsr_iterate (initial e disk) = Some (r, w') ∧
    (r = FailCompare →
     ∃ n, first_corrupt_read lfsr_iterate e n ∧
          read_count (_stats w') = Z.of_nat (S n)).
Proof.
  destruct (run_account lfsr_iterate e disk)
    as (r & w' & Hrun & _ & _ & _ & _ & _ & _ & Hcmp & _).
  exists r, w'. split; [exact Hrun|].
  intros Hr. destruct (Hcmp Hr) as (_ & n & Hn & Hrc). by exists n.
Qed.

(** X4: detection.  If the write phase goes through and the [k]-th
    read, after [k] good ones, delivers a buffer of the right size that
    differs from the chunk written, the run ends with [FailCompare] on
    that chunk: [read_count] is [k + 1], no read phase duration is
    recorded, the handle is released, and the test file is left on the
    card ([f_unlink] is not reached). *)
Theorem corrupted_chunk_is_reported (lfsr_iterate : Z → Z) e disk (k : nat) :
  write_goes_through e → never_cancelled e → (∀ n, ready e n = true) →
  heap_ok e 1 = true → open_read_ok e 0 = true →
  (∀ i, (i < k)%nat →
     read_ok e i = true ∧
     media e i (chunk_at lfsr_iterate i) = chunk_at lfsr_iterate i) →
  read_ok e k = true → (k < 1024)%nat →
  length (media e k (chunk_at lfsr_iterate k)) = buffer_words →
  media e k (chunk_at lfsr_iterate k) ≠ chunk_at lfsr_iterate k →
  ∃ w', run lfsr_iterate (initial e disk) = Some (FailCompare, w') ∧
    read_count (_stats w') = Z.of_nat k + 1 ∧
    read_test_duration (_stats w') = 0 ∧
    is_Some (fs w' !! filename) ∧
    (EvUnlink filename ∉ trace w') ∧
    fil w' = None.
Proof.
  intros Hthrough Hnever Hready Hheap Hopen Hgood Hserved Hk Hlen Hbad.
  destruct (run_detects_corruption lfsr_iterate e disk k)
    as (w' & Hrun & Hrc & Hdur & Hfs & Hun & Hfil); try assumption.
  exists w'. split_and!; try assumption.
  - rewrite Hrc. lia.
  - by rewrite Hfs.
Qed.

Lemma corrupted_chunk_is_reported_witness :
  ∃ w', run lfsr31 (initial (flip_bit_at 1 (steady_env 100 None)) ∅)
        = Some (FailCompare, w') ∧
    read_count (_stats w') = Z.of_nat 1 + 1 ∧
    read_test_duration (_stats w') = 0 ∧
    is_Some (fs w' !! filename) ∧
    (EvUnlink filename ∉ trace w') ∧
    fil w' = None.
Proof.
  apply (corrupted_chunk_is_reported lfsr31 (flip_bit_at 1 (steady_env 100 None)) ∅ 1%nat).
  - split_and!; [reflexivity | reflexivity | intros i _; split_and!; reflexivity].
  - intros n. reflexivity.
  - intros n. reflexivity.
  - reflexivity.
  - reflexivity.
  - intros i Hi. assert (i = 0%nat) as -> by lia. split; reflexivity.
  - reflexivity.
  - lia.
  - vm_compute. reflexivity.
  - intros Heq. apply (f_equal (hd 0)) in Heq. vm_compute in Heq. discriminate Heq.
Defined.

(** X5: cancellation seen by the check between the phases, after a
    complete write phase, ends the run with [FailAbort]: the read phase
    is not entered, the read statistics stay zero, and the 16 MiB test
    file is left on the card. *)
Theorem cancelled_between_phases_aborts (lfsr_iterate : Z → Z) e disk :
  write_goes_through e →
  terminate_requested e 1025 = true →
  ∃ w', run lfsr_iterate (initial e disk) = Some (FailAbort, w') ∧
    write_count (_stats w') = 1024 ∧
    read_side_fresh (_stats w') ∧
    (EvEnter ReadPhase ∉ trace w') ∧
    (EvUnlink filename ∉ trace w') ∧
    fs w' !! filename = Some (pattern lfsr_iterate 1 1024) ∧
    fil w' = None.
Proof.
  intros Hthrough Hcancel.
  destruct (run_cancelled_between_phases lfsr_iterate e disk Hthrough Hcancel)
    as (w' & Hrun & Hwc & _ & Hfresh & Hnoread & Hnounlink & Hfs & Hfil).
  exists w'. split_and!; assumption.
Qed.

Lemma cancelled_between_phases_aborts_witness :
  ∃ w', run lfsr31 (initial (cancel_at_check 1025 (steady_env 100 None)) ∅)
        = Some (FailAbort, w') ∧
    write_count (_stats w') = 1024 ∧
    read_side_fresh (_stats w') ∧
    (EvEnter ReadPhase ∉ trace w') ∧
    (EvUnlink filename ∉ trace w') ∧
    fs w' !! filename = Some (pattern lfsr31 1 1024) ∧
    fil w' = None.
Proof.
  apply (cancelled_between_phases_aborts lfsr31
           (cancel_at_check 1025 (steady_env 100 None)) ∅).
  - split_and!; [reflexivity | reflexivity |].
    intros i Hi. rewrite chunk_count_nat in Hi.
    split_and!; [apply bool_decide_eq_false; lia | reflexivity | reflexivity].
  - apply bool_decide_eq_true. reflexivity.
Defined.

(** X6: a cancellation that is seen only by the last check of [run],
    after both phases have gone through without a fault, still turns
    the result into [FailAbort], although all 1024 chunks were read
    back and matched and the test file has been deleted. *)
Theorem late_cancellation_aborts (lfsr_iterate : Z → Z) e disk :
  fault_free e →
  (∀ n, (n < final_check)%nat → terminate_requested e n = false) →
  terminate_requested e final_check = true →
  final_check = 2051%nat ∧
  ∃ w', run lfsr_iterate (initial e disk) = Some (FailAbort, w') ∧
    write_count (_stats w') = 1024 ∧
    read_count (_stats w') = 1024 ∧
    read_bytes (_stats w') = 16 * 1024 * 1024 ∧
    fs w' !! filename = None ∧
    EvUnlink filename ∈ trace w'.
Proof.
  intros Hff Hquiet Hcancel. split; [reflexivity|].
  destruct (run_cancelled_at_the_end lfsr_iterate e disk Hff Hquiet Hcancel)
    as (w' & Hrun & Hwc & Hrc & Hrb & Hfs & Hun).
  exists w'. split_and!; assumption.
Qed.

Lemma late_cancellation_aborts_witness :
  final_check = 2051%nat ∧
  ∃ w', run lfsr31 (initial (cancel_at_check final_check (steady_env 100 None)) ∅)
        = Some (FailAbort, w') ∧
    write_count (_stats w') = 1024 ∧
    read_count (_stats w') = 1024 ∧
    read_bytes (_stats w') = 16 * 1024 * 1024 ∧
    fs w' !! filename = None ∧
    EvUnlink filename ∈ trace w'.
Proof.
  apply (late_cancellation_aborts lfsr31
           (cancel_at_check final_check (steady_env 100 None)) ∅).
  - intros n. split_and!; reflexivity.
  - intros n Hn. apply bool_decide_eq_false. lia.
  - apply bool_decide_eq_true. reflexivity.
Defined.

(** X7: cancellation seen by the read loop after [k] chunks, fewer
    than 1024, ends the run with [FailReadIncomplete], not
    [FailAbort]: [run] tests the bytes read before it looks at the
    termination flag.  The read statistics count exactly the [k] chunks
    read before, and the test file has been deleted. *)
Theorem cancelled_read_is_incomplete (lfsr_iterate : Z → Z) e disk (k : nat) :
  write_goes_through e → (∀ n, ready e n = true) →
  heap_ok e 1 = true → open_read_ok e 0 = true →
  (∀ n, (n < 1026 + k)%nat → terminate_requested e n = false) →
  terminate_requested e (1026 + k) = true →
  (∀ i, (i < k)%nat → read_ok e i = true ∧ ∀ chunk, media e i chunk = chunk) →
  (k < 1024)%nat →
  ∃ w', run lfsr_iterate (initial e disk) = Some (FailReadIncomplete, w') ∧
    write_count (_stats w') = 1024 ∧
    read_count (_stats w') = Z.of_nat k ∧
    read_bytes (_stats w') = Z.of_nat k * write_size ∧
    fs w' !! filename = None ∧
    EvUnlink filename ∈ trace w'.
Proof.
  intros Hthrough Hready Hheap Hopen Hquiet Hcancel Hreads Hk.
  destruct (run_cancelled_in_read lfsr_iterate e disk k)
    as (w' & Hrun & Hwc & Hrc & Hrb & Hfs & Hun); try assumption.
  exists w'. split_and!; assumption.
Qed.

Lemma cancelled_read_is_incomplete_witness :
  ∃ w', run lfsr31 (initial (cancel_at_check (1026 + 3) (steady_env 100 None)) ∅)
        = Some (FailReadIncomplete, w') ∧
    write_count (_stats w') = 1024 ∧
    read_count (_stats w') = Z.of_nat 3 ∧
    read_bytes (_stats w') = Z.of_nat 3 * write_size ∧
    fs w' !! filename = None ∧
    EvUnlink filename ∈ trace w'.
Proof.
  apply (cancelled_read_is_incomplete lfsr31
           (cancel_at_check (1026 + 3) (steady_env 100 None)) ∅ 3%nat).
  - split_and!; [reflexivity | reflexivity |].
    intros i Hi. rewrite chunk_count_nat in Hi.
    split_and!; [apply bool_decide_eq_false; lia | reflexivity | reflexivity].
  - intros n. reflexivity.
  - reflexivity.
  - reflexivity.
  - intros n Hn. apply bool_decide_eq_false. lia.
  - apply bool_decide_eq_true. reflexivity.
  - intros i Hi. split; [reflexivity | intros chunk; reflexivity].
  - lia.
Defined.

(** X8: a run that is refused its first buffer or the open for writing
    ends with [FailHeap], respectively [FailFileOpenWrite], before any
    transfer: the statistics are untouched, no handle is left open, the
    trace holds nothing but the entry into the write phase and, if it
    got that far, the refused open; without the buffer the card is not
    touched at all. *)
Theorem refused_start_leaves_card_alone (lfsr_iterate : Z → Z) e disk :
  heap_ok e 0 && open_write_ok e 0 = false →
  ∃ w', run lfsr_iterate (initial e disk)
        = Some (if heap_ok e 0 then FailFileOpenWrite else FailHeap, w') ∧
    _stats w' = Stats_init ∧ fil w' = None ∧
    trace w' = (if heap_ok e 0 then [EvOpen WritePhase false; EvEnter WritePhase]
                else [EvEnter WritePhase]) ∧
    (heap_ok e 0 = false → fs w' = disk).
Proof. apply run_refused_at_start. Qed.

Lemma refused_start_leaves_card_alone_witness :
  ∃ w', run lfsr31 (initial (heap_exhausted (steady_env 100 None)) foreign_disk)
        = Some (FailHeap, w') ∧
    _stats w' = Stats_init ∧ fil w' = None ∧
    trace w' = [EvEnter WritePhase] ∧
    (false = false → fs w' = foreign_disk).
Proof.
  apply (refused_start_leaves_card_alone lfsr31
           (heap_exhausted (steady_env 100 None)) foreign_disk).
  reflexivity.
Defined.

(** X9: the run touches no file but its own.  Whatever the environment
    does and however the run ends, every file of the card other than
    [_PPTEST_.DAT] holds at the end what it held at the start. *)
Theorem run_touches_only_test_file (lfsr_iterate : Z → Z) e disk :
  ∃ r w', run lfsr_iterate (initial e disk) = Some (r, w') ∧
    ∀ path, path ≠ filename → fs w' !! path = disk !! path.
Proof.
  destruct (run_account lfsr_iterate e disk) as (r & w' & Hrun & _ & Hframe & _).
  by exists r, w'.
Qed.

(** X10: no cleanup on failure.  The test file is deleted only by a
    run whose read phase returned [OK]: a run that ends with
    [FailHeap], [FailFileOpenWrite], [FailFileOpenRead],
    [FailWriteIncomplete] or [FailCompare] never unlinks it, and after
    the last three the card still holds [_PPTEST_.DAT] with exactly the
    chunks of the pattern that the write phase counted. *)
Theorem failed_run_leaves_test_file (lfsr_iterate : Z → Z) e disk :
  ∃ r w', run lfsr_iterate (initial e disk) = Some (r, w') ∧
    (r = FailHeap ∨ r = FailFileOpenWrite ∨ r = FailFileOpenRead ∨
     r = FailWriteIncomplete ∨ r = FailCompare →
     EvUnlink filename ∉ trace w') ∧
    (r = FailFileOpenRead ∨ r = FailWriteIncomplete ∨ r = FailCompare →
     ∃ j : nat, write_count (_stats w') = Z.of_nat j ∧
       fs w' !! filename = Some (pattern lfsr_iterate 1 j)).
Proof.
  destruct (run_account lfsr_iterate e disk)
    as (r & w' & Hrun & _ & _ & _ & _ & _ & _ & _ & Hunlink & Hfile).
  exists r, w'. split; [exact Hrun|]. split.
  - intros Hr Hin. destruct (Hunlink Hin) as [->|[->| ->]];
      destruct Hr as [?|[?|[?|[?|?]]]]; discriminate.
  - intros [?|[?|?]]; apply Hfile; auto.
Qed.

(** X11: chunk times against the phase duration.  When the counter
    neither wraps nor reads the same value twice over the run, each
    phase that completed at least one chunk has a minimum chunk time
    above zero and at most the maximum, and the maximum is at most the
    duration recorded for the whole phase (for the read phase: unless
    the run ended on a mismatch, which records no phase duration). *)
Theorem chunk_times_within_phase (lfsr_iterate : Z → Z) e disk :
  steady_counter e →
  ∃ r w', run lfsr_iterate (initial e disk) = Some (r, w') ∧
    (0 < write_count (_stats w') →
     0 < write_duration_min (_stats w') ≤ write_duration_max (_stats w') ∧
     write_duration_max (_stats w') ≤ write_test_duration (_stats w')) ∧
    (0 < read_count (_stats w') →
     0 < read_duration_min (_stats w') ≤ read_duration_max (_stats w') ∧
     (r ≠ FailCompare →
      read_duration_max (_stats w') ≤ read_test_duration (_stats w'))).
Proof. apply run_pacing. Qed.

Lemma chunk_times_within_phase_witness :
  ∃ r w', run lfsr31 (initial (steady_env 1 None) ∅) = Some (r, w') ∧
    (0 < write_count (_stats w') →
     0 < write_duration_min (_stats w') ≤ write_duration_max (_stats w') ∧
     write_duration_max (_stats w') ≤ write_test_duration (_stats w')) ∧
    (0 < read_count (_stats w') →
     0 < read_duration_min (_stats w') ≤ read_duration_max (_stats w') ∧
     (r ≠ FailCompare →
      read_duration_max (_stats w') ≤ read_test_duration (_stats w'))).
Proof.
  apply (chunk_times_within_phase lfsr31 (steady_env 1 None) ∅).
  exact steady_env_steady.
Defined.

(** ** Properties of the view *)

(** X12: durations on screen.  With the counter running at 1 MHz or
    more, a tick count below one second of ticks is shown as whole
    milliseconds, below 1000, and three decimals, which are the
    microseconds [value * 1000000 / frequency] (rounded down) split at
    the thousand; a tick count of one second or more is shown as
    [HHH.HHH]. *)
Theorem ticks_shown_as_milliseconds
    (halGetCounterFrequency : Z) (to_string_dec_uint : Z → Z → option ascii → string)
    (value : Z) :
  0 ≤ value < 2 ^ 32 → 1000000 ≤ halGetCounterFrequency →
  format_ticks_as_ms halGetCounterFrequency to_string_dec_uint value
  = Some (if value <? halGetCounterFrequency
          then to_string_dec_uint (value * 1000000 / halGetCounterFrequency / 1000) 3 None
               +:+ "." +:+
               to_string_dec_uint (value * 1000000 / halGetCounterFrequency mod 1000) 3
                 (Some "0"%char)
          else "HHH.HHH") ∧
  (value < halGetCounterFrequency →
   0 ≤ value * 1000000 / halGetCounterFrequency / 1000 < 1000).
Proof.
  intros Hv Hf.
  remember (value * 1000000 / halGetCounterFrequency) as us eqn:Eus.
  assert (0 ≤ us ≤ value) as Hus.
  { rewrite Eus. split; [apply Z.div_pos; lia|].
    apply Z.div_le_upper_bound; nia. }
  assert (value < halGetCounterFrequency ↔ us < 1000000) as Hlt.
  { split; intros H.
    - rewrite Eus. apply Z.div_lt_upper_bound; lia.
    - destruct (Z_lt_le_dec value halGetCounterFrequency) as [|Hge]; [done|].
      assert (1000000 ≤ us); [|lia].
      rewrite Eus. apply Z.div_le_lower_bound; lia. }
  split; [|intros H; apply Hlt in H; clear - H Hus; div_lia].
  unfold format_ticks_as_ms, udiv.
  destruct (Z.eqb_spec halGetCounterFrequency 0); [lia|]. cbn.
  rewrite wrap64_small by lia. rewrite <- Eus. rewrite wrap32_small by lia.
  destruct Hlt as [Hlt1 Hlt2].
  destruct (Z.ltb_spec value halGetCounterFrequency);
    destruct (Z.ltb_spec (us / 1000) 1000); try reflexivity; exfalso.
  - assert (us < 1000000) by auto. clear - H1 H0 Hus. div_lia.
  - assert (value < halGetCounterFrequency) by (apply Hlt2; clear - H0 Hus; div_lia). lia.
Qed.

Lemma ticks_shown_as_milliseconds_witness :
  format_ticks_as_ms sample_frequency sample_dec_uint 1234567
  = Some (if 1234567 <? sample_frequency
          then sample_dec_uint (1234567 * 1000000 / sample_frequency / 1000) 3 None
               +:+ "." +:+
               sample_dec_uint (1234567 * 1000000 / sample_frequency mod 1000) 3
                 (Some "0"%char)
          else "HHH.HHH") ∧
  (1234567 < sample_frequency →
   0 ≤ 1234567 * 1000000 / sample_frequency / 1000 < 1000).
Proof.
  apply (ticks_shown_as_milliseconds sample_frequency sample_dec_uint 1234567).
  - lia.
  - unfold sample_frequency. lia.
Defined.

(** X13: rates on screen.  For a nonzero tick count and a rate
    [bytes * frequency / ticks] (bytes per second, rounded down) that
    fits 32 bits, the rate is shown in decimal megabytes per second,
    [10 ^ 6] bytes and not [2 ^ 20], with three decimals that are the
    kilobytes per second modulo 1000; a rate of [10 ^ 9] bytes per
    second or more is shown as [HHH.HHH]. *)
Theorem rate_shown_in_decimal_megabytes
    (halGetCounterFrequency : Z) (to_string_dec_uint : Z → Z → option ascii → string)
    (bytes ticks : Z) :
  0 ≤ bytes < 2 ^ 32 → 0 < ticks → 0 ≤ halGetCounterFrequency < 2 ^ 32 →
  bytes * halGetCounterFrequency / ticks < 2 ^ 32 →
  format_bytes_per_ticks_as_mib halGetCounterFrequency to_string_dec_uint bytes ticks
  = Some (if bytes * halGetCounterFrequency / ticks <? 1000000000
          then to_string_dec_uint (bytes * halGetCounterFrequency / ticks / 1000000) 3 None
               +:+ "." +:+
               to_string_dec_uint (bytes * halGetCounterFrequency / ticks / 1000 mod 1000) 3
                 (Some "0"%char)
          else "HHH.HHH") ∧
  (bytes * halGetCounterFrequency / ticks < 1000000000 →
   0 ≤ bytes * halGetCounterFrequency / ticks / 1000000 < 1000).
Proof.
  intros Hb Ht Hf Hfit.
  remember (bytes * halGetCounterFrequency / ticks) as bps eqn:Ebps.
  assert (0 ≤ bps) as Hbps by (rewrite Ebps; apply Z.div_pos; nia).
  split; [|clear - Hbps; div_lia].
  unfold format_bytes_per_ticks_as_mib, udiv.
  destruct (Z.eqb_spec ticks 0); [lia|]. cbn.
  rewrite wrap64_small by nia. rewrite <- Ebps. rewrite wrap32_small by lia.
  replace (bps / 1000 / 1000) with (bps / 1000000) by (clear; div_lia).
  destruct (Z.ltb_spec bps 1000000000);
    destruct (Z.ltb_spec (bps / 1000000) 1000); try reflexivity;
    exfalso; clear - H H0 Hbps; div_lia.
Qed.

Lemma rate_shown_in_decimal_megabytes_witness :
  format_bytes_per_ticks_as_mib sample_frequency sample_dec_uint 16777216 2040000000
  = Some (if 16777216 * sample_frequency / 2040000000 <? 1000000000
          then sample_dec_uint (16777216 * sample_frequency / 2040000000 / 1000000) 3 None
               +:+ "." +:+
               sample_dec_uint (16777216 * sample_frequency / 2040000000 / 1000 mod 1000) 3
                 (Some "0"%char)
          else "HHH.HHH") ∧
  (16777216 * sample_frequency / 2040000000 < 1000000000 →
   0 ≤ 16777216 * sample_frequency / 2040000000 / 1000000 < 1000).
Proof.
  apply (rate_shown_in_decimal_megabytes sample_frequency sample_dec_uint
           16777216 2040000000).
  - lia.
  - lia.
  - unfold sample_frequency. lia.
  - vm_compute. reflexivity.
Defined.

(** X14: the capacity on screen.  For a card that is inserted and
    reports its geometry, with a capacity [blk_size * blk_num] below
    [2 ^ 32] megabytes, a capacity below [10 ^ 9] bytes is shown in
    decimal megabytes, below 1000, with the kilobytes modulo 1000 as
    decimals, and a larger one in decimal gigabytes with the megabytes
    modulo 1000 as decimals. *)
Theorem capacity_shown_in_decimal_units
    (to_string_dec_uint : Z → Z → option ascii → string) (to_string_hex : Z → Z → string)
    (card : Card) (info : BlockDeviceInfo) (v : View) :
  sdcIsCardInserted card = true → sdcGetInfo card = Some info →
  0 ≤ blk_size info < 2 ^ 32 → 0 ≤ blk_num info < 2 ^ 32 →
  blk_size info * blk_num info < 2 ^ 32 * 1000000 →
  text_capacity_value (on_status to_string_dec_uint to_string_hex card v)
  = (if blk_size info * blk_num info <? 1000000000
     then to_string_dec_uint (blk_size info * blk_num info / 1000000) 3 None
          +:+ "." +:+
          to_string_dec_uint (blk_size info * blk_num info / 1000 mod 1000) 3
            (Some "0"%char)
          +:+ " MB"
     else to_string_dec_uint (blk_size info * blk_num info / 1000000000) 3 None
          +:+ "." +:+
          to_string_dec_uint (blk_size info * blk_num info / 1000000 mod 1000) 3
            (Some "0"%char)
          +:+ " GB") ∧
  (blk_size info * blk_num info < 1000000000 →
   0 ≤ blk_size info * blk_num info / 1000000 < 1000).
Proof.
  intros Hin Hinfo Hs Hn Hfit.
  remember (blk_size info * blk_num info) as capacity eqn:Ecap.
  assert (0 ≤ capacity < 2 ^ 64) as Hc by (rewrite Ecap; nia).
  split; [|clear - Hc; div_lia].
  unfold on_status. rewrite Hin, Hinfo. cbn zeta. rewrite <- Ecap.
  rewrite wrap64_small by lia.
  rewrite Z.geb_leb.
  destruct (Z.ltb_spec capacity 1000000000) as [Hsmall|Hlarge];
    destruct (Z.leb_spec 1000000000 capacity); try lia; cbn.
  - rewrite wrap32_small by (clear - Hc Hsmall; div_lia).
    replace (capacity / 1000 / 1000) with (capacity / 1000000) by (clear; div_lia).
    reflexivity.
  - rewrite wrap32_small by (clear - Hc Hfit; div_lia).
    replace (capacity / 1000000 / 1000) with (capacity / 1000000000) by (clear; div_lia).
    reflexivity.
Qed.

Lemma capacity_shown_in_decimal_units_witness :
  text_capacity_value
    (on_status sample_dec_uint (λ _ _, blank)
       (mkCard true 1 0 (Some (mkBlockDeviceInfo 512 62333952)))
       (mkView blank blank blank blank blank blank blank blank blank blank))
  = (if 512 * 62333952 <? 1000000000
     then sample_dec_uint (512 * 62333952 / 1000000) 3 None
          +:+ "." +:+
          sample_dec_uint (512 * 62333952 / 1000 mod 1000) 3 (Some "0"%char)
          +:+ " MB"
     else sample_dec_uint (512 * 62333952 / 1000000000) 3 None
          +:+ "." +:+
          sample_dec_uint (512 * 62333952 / 1000000 mod 1000) 3 (Some "0"%char)
          +:+ " GB") ∧
  (512 * 62333952 < 1000000000 → 0 ≤ 512 * 62333952 / 1000000 < 1000).
Proof.
  apply (capacity_shown_in_decimal_units sample_dec_uint (λ _ _, blank)
           (mkCard true 1 0 (Some (mkBlockDeviceInfo 512 62333952)))
           (mkBlockDeviceInfo 512 62333952)).
  - reflexivity.
  - reflexivity.
  - cbn. lia.
  - cbn. lia.
  - cbn. lia.
Defined.

Example capacity_of_a_32_GB_card :
  text_capacity_value
    (on_status sample_dec_uint (λ _ _, blank)
       (mkCard true 1 0 (Some (mkBlockDeviceInfo 512 62333952)))
       (mkView blank blank blank blank blank blank blank blank blank blank))
  = " 31.914 GB".
Proof. vm_compute. reflexivity. Qed.

(** X15: the bus width on screen.  For an inserted card the width
    shown is decided by bits 0 and 16 of the controller's [CTYPE]
    alone: neither set gives 1, bit 0 alone gives 4, both give 8, and
    bit 16 alone, which is no width, gives [X]. *)
Theorem bus_width_from_controller_bits
    (to_string_dec_uint : Z → Z → option ascii → string) (to_string_hex : Z → Z → string)
    (card : Card) (v : View) :
  sdcIsCardInserted card = true →
  text_bus_width_value (on_status to_string_dec_uint to_string_hex card v)
  = match Z.testbit (CTYPE card) 16, Z.testbit (CTYPE card) 0 with
    | false, false => to_string_dec_uint 1 1 None
    | false, true => to_string_dec_uint 4 1 None
    | true, true => to_string_dec_uint 8 1 None
    | true, false => "X"
    end.
Proof.
  intros Hin. unfold on_status. rewrite Hin. cbn zeta.
  rewrite land_card_width_flags.
  destruct (Z.testbit (CTYPE card) 16), (Z.testbit (CTYPE card) 0);
    destruct (sdcGetInfo card); cbn; try reflexivity.
  all: by destruct (_ >=? _).
Qed.

Lemma bus_width_from_controller_bits_witness :
  text_bus_width_value
    (on_status sample_dec_uint (λ _ _, blank) (mkCard true 0x10000 0 None)
       (mkView blank blank blank blank blank blank blank blank blank blank))
  = match Z.testbit 0x10000 16, Z.testbit 0x10000 0 with
    | false, false => sample_dec_uint 1 1 None
    | false, true => sample_dec_uint 4 1 None
    | true, true => sample_dec_uint 8 1 None
    | true, false => "X"
    end.
Proof.
  apply (bus_width_from_controller_bits sample_dec_uint (λ _ _, blank)
           (mkCard true 0x10000 0 None)).
  reflexivity.
Defined.

(** X16: a status change overwrites every field.  What [on_status]
    leaves on screen depends on the card alone, not on what was shown
    before; in particular the four fields of the test results are
    blank afterwards, whatever [on_test] had put there. *)
Theorem status_overwrites_every_field
    (to_string_dec_uint : Z → Z → option ascii → string) (to_string_hex : Z → Z → string)
    (card : Card) (v v' : View) :
  on_status to_string_dec_uint to_string_hex card v
  = on_status to_string_dec_uint to_string_hex card v' ∧
  text_test_write_time_value (on_status to_string_dec_uint to_string_hex card v) = blank ∧
  text_test_write_rate_value (on_status to_string_dec_uint to_string_hex card v) = blank ∧
  text_test_read_time_value (on_status to_string_dec_uint to_string_hex card v) = blank ∧
  text_test_read_rate_value (on_status to_string_dec_uint to_string_hex card v) = blank.
Proof.
  unfold on_status.
  destruct (sdcIsCardInserted card); cbn zeta;
    [destruct (sdcGetInfo card); [destruct (_ >=? _)|]|];
    split_and!; reflexivity.
Qed.

(** X17: a failed test on screen.  [on_test] always comes back from a
    run that does not end with [OK]: the write time field shows
    [Fail: ] followed by the result code, which lies between -8 and -2,
    the other three test fields are blank, and the card fields are
    left as they were. *)
Theorem failed_test_shows_code
    (halGetCounterFrequency : Z)
    (to_string_dec_uint to_string_dec_int : Z → Z → option ascii → string)
    (lfsr_iterate : Z → Z) e disk (v : View) :
  ∃ r w', run lfsr_iterate (initial e disk) = Some (r, w') ∧
    (r ≠ OK →
     -8 ≤ toUType r ≤ -2 ∧
     on_test halGetCounterFrequency to_string_dec_uint to_string_dec_int lfsr_iterate
       e disk v
     = Some (mkView (text_detected_value v) (text_bus_width_value v)
               (text_card_mode_value v) (text_block_size_value v)
               (text_block_count_value v) (text_capacity_value v)
               ("Fail: " +:+ to_string_dec_int (toUType r) 4 None)
               blank blank blank)).
Proof.
  destruct (run_account lfsr_iterate e disk) as (r & w' & Hrun & Hterminal & _).
  exists r, w'. split; [exact Hrun|]. intros Hr.
  unfold on_test, static_fn. cbn [world SDCardTestThread_new]. rewrite Hrun.
  destruct Hterminal as [->|[->|[->|[->|[->|[->|[->| ->]]]]]]];
    [done|..]; (split; [cbn; lia | reflexivity]).
Qed.

(** The divisions of [on_test] after a run that ended with [OK]. *)
Lemma on_test_passed
    (halGetCounterFrequency : Z)
    (to_string_dec_uint to_string_dec_int : Z → Z → option ascii → string)
    (lfsr_iterate : Z → Z) e disk (v : View) w' :
  halGetCounterFrequency ≠ 0 →
  run lfsr_iterate (initial e disk) = Some (OK, w') →
  on_test halGetCounterFrequency to_string_dec_uint to_string_dec_int lfsr_iterate
    e disk v = None
  ↔ write_duration_min (_stats w') mod 2 ^ 22 = 0 ∨
    write_test_duration (_stats w') = 0 ∨
    read_duration_min (_stats w') mod 2 ^ 22 = 0 ∨
    read_test_duration (_stats w') = 0.
Proof.
  intros Hf Hrun.
  destruct (run_account lfsr_iterate e disk)
    as (r & w'' & Hrun' & _ & _ & Hok & _).
  same_run Hrun Hrun'.
  destruct (Hok eq_refl) as (Hwc & _ & Hrc & _).
  rewrite chunk_count_eq in Hwc, Hrc. clear Hok.
  unfold on_test, static_fn. cbn [world SDCardTestThread_new]. rewrite Hrun.
  cbn [mbind option_bind]. unfold stats, result. cbn [_result world].
  destruct (decide (OK = Incomplete)) as [?|_]; [done|].
  destruct (decide (OK = OK)) as [_|?]; [|done].
  remember (_stats w') as s eqn:Es.
  rewrite Hwc, Hrc.
  assert (∀ a, udiv a 1024 = Some (a / 1024)) as Hudiv by reflexivity.
  rewrite !Hudiv. cbn [mbind option_bind option_ret mret].
  repeat match goal with
    | |- context [format_ticks_as_ms ?f ?d ?x] =>
        destruct (format_ticks_as_ms_defined f d x Hf) as [? ->];
        cbn [mbind option_bind]
    end.
  destruct (decide (write_duration_min s mod 2 ^ 22 = 0)) as [Hz1|Hz1].
  { rewrite (proj2 (wrapped_ticks_vanish _) Hz1).
    rewrite format_bytes_per_ticks_as_mib_zero. cbn. split; [intros _; auto | done]. }
  match goal with |- context [format_bytes_per_ticks_as_mib ?f ?d ?b ?t] =>
    destruct (format_bytes_per_ticks_as_mib_defined f d b t) as [? ->];
      [by rewrite wrapped_ticks_vanish|]
  end.
  cbn [mbind option_bind].
  destruct (decide (write_test_duration s = 0)) as [Hz2|Hz2].
  { rewrite Hz2, format_bytes_per_ticks_as_mib_zero. cbn. split; [intros _; auto | done]. }
  match goal with |- context [format_bytes_per_ticks_as_mib ?f ?d ?b ?t] =>
    destruct (format_bytes_per_ticks_as_mib_defined f d b t) as [? ->]; [done|]
  end.
  cbn [mbind option_bind].
  repeat match goal with
    | |- context [format_ticks_as_ms ?f ?d ?x] =>
        destruct (format_ticks_as_ms_defined f d x Hf) as [? ->];
        cbn [mbind option_bind]
    end.
  destruct (decide (read_duration_min s mod 2 ^ 22 = 0)) as [Hz3|Hz3].
  { rewrite (proj2 (wrapped_ticks_vanish _) Hz3).
    rewrite format_bytes_per_ticks_as_mib_zero. cbn. split; [intros _; auto | done]. }
  match goal with |- context [format_bytes_per_ticks_as_mib ?f ?d ?b ?t] =>
    destruct (format_bytes_per_ticks_as_mib_defined f d b t) as [? ->];
      [by rewrite wrapped_ticks_vanish|]
  end.
  cbn [mbind option_bind].
  destruct (decide (read_test_duration s = 0)) as [Hz4|Hz4].
  { rewrite Hz4, format_bytes_per_ticks_as_mib_zero. cbn. split; [intros _; auto | done]. }
  match goal with |- context [format_bytes_per_ticks_as_mib ?f ?d ?b ?t] =>
    destruct (format_bytes_per_ticks_as_mib_defined f d b t) as [? ->]; [done|]
  end.
  cbn [mbind option_bind].
  split; [done | intros [?|[?|[?|?]]]; done].
Qed.

(** X18: a passed test on screen.  After a run that ends with [OK],
    with a nonzero counter frequency, the only divisions of [on_test]
    that can be by zero are those of the rates: [on_test] fails to
    produce its texts exactly when a phase duration is zero or when a
    minimum chunk time is a multiple of [2 ^ 22] ticks, the product
    [duration_min * count] being taken in 32 bits with a count of
    1024. *)
Theorem passed_test_divisions
    (halGetCounterFrequency : Z)
    (to_string_dec_uint to_string_dec_int : Z → Z → option ascii → string)
    (lfsr_iterate : Z → Z) e disk (v : View) :
  halGetCounterFrequency ≠ 0 →
  ∃ r w', run lfsr_iterate (initial e disk) = Some (r, w') ∧
    (r = OK →
     (on_test halGetCounterFrequency to_string_dec_uint to_string_dec_int lfsr_iterate
        e disk v = None
      ↔ write_duration_min (_stats w') mod 2 ^ 22 = 0 ∨
        write_test_duration (_stats w') = 0 ∨
        read_duration_min (_stats w') mod 2 ^ 22 = 0 ∨
        read_test_duration (_stats w') = 0)).
Proof.
  intros Hf.
  destruct (run_account lfsr_iterate e disk) as (r & w' & Hrun & _).
  exists r, w'. split; [exact Hrun|]. intros ->.
  by apply on_test_passed.
Qed.

Lemma passed_test_divisions_witness :
  ∃ r w', run lfsr31 (initial (steady_env 100 None) ∅) = Some (r, w') ∧
    (r = OK →
     (on_test sample_frequency sample_dec_uint sample_dec_int lfsr31
        (steady_env 100 None) ∅
        (mkView blank blank blank blank blank blank blank blank blank blank) = None
      ↔ write_duration_min (_stats w') mod 2 ^ 22 = 0 ∨
        write_test_duration (_stats w') = 0 ∨
        read_duration_min (_stats w') mod 2 ^ 22 = 0 ∨
        read_test_duration (_stats w') = 0)).
Proof.
  apply (passed_test_divisions sample_frequency sample_dec_uint sample_dec_int lfsr31
           (steady_env 100 None) ∅).
  unfold sample_frequency. lia.
Defined.

(** X19: a passed test is shown.  When the counter neither wraps nor
    reads the same value twice over the run, the frequency is not zero,
    the run ends with [OK] and no chunk took [2 ^ 22] ticks or more,
    [on_test] produces its four texts. *)
Theorem fast_card_test_is_shown
    (halGetCounterFrequency : Z)
    (to_string_dec_uint to_string_dec_int : Z → Z → option ascii → string)
    (lfsr_iterate : Z → Z) e disk (v : View) :
  halGetCounterFrequency ≠ 0 → steady_counter e →
  ∃ r w', run lfsr_iterate (initial e disk) = Some (r, w') ∧
    (r = OK →
     write_duration_max (_stats w') < 2 ^ 22 →
     read_duration_max (_stats w') < 2 ^ 22 →
     is_Some (on_test halGetCounterFrequency to_string_dec_uint to_string_dec_int
                lfsr_iterate e disk v)).
Proof.
  intros Hf Hsteady.
  destruct (run_pacing lfsr_iterate e disk Hsteady) as (r & w' & Hrun & Hw & Hr).
  exists r, w'. split; [exact Hrun|]. intros -> Hwmax Hrmax.
  destruct (run_account lfsr_iterate e disk)
    as (r & w'' & Hrun' & _ & _ & Hok & _).
  same_run Hrun Hrun'.
  destruct (Hok eq_refl) as (Hwc & _ & Hrc & _).
  rewrite chunk_count_eq in Hwc, Hrc.
  destruct Hw as [[? ?] ?]; [lia|]. destruct Hr as [[? ?] Hrd]; [lia|].
  assert (read_duration_max (_stats w') ≤ read_test_duration (_stats w'))
    by by apply Hrd.
  destruct (on_test halGetCounterFrequency to_string_dec_uint to_string_dec_int
              lfsr_iterate e disk v) as [v'|] eqn:Hshown; [by eexists|].
  exfalso.
  apply (on_test_passed _ _ _ _ _ _ _ w' Hf Hrun) in Hshown.
  rewrite !Z.mod_small in Hshown by lia. lia.
Qed.

Lemma fast_card_test_is_shown_witness :
  ∃ r w', run lfsr31 (initial (steady_env 1 None) ∅) = Some (r, w') ∧
    (r = OK →
     write_duration_max (_stats w') < 2 ^ 22 →
     read_duration_max (_stats w') < 2 ^ 22 →
     is_Some (on_test sample_frequency sample_dec_uint sample_dec_int
                lfsr31 (steady_env 1 None) ∅
                (mkView blank blank blank blank blank blank blank blank blank blank))).
Proof.
  apply (fast_card_test_is_shown sample_frequency sample_dec_uint sample_dec_int lfsr31
           (steady_env 1 None) ∅).
  - unfold sample_frequency. lia.
  - exact steady_env_steady.
Defined.

(** The view run end to end, with a register that stands still: every
    chunk taking one millisecond, and every chunk taking [2 ^ 22]
    ticks. *)
Example on_test_one_millisecond_per_chunk :
  on_test sample_frequency sample_dec_uint sample_dec_int (λ v, v)
    (steady_env 204000 None) ∅
    (mkView blank blank blank blank blank blank blank blank blank blank)
  = Some (mkView blank blank blank blank blank blank
            "  1.000/  2.000/  1.000" " 16.384   8.188"
            "  1.000/  2.000/  1.000" " 16.384   8.188").
Proof. vm_compute. reflexivity. Qed.

Example on_test_divides_by_zero :
  on_test sample_frequency sample_dec_uint sample_dec_int (λ v, v)
    (steady_env 4194304 None) ∅
    (mkView blank blank blank blank blank blank blank blank blank blank)
  = None.
Proof. vm_compute. reflexivity. Qed.
